(** * Envelope encryption service of workastra/desk

    A shallow embedding of the server-side crypto layer
    ([internal/core/server/crypto]): the key material manager of the abstract
    [EncryptionProvider], the [JWEA256GCMProvider], the metadata envelope
    codec, the [EncryptionService] registry, the factory and its singleton;
    and of the cookie handles ([internal/core/cookie]).

    JavaScript strings are sequences of UTF-16 code units, so they are
    modelled as [list N]; byte arrays ([Uint8Array], [Buffer]) are [list N]
    with entries below 256.  The platform functions the code calls
    ([String.prototype.split], [trim], [TextEncoder], [TextDecoder], [btoa],
    [atob], [JSON.stringify], [JSON.parse], [Map]) are embedded from their
    standards; the [jose] library and Node's base64 [Buffer] decoder are
    taken as an interface ([Jose]) with the laws of an ideal authenticated
    encryption scheme ([IdealJose]). *)

From Stdlib Require Import NArith ZArith Lia.
From Stdlib Require DecimalString.
From stdpp Require Import base tactics option list gmap strings.

Local Open Scope N_scope.
Set Warnings "-register-all".

Ltac Zify.zify_post_hook ::= Z.to_euclidean_division_equations.

(** ** JavaScript values *)

(** A JavaScript string: its UTF-16 code units. *)
Abbreviation jsstring := (list N) (only parsing).

(** A byte array. *)
Abbreviation bytes := (list N) (only parsing).

(** The string literal ['...'] of the source, for ASCII text. *)
Definition js (s : string) : jsstring :=
  map Ascii.N_of_ascii (String.list_ascii_of_string s).
Arguments js : simpl never.

(** [is_string s]: every element is a 16-bit code unit. *)
Definition is_string (s : jsstring) : Prop := Forall (λ c, c < 65536) s.

(** The exact value [(-1)^neg * mantissa * 10^exp10] of a JSON number
    literal.  [JSON.parse] rounds it to the nearest IEEE double; the code
    only ever observes whether that double is zero. *)
Record Decimal := mkDecimal {
  dec_neg : bool;
  dec_mantissa : N;
  dec_exp10 : Z
}.

(** The literal rounds to [+0] or [-0]: its magnitude is at most [2^-1075],
    half of the least subnormal double (ties go to the even neighbour, 0). *)
Definition rounds_to_zero (d : Decimal) : bool :=
  (dec_mantissa d =? 0)
  || ((dec_exp10 d <? 0)%Z
      && (Z.of_N (dec_mantissa d) * 2 ^ 1075 <=? 10 ^ (- dec_exp10 d))%Z).

Inductive JSValue :=
| VUndefined
| VNull
| VBool (b : bool)
| VNumber (d : Decimal)
| VString (s : jsstring)
| VArray (items : list JSValue)
| VObject (props : list (jsstring * JSValue)).

(** [ToBoolean]: the test performed by [if (!x)], [x && y] and
    [filter(Boolean)]. *)
Definition ToBoolean (v : JSValue) : bool :=
  match v with
  | VUndefined | VNull => false
  | VBool b => b
  | VNumber d => negb (rounds_to_zero d)
  | VString s => match s with [] => false | _ => true end
  | VArray _ | VObject _ => true
  end.

(** An optional string parameter ([context?: string]): [None] is
    [undefined]. *)
Definition of_optional (o : option jsstring) : JSValue :=
  match o with
  | None => VUndefined
  | Some s => VString s
  end.

(** The value of the last member named [k] (a later duplicate member of a
    parsed object overwrites an earlier one), [undefined] when there is
    none. *)
Definition own_property (props : list (jsstring * JSValue)) (k : jsstring)
  : JSValue :=
  fold_left (λ acc kv, if bool_decide (kv.1 = k) then kv.2 else acc)
            props VUndefined.

(** [a !== s] for a string [s]. *)
Definition strict_neq_string (a : JSValue) (s : jsstring) : bool :=
  match a with
  | VString t => negb (bool_decide (t = s))
  | _ => true
  end.

(** ** Errors and results *)

(** The error classes of [errors.ts] (each extends [Error] directly) and
    the platform errors that reach the service. *)
Inductive JSError :=
| Error (message : jsstring)
| TypeError
| SyntaxError
| InvalidCharacterError
| ForeignError (tag : N)
| EncryptionError (message : jsstring) (algorithm : option jsstring)
                  (cause : option JSError)
| DecryptionError (message : jsstring) (algorithm : option jsstring)
                  (cause : option JSError)
| UnsupportedAlgorithmError (requestedAlgorithm : JSValue)
                            (availableAlgorithms : list jsstring)
| NoAlgorithmSpecifiedError (availableAlgorithms : list jsstring)
| NoProvidersError.

(** [e instanceof DecryptionError]. *)
Definition instanceof_DecryptionError (e : JSError) : bool :=
  match e with
  | DecryptionError _ _ _ => true
  | _ => false
  end.

(** [e instanceof UnsupportedAlgorithmError]. *)
Definition instanceof_UnsupportedAlgorithmError (e : JSError) : bool :=
  match e with
  | UnsupportedAlgorithmError _ _ => true
  | _ => false
  end.

(** [Array.prototype.join(sep)] on strings. *)
Fixpoint join (sep : jsstring) (xs : list jsstring) : jsstring :=
  match xs with
  | [] => []
  | [x] => x
  | x :: rest => x ++ sep ++ join sep rest
  end.

(** The message built by the constructor of [UnsupportedAlgorithmError],
    for a requested algorithm that is a string. *)
Definition UnsupportedAlgorithmError_message
    (requestedAlgorithm : jsstring) (availableAlgorithms : list jsstring)
  : jsstring :=
  js "Unsupported algorithm: " ++ requestedAlgorithm ++ js ". Available: "
  ++ join (js ", ") availableAlgorithms.

(** The message built by the constructor of [NoAlgorithmSpecifiedError]. *)
Definition NoAlgorithmSpecifiedError_message
    (availableAlgorithms : list jsstring) : jsstring :=
  js "No algorithm specified. Available algorithms: "
  ++ join (js ", ") availableAlgorithms.

(** The outcome of a call: a returned value or a thrown error. *)
Inductive result (A : Type) :=
| Ok (a : A)
| Err (e : JSError).
Arguments Ok {A} a.
Arguments Err {A} e.

(** Whether [ToString(v)], which a template literal applies to [v], throws
    a [TypeError], for [undefined] and the values [JSON.parse] returns.  An
    object is converted by [OrdinaryToPrimitive]: an own member [toString]
    hides [Object.prototype.toString] and is never callable, and [valueOf]
    (an own member, never callable, or [Object.prototype.valueOf], which
    returns the object) gives no primitive either, so the conversion
    throws; without that member the object becomes ['[object Object]'].
    An array is joined, each element but [null] converted in turn. *)
Fixpoint ToString_throws (v : JSValue) : bool :=
  match v with
  | VArray items => existsb ToString_throws items
  | VObject props => existsb (λ kv, bool_decide (kv.1 = js "toString")) props
  | _ => false
  end.

(** [new UnsupportedAlgorithmError(requestedAlgorithm,
    availableAlgorithms)]: the constructor interpolates the requested
    algorithm into its message, [`Unsupported algorithm:
    ${requestedAlgorithm}. ...`], and throws what that conversion throws. *)
Definition new_UnsupportedAlgorithmError (requestedAlgorithm : JSValue)
    (availableAlgorithms : list jsstring) : result JSError :=
  if ToString_throws requestedAlgorithm then Err TypeError
  else Ok (UnsupportedAlgorithmError requestedAlgorithm availableAlgorithms).

(** Computations that read and update a state [S] and may throw. *)
Definition M (S A : Type) : Type := S → result A * S.

Definition ret {S A} (a : A) : M S A := λ s, (Ok a, s).

Definition throw {S A} (e : JSError) : M S A := λ s, (Err e, s).

Definition bind {S A B} (m : M S A) (k : A → M S B) : M S B :=
  λ s, match m s with
       | (Ok a, s') => k a s'
       | (Err e, s') => (Err e, s')
       end.

(** [try { m } catch (e) { h e }]. *)
Definition try_catch {S A} (m : M S A) (h : JSError → M S A) : M S A :=
  λ s, match m s with
       | (Ok a, s') => (Ok a, s')
       | (Err e, s') => h e s'
       end.

Definition get_state {S} : M S S := λ s, (Ok s, s).

Definition modify {S} (f : S → S) : M S unit := λ s, (Ok tt, f s).

(** A result that needs no state. *)
Definition lift {S A} (r : result A) : M S A := λ s, (r, s).

Notation "'let!' x ':=' m 'in' k" := (bind m (λ x, k))
  (at level 10, x pattern, m at level 100, k at level 200,
   format "'[v' 'let!'  x  ':='  m  'in' '/' k ']'").

(** ** [Map]: insertion-ordered, keyed by strings *)

Section JSMap.
Context {V : Type}.

Fixpoint Map_get (m : list (jsstring * V)) (k : jsstring) : option V :=
  match m with
  | [] => None
  | (k', v) :: rest => if bool_decide (k' = k) then Some v else Map_get rest k
  end.

Definition Map_has (m : list (jsstring * V)) (k : jsstring) : bool :=
  match Map_get m k with
  | Some _ => true
  | None => false
  end.

(** An existing key keeps its position; a new key goes last. *)
Fixpoint Map_set (m : list (jsstring * V)) (k : jsstring) (v : V)
  : list (jsstring * V) :=
  match m with
  | [] => [(k, v)]
  | (k', v') :: rest =>
      if bool_decide (k' = k) then (k, v) :: rest
      else (k', v') :: Map_set rest k v
  end.

Fixpoint Map_delete (m : list (jsstring * V)) (k : jsstring)
  : list (jsstring * V) :=
  match m with
  | [] => []
  | (k', v') :: rest =>
      if bool_decide (k' = k) then rest else (k', v') :: Map_delete rest k
  end.

Definition Map_keys (m : list (jsstring * V)) : list jsstring := map fst m.

Definition Map_size (m : list (jsstring * V)) : nat := length m.

(** [new Map(iterable)]: every entry of the iterable is [set] in turn. *)
Definition Map_from (entries : list (jsstring * V)) : list (jsstring * V) :=
  fold_left (λ m kv, Map_set m kv.1 kv.2) entries [].

(** A key that may be any value ([SameValueZero] never identifies a
    string with a value of another type). *)
Definition Map_get_value (m : list (jsstring * V)) (k : JSValue) : option V :=
  match k with
  | VString s => Map_get m s
  | _ => None
  end.
End JSMap.

(** ** [String.prototype.split] and [trim] *)

(** [s.split(String.fromCharCode(sep))]. *)
Fixpoint split (sep : N) (s : jsstring) : list jsstring :=
  match s with
  | [] => [[]]
  | c :: rest =>
      if c =? sep then [] :: split sep rest
      else match split sep rest with
           | [] => [[c]]
           | piece :: pieces => (c :: piece) :: pieces
           end
  end.

(** WhiteSpace and LineTerminator code units of ECMAScript. *)
Definition is_whitespace (c : N) : bool :=
  ((9 <=? c) && (c <=? 13)) || (c =? 32) || (c =? 160) || (c =? 5760)
  || ((8192 <=? c) && (c <=? 8202)) || (c =? 8232) || (c =? 8233)
  || (c =? 8239) || (c =? 8287) || (c =? 12288) || (c =? 65279).

Fixpoint trimStart (s : jsstring) : jsstring :=
  match s with
  | [] => []
  | c :: rest => if is_whitespace c then trimStart rest else s
  end.

Definition trim (s : jsstring) : jsstring :=
  rev (trimStart (rev (trimStart s))).

(** ** UTF-8: [TextEncoder] and [TextDecoder] *)

Definition is_high_surrogate (c : N) : bool := (0xD800 <=? c) && (c <=? 0xDBFF).

Definition is_low_surrogate (c : N) : bool := (0xDC00 <=? c) && (c <=? 0xDFFF).

(** Conversion of a string to scalar values (a [USVString]): a surrogate
    pair is one scalar value, an unpaired surrogate becomes U+FFFD. *)
Fixpoint to_scalar_values (s : jsstring) : list N :=
  match s with
  | [] => []
  | c :: rest =>
      if is_high_surrogate c then
        match rest with
        | d :: rest' =>
            if is_low_surrogate d
            then (0x10000 + (c - 0xD800) * 0x400 + (d - 0xDC00))
                 :: to_scalar_values rest'
            else 0xFFFD :: to_scalar_values rest
        | [] => [0xFFFD]
        end
      else if is_low_surrogate c then 0xFFFD :: to_scalar_values rest
      else c :: to_scalar_values rest
  end.

(** The UTF-8 bytes of one scalar value. *)
Definition utf8_bytes (v : N) : bytes :=
  if v <=? 0x7F then [v]
  else if v <=? 0x7FF then [0xC0 + v / 64; 0x80 + v mod 64]
  else if v <=? 0xFFFF then
    [0xE0 + v / 4096; 0x80 + (v / 64) mod 64; 0x80 + v mod 64]
  else
    [0xF0 + v / 262144; 0x80 + (v / 4096) mod 64; 0x80 + (v / 64) mod 64;
     0x80 + v mod 64].

(** [new TextEncoder().encode(s)]. *)
Definition TextEncoder_encode (s : jsstring) : bytes :=
  flat_map utf8_bytes (to_scalar_values s).

(** The state of the UTF-8 decoder inside a multi-byte sequence: the code
    point so far, the number of continuation bytes still needed and the
    range allowed for the next byte. *)
Record utf8_pending := mkPending {
  code_point : N;
  bytes_needed : nat;
  lower_boundary : N;
  upper_boundary : N
}.

Inductive utf8_lead :=
| Emit (c : N)
| Expect (p : utf8_pending)
| Invalid.

(** The decoder on a byte when no sequence is open. *)
Definition utf8_start (b : N) : utf8_lead :=
  if b <=? 0x7F then Emit b
  else if (0xC2 <=? b) && (b <=? 0xDF) then
    Expect (mkPending (b - 0xC0) 1 0x80 0xBF)
  else if (0xE0 <=? b) && (b <=? 0xEF) then
    Expect (mkPending (b - 0xE0) 2 (if b =? 0xE0 then 0xA0 else 0x80)
                      (if b =? 0xED then 0x9F else 0xBF))
  else if (0xF0 <=? b) && (b <=? 0xF4) then
    Expect (mkPending (b - 0xF0) 3 (if b =? 0xF0 then 0x90 else 0x80)
                      (if b =? 0xF4 then 0x8F else 0xBF))
  else Invalid.

(** The UTF-8 decoder in replacement mode: a byte that cannot continue the
    open sequence yields U+FFFD and is then read again as a first byte; an
    unfinished sequence at the end yields U+FFFD. *)
Fixpoint utf8_decode (st : option utf8_pending) (bs : bytes) : list N :=
  match bs with
  | [] => match st with
          | None => []
          | Some _ => [0xFFFD]
          end
  | b :: rest =>
      let restart :=
        match utf8_start b with
        | Emit c => c :: utf8_decode None rest
        | Expect p => utf8_decode (Some p) rest
        | Invalid => 0xFFFD :: utf8_decode None rest
        end in
      match st with
      | None => restart
      | Some p =>
          if (lower_boundary p <=? b) && (b <=? upper_boundary p) then
            let cp := code_point p * 64 + (b - 0x80) in
            match bytes_needed p with
            | S (S n) => utf8_decode (Some (mkPending cp (S n) 0x80 0xBF)) rest
            | _ => cp :: utf8_decode None rest
            end
          else 0xFFFD :: restart
      end
  end.

(** A scalar value as UTF-16 code units. *)
Definition utf16_units (v : N) : jsstring :=
  if v <? 0x10000 then [v]
  else [0xD800 + (v - 0x10000) / 0x400; 0xDC00 + (v - 0x10000) mod 0x400].

(** A decoder whose [ignoreBOM] is false (the default) drops a leading
    U+FEFF from its output. *)
Definition strip_BOM (vs : list N) : list N :=
  match vs with
  | v :: rest => if v =? 0xFEFF then rest else vs
  | [] => []
  end.

(** [new TextDecoder().decode(bs)]: UTF-8, not fatal, [ignoreBOM] false. *)
Definition TextDecoder_decode (bs : bytes) : jsstring :=
  flat_map utf16_units (strip_BOM (utf8_decode None bs)).

(** [String.prototype.isWellFormed]: no unpaired surrogate. *)
Fixpoint isWellFormed (s : jsstring) : bool :=
  match s with
  | [] => true
  | c :: rest =>
      if is_high_surrogate c then
        match rest with
        | d :: rest' => is_low_surrogate d && isWellFormed rest'
        | [] => false
        end
      else negb (is_low_surrogate c) && isWellFormed rest
  end.

(** A Unicode scalar value: a code point that is not a surrogate. *)
Definition is_scalar_value (v : N) : Prop :=
  v < 0x110000 ∧ ¬ (0xD800 <= v <= 0xDFFF).

(** ** Base64: [btoa] and [atob] *)

(** The character of a 6-bit value in the base64 alphabet. *)
Definition base64_char (n : N) : N :=
  if n <? 26 then 65 + n
  else if n <? 52 then 97 + (n - 26)
  else if n <? 62 then 48 + (n - 52)
  else if n =? 62 then 43
  else 47.

(** The 6-bit value of a character of the base64 alphabet. *)
Definition base64_value (c : N) : option N :=
  if (65 <=? c) && (c <=? 90) then Some (c - 65)
  else if (97 <=? c) && (c <=? 122) then Some (c - 97 + 26)
  else if (48 <=? c) && (c <=? 57) then Some (c - 48 + 52)
  else if c =? 43 then Some 62
  else if c =? 47 then Some 63
  else None.

Fixpoint base64_encode (bs : bytes) : jsstring :=
  match bs with
  | [] => []
  | [a] => [base64_char (a / 4); base64_char ((a mod 4) * 16); 61; 61]
  | [a; b] =>
      [base64_char (a / 4); base64_char ((a mod 4) * 16 + b / 16);
       base64_char ((b mod 16) * 4); 61]
  | a :: b :: c :: rest =>
      base64_char (a / 4) :: base64_char ((a mod 4) * 16 + b / 16)
      :: base64_char ((b mod 16) * 4 + c / 64) :: base64_char (c mod 64)
      :: base64_encode rest
  end.

(** [btoa(s)]: throws when a code unit is above U+00FF. *)
Definition btoa (s : jsstring) : result jsstring :=
  if forallb (λ c, c <=? 255) s then Ok (base64_encode s)
  else Err InvalidCharacterError.

(** Bytes of a sequence of 6-bit values; the bits left over by a last
    group of two or three values are dropped. *)
Fixpoint base64_decode (vs : list N) : bytes :=
  match vs with
  | w :: x :: y :: z :: rest =>
      (w * 4 + x / 16) :: ((x mod 16) * 16 + y / 4) :: ((y mod 4) * 64 + z)
      :: base64_decode rest
  | [w; x; y] => [w * 4 + x / 16; (x mod 16) * 16 + y / 4]
  | [w; x] => [w * 4 + x / 16]
  | _ => []
  end.

Definition is_ascii_whitespace (c : N) : bool :=
  (c =? 9) || (c =? 10) || (c =? 12) || (c =? 13) || (c =? 32).

(** When the length is a multiple of four, one or two final [=] are
    removed. *)
Definition strip_padding (s : jsstring) : jsstring :=
  if N.of_nat (length s) mod 4 =? 0 then
    match rev s with
    | last :: r =>
        if last =? 61 then
          match r with
          | before :: r' => if before =? 61 then rev r' else rev r
          | [] => rev r
          end
        else s
    | [] => s
    end
  else s.

(** [atob(s)], the forgiving base64 decoder: throws on a length of
    [4k + 1] or on a character outside the alphabet. *)
Definition atob (s : jsstring) : result jsstring :=
  let data := strip_padding (filter (λ c, is_ascii_whitespace c = false) s) in
  if N.of_nat (length data) mod 4 =? 1 then Err InvalidCharacterError
  else match mapM base64_value data with
       | Some vs => Ok (base64_decode vs)
       | None => Err InvalidCharacterError
       end.

(** ** JSON *)

Definition hex_digit (n : N) : N :=
  if n <? 10 then 48 + n else 97 + (n - 10).

(** [\uXXXX], lower-case hexadecimal. *)
Definition unicode_escape (c : N) : jsstring :=
  [92; 117; hex_digit (c / 4096); hex_digit ((c / 256) mod 16);
   hex_digit ((c / 16) mod 16); hex_digit (c mod 16)].

(** One code unit that is not a surrogate, as [QuoteJSONString] writes it. *)
Definition quote_unit (c : N) : jsstring :=
  if c =? 8 then [92; 98]
  else if c =? 9 then [92; 116]
  else if c =? 10 then [92; 110]
  else if c =? 12 then [92; 102]
  else if c =? 13 then [92; 114]
  else if c =? 34 then [92; 34]
  else if c =? 92 then [92; 92]
  else if c <? 32 then unicode_escape c
  else [c].

(** The body of a quoted string: a surrogate pair is copied, an unpaired
    surrogate is escaped. *)
Fixpoint quote_chars (s : jsstring) : jsstring :=
  match s with
  | [] => []
  | c :: rest =>
      if is_high_surrogate c then
        match rest with
        | d :: rest' =>
            if is_low_surrogate d then c :: d :: quote_chars rest'
            else unicode_escape c ++ quote_chars rest
        | [] => unicode_escape c
        end
      else if is_low_surrogate c then unicode_escape c ++ quote_chars rest
      else quote_unit c ++ quote_chars rest
  end.

Definition QuoteJSONString (s : jsstring) : jsstring :=
  34 :: quote_chars s ++ [34].

(** The metadata wrapper of [types.ts]. *)
Record EncryptedMetadata := mkMetadata {
  algorithm : jsstring;
  version : N;
  data : jsstring
}.

(** [JSON.stringify(metadata)] for an [EncryptedMetadata] object literal:
    the members in the order they were written. *)
Definition JSON_stringify (m : EncryptedMetadata) : jsstring :=
  js "{" ++ QuoteJSONString (js "algorithm") ++ js ":"
  ++ QuoteJSONString (algorithm m)
  ++ js "," ++ QuoteJSONString (js "version") ++ js ":"
  ++ js (DecimalString.NilZero.string_of_uint (N.to_uint (version m)))
  ++ js "," ++ QuoteJSONString (js "data") ++ js ":"
  ++ QuoteJSONString (data m) ++ js "}".

Definition is_json_whitespace (c : N) : bool :=
  (c =? 32) || (c =? 9) || (c =? 10) || (c =? 13).

Fixpoint skip_ws (s : jsstring) : jsstring :=
  match s with
  | [] => []
  | c :: rest => if is_json_whitespace c then skip_ws rest else s
  end.

Definition is_digit (c : N) : bool := (48 <=? c) && (c <=? 57).

Definition hex_value (c : N) : option N :=
  if is_digit c then Some (c - 48)
  else if (97 <=? c) && (c <=? 102) then Some (c - 97 + 10)
  else if (65 <=? c) && (c <=? 70) then Some (c - 65 + 10)
  else None.

(** The code unit of a two-character escape. *)
Definition simple_escape (c : N) : option N :=
  if c =? 34 then Some 34
  else if c =? 92 then Some 92
  else if c =? 47 then Some 47
  else if c =? 98 then Some 8
  else if c =? 102 then Some 12
  else if c =? 110 then Some 10
  else if c =? 114 then Some 13
  else if c =? 116 then Some 9
  else None.

(** The characters of a string literal after its opening quote, and what
    follows the closing quote. *)
Fixpoint parse_string_chars (s : jsstring) : option (jsstring * jsstring) :=
  match s with
  | [] => None
  | c :: rest =>
      if c =? 34 then Some ([], rest)
      else if c =? 92 then
        match rest with
        | [] => None
        | e :: rest1 =>
            if e =? 117 then
              match rest1 with
              | h1 :: h2 :: h3 :: h4 :: rest2 =>
                  match hex_value h1, hex_value h2, hex_value h3,
                        hex_value h4 with
                  | Some a, Some b, Some c', Some d =>
                      match parse_string_chars rest2 with
                      | Some (str, tail) =>
                          Some ((a * 4096 + b * 256 + c' * 16 + d) :: str, tail)
                      | None => None
                      end
                  | _, _, _, _ => None
                  end
              | _ => None
              end
            else
              match simple_escape e with
              | Some u =>
                  match parse_string_chars rest1 with
                  | Some (str, tail) => Some (u :: str, tail)
                  | None => None
                  end
              | None => None
              end
        end
      else if c <? 32 then None
      else
        match parse_string_chars rest with
        | Some (str, tail) => Some (c :: str, tail)
        | None => None
        end
  end.

(** A run of digits: the number [acc] extended by them, how many there
    were, and the rest. *)
Fixpoint take_digits (acc : N) (count : nat) (s : jsstring)
  : N * nat * jsstring :=
  match s with
  | c :: rest =>
      if is_digit c then take_digits (acc * 10 + (c - 48)) (S count) rest
      else (acc, count, s)
  | [] => (acc, count, s)
  end.

(** The optional exponent part of a number. *)
Definition parse_exponent (s : jsstring) : option (Z * jsstring) :=
  match s with
  | c :: rest =>
      if (c =? 101) || (c =? 69) then
        let '(negative, digits) :=
          match rest with
          | sign :: rest' =>
              if sign =? 45 then (true, rest')
              else if sign =? 43 then (false, rest')
              else (false, rest)
          | [] => (false, rest)
          end in
        match take_digits 0 0 digits with
        | (_, O, _) => None
        | (e, S _, tail) =>
            Some (if negative then (- Z.of_N e)%Z else Z.of_N e, tail)
        end
      else Some (0%Z, s)
  | [] => Some (0%Z, s)
  end.

(** A number literal. *)
Definition parse_number (s : jsstring) : option (Decimal * jsstring) :=
  let '(negative, s1) :=
    match s with
    | c :: rest => if c =? 45 then (true, rest) else (false, s)
    | [] => (false, s)
    end in
  let integer :=
    match s1 with
    | c :: rest =>
        if c =? 48 then Some (0, rest)
        else if is_digit c then
          let '(n, _, tail) := take_digits 0 0 s1 in Some (n, tail)
        else None
    | [] => None
    end in
  match integer with
  | None => None
  | Some (n, s2) =>
      let fraction :=
        match s2 with
        | c :: rest =>
            if c =? 46 then
              match take_digits n 0 rest with
              | (_, O, _) => None
              | (m, S k, tail) => Some (m, S k, tail)
              end
            else Some (n, O, s2)
        | [] => Some (n, O, s2)
        end in
      match fraction with
      | None => None
      | Some (m, k, s3) =>
          match parse_exponent s3 with
          | None => None
          | Some (e, s4) =>
              Some (mkDecimal negative m (e - Z.of_nat k), s4)
          end
      end
  end.

(** [strip_prefix p s]: [s] without its prefix [p]. *)
Fixpoint strip_prefix (p s : jsstring) : option jsstring :=
  match p, s with
  | [], _ => Some s
  | a :: p', b :: s' => if a =? b then strip_prefix p' s' else None
  | _ :: _, [] => None
  end.

(** The JSON grammar.  Every recursive call happens after at least one
    character was consumed, so a fuel above the length of the text is
    never exhausted. *)
Fixpoint parse_value (fuel : nat) (s : jsstring) {struct fuel}
  : option (JSValue * jsstring) :=
  match fuel with
  | O => None
  | S fuel =>
      match skip_ws s with
      | [] => None
      | c :: rest =>
          if c =? 123 then
            match skip_ws rest with
            | c' :: rest' =>
                if c' =? 125 then Some (VObject [], rest')
                else parse_members fuel rest []
            | [] => None
            end
          else if c =? 91 then
            match skip_ws rest with
            | c' :: rest' =>
                if c' =? 93 then Some (VArray [], rest')
                else parse_elements fuel rest []
            | [] => None
            end
          else if c =? 34 then
            match parse_string_chars rest with
            | Some (str, tail) => Some (VString str, tail)
            | None => None
            end
          else if c =? 116 then
            option_map (pair (VBool true)) (strip_prefix (js "rue") rest)
          else if c =? 102 then
            option_map (pair (VBool false)) (strip_prefix (js "alse") rest)
          else if c =? 110 then
            option_map (pair VNull) (strip_prefix (js "ull") rest)
          else
            match parse_number (c :: rest) with
            | Some (d, tail) => Some (VNumber d, tail)
            | None => None
            end
      end
  end
with parse_elements (fuel : nat) (s : jsstring) (acc : list JSValue)
       {struct fuel} : option (JSValue * jsstring) :=
  match fuel with
  | O => None
  | S fuel =>
      match parse_value fuel s with
      | Some (v, rest) =>
          match skip_ws rest with
          | c :: rest' =>
              if c =? 44 then parse_elements fuel rest' (acc ++ [v])
              else if c =? 93 then Some (VArray (acc ++ [v]), rest')
              else None
          | [] => None
          end
      | None => None
      end
  end
with parse_members (fuel : nat) (s : jsstring)
       (acc : list (jsstring * JSValue)) {struct fuel}
  : option (JSValue * jsstring) :=
  match fuel with
  | O => None
  | S fuel =>
      match skip_ws s with
      | c :: rest =>
          if c =? 34 then
            match parse_string_chars rest with
            | Some (key, rest1) =>
                match skip_ws rest1 with
                | c1 :: rest2 =>
                    if c1 =? 58 then
                      match parse_value fuel rest2 with
                      | Some (v, rest3) =>
                          match skip_ws rest3 with
                          | c3 :: rest4 =>
                              if c3 =? 44
                              then parse_members fuel rest4 (acc ++ [(key, v)])
                              else if c3 =? 125
                              then Some (VObject (acc ++ [(key, v)]), rest4)
                              else None
                          | [] => None
                          end
                      | None => None
                      end
                    else None
                | [] => None
                end
            | None => None
            end
          else None
      | [] => None
      end
  end.

(** [JSON.parse(text)]: throws a [SyntaxError] unless the whole text is one
    JSON value. *)
Definition JSON_parse (text : jsstring) : result JSValue :=
  match parse_value (S (length text)) text with
  | Some (v, rest) =>
      match skip_ws rest with
      | [] => Ok v
      | _ :: _ => Err SyntaxError
      end
  | None => Err SyntaxError
  end.

(** [v.k] for a key [k] that no prototype defines ([algorithm], [data],
    [kid]): a [TypeError] on [null] and [undefined], the own property of an
    object, [undefined] on anything else. *)
Definition Get (v : JSValue) (k : jsstring) : result JSValue :=
  match v with
  | VUndefined | VNull => Err TypeError
  | VObject props => Ok (own_property props k)
  | _ => Ok VUndefined
  end.

(** ** The [jose] library, WebCrypto keys and Node's [Buffer] *)

(** The handle returned by [crypto.subtle.importKey('raw', rawKey,
    { name: 'AES-GCM' }, false, ['encrypt', 'decrypt'])]. *)
Record CryptoKey := importKey {
  raw_key : bytes
}.

#[global] Instance CryptoKey_eq_dec : EqDecision CryptoKey.
Proof. solve_decision. Defined.

(** What the code uses of its dependencies: [Buffer.from(s, 'base64')],
    [new CompactEncrypt(pt).setProtectedHeader(h).encrypt(key)] with the
    random initialisation vector it draws made explicit, and
    [compactDecrypt(jwe, key)], which returns the plaintext and the
    protected header or throws. *)
Class Jose := {
  Buffer_from_base64 : jsstring → bytes;
  CompactEncrypt : bytes → JSValue → CryptoKey → bytes → jsstring;
  compactDecrypt : JSValue → CryptoKey → result (bytes * JSValue)
}.

(** The protected header set by the provider:
    [{ alg: 'dir', enc: 'A256GCM', ...(context && { kid: context }) }]. *)
Definition protected_header (context : option jsstring) : JSValue :=
  VObject ([(js "alg", VString (js "dir")); (js "enc", VString (js "A256GCM"))]
           ++ (if ToBoolean (of_optional context)
               then [(js "kid", of_optional context)] else [])).

(** A 256-bit key. *)
Definition valid_key (k : CryptoKey) : Prop := length (raw_key k) = 32%nat.

(** Direct AES-256-GCM encryption as an ideal authenticated encryption
    scheme: a compact JWE opens under the key that made it, to the
    plaintext and header that went in; it opens under no other key; and it
    is a non-empty string of characters below U+0100 (base64url text and
    dots). *)
Class IdealJose (J : Jose) : Prop := {
  compactDecrypt_CompactEncrypt :
    ∀ pt context k iv, valid_key k →
      compactDecrypt (VString (CompactEncrypt pt (protected_header context) k iv)) k
      = Ok (pt, protected_header context);
  compactDecrypt_other_key :
    ∀ pt context k k' iv, valid_key k → valid_key k' → k ≠ k' →
      ∃ e, compactDecrypt
             (VString (CompactEncrypt pt (protected_header context) k iv)) k'
           = Err e;
  CompactEncrypt_nonempty :
    ∀ pt h k iv, CompactEncrypt pt h k iv ≠ [];
  CompactEncrypt_latin1 :
    ∀ pt h k iv, Forall (λ c, c <= 255) (CompactEncrypt pt h k iv)
}.

(** ** Provider instances *)

(** What a method of a provider instance reads and updates: the
    configuration value [PrivateEnvironment.SECRET], the instance's
    [cryptoKeyCache], and the system random source with the number of
    values drawn from it so far. *)
Record ProviderState := mkProviderState {
  SECRET : jsstring;
  cryptoKeyCache : list (jsstring * CryptoKey);
  random_values : nat → bytes;
  random_drawn : nat
}.

Definition set_cryptoKeyCache (c : list (jsstring * CryptoKey))
    (st : ProviderState) : ProviderState :=
  mkProviderState (SECRET st) c (random_values st) (random_drawn st).

(** [crypto.getRandomValues], as used for the initialisation vector. *)
Definition getRandomValues : M ProviderState bytes :=
  λ st, (Ok (random_values st (random_drawn st)),
         mkProviderState (SECRET st) (cryptoKeyCache st) (random_values st)
                         (S (random_drawn st))).

(** The capability set of the abstract class [EncryptionProvider]. *)
Record EncryptionProvider := mkProvider {
  ALGORITHM_IDENTIFIER : jsstring;
  encrypt : jsstring → option jsstring → M ProviderState jsstring;
  decrypt : JSValue → option jsstring → M ProviderState jsstring
}.

(** [Promise.all(xs.map(f))] for an asynchronous [f]: [map] starts every
    call, in order, and a call that throws stops none of the others; the
    promise is fulfilled with the list of the values, or rejected with the
    error of the first call that throws.  The state is the one reached when
    every call has settled. *)
Fixpoint Promise_all_map {S A B} (f : A → M S B) (xs : list A)
  : M S (list B) :=
  match xs with
  | [] => ret []
  | x :: rest =>
      λ s, let '(r, s1) := f x s in
           let '(rs, s2) := Promise_all_map f rest s1 in
           (match r, rs with
            | Ok y, Ok ys => Ok (y :: ys)
            | Err e, _ => Err e
            | Ok _, Err e => Err e
            end, s2)
  end.

Section KeyMaterial.
Context `{Jose}.

(** [EncryptionProvider.getSecretList] *)
Definition getSecretList : M ProviderState (list jsstring) :=
  let! st := get_state in
  if negb (ToBoolean (VString (SECRET st)))
  then throw (Error (js "Configuration error"))
  else
    let secrets :=
      List.filter (λ s, ToBoolean (VString s)) (map trim (split 44 (SECRET st)))
    in
    if (length secrets =? 0)%nat
    then throw (Error (js "Configuration error"))
    else ret secrets.

(** [EncryptionProvider.getCryptoKey] *)
Definition getCryptoKey (base64Secret : jsstring) : M ProviderState CryptoKey :=
  let! st := get_state in
  match Map_get (cryptoKeyCache st) base64Secret with
  | Some cached => ret cached
  | None =>
      let rawKey := Buffer_from_base64 base64Secret in
      if negb (length rawKey =? 32)%nat
      then throw (Error (js "Invalid secret key length"))
      else
        let cryptoKey := importKey rawKey in
        let! _ := modify (λ st, set_cryptoKeyCache
                    (Map_set (cryptoKeyCache st) base64Secret cryptoKey) st) in
        ret cryptoKey
  end.

(** [EncryptionProvider.getActiveCryptoKey]; [Buffer.from(undefined,
    'base64')] throws a [TypeError]. *)
Definition getActiveCryptoKey : M ProviderState CryptoKey :=
  let! secrets := getSecretList in
  match secrets with
  | active :: _ => getCryptoKey active
  | [] => throw TypeError
  end.

(** [EncryptionProvider.getAllCryptoKeys] *)
Definition getAllCryptoKeys : M ProviderState (list CryptoKey) :=
  let! secrets := getSecretList in
  Promise_all_map getCryptoKey secrets.

(** The [for (const key of keys)] loop of [JWEA256GCMProvider.decrypt]: an
    error thrown in the body is caught and the next key is tried. *)
Fixpoint decrypt_with_keys (jwe : JSValue) (context : option jsstring)
    (keys : list CryptoKey) : result jsstring :=
  match keys with
  | [] => Err (Error (js "Decryption failed"))
  | key :: keys' =>
      let attempt : result jsstring :=
        match compactDecrypt jwe key with
        | Err err => Err err
        | Ok (plaintext, protectedHeader) =>
            match context with
            | Some (c :: cs) =>
                match Get protectedHeader (js "kid") with
                | Err err => Err err
                | Ok kid =>
                    if strict_neq_string kid (c :: cs)
                    then Err (Error (js "Invalid context"))
                    else Ok (TextDecoder_decode plaintext)
                end
            | _ => Ok (TextDecoder_decode plaintext)
            end
        end in
      match attempt with
      | Ok text => Ok text
      | Err _ => decrypt_with_keys jwe context keys'
      end
  end.

(** [JWEA256GCMProvider.encrypt] *)
Definition JWEA256GCMProvider_encrypt (plaintext : jsstring)
    (context : option jsstring) : M ProviderState jsstring :=
  if negb (ToBoolean (VString plaintext)) then ret []
  else
    try_catch
      (let encodedText := TextEncoder_encode plaintext in
       let! key := getActiveCryptoKey in
       let! iv := getRandomValues in
       ret (CompactEncrypt encodedText (protected_header context) key iv))
      (λ error, throw error).

(** [JWEA256GCMProvider.decrypt] *)
Definition JWEA256GCMProvider_decrypt (jwe : JSValue)
    (context : option jsstring) : M ProviderState jsstring :=
  if negb (ToBoolean jwe) then ret []
  else
    let! keys := getAllCryptoKeys in
    lift (decrypt_with_keys jwe context keys).

(** The class [JWEA256GCMProvider]. *)
Definition JWEA256GCMProvider : EncryptionProvider :=
  mkProvider (js "JWE-A256GCM") JWEA256GCMProvider_encrypt
             JWEA256GCMProvider_decrypt.

End KeyMaterial.

(** ** The object store *)

(** A provider instance: its class and its private [cryptoKeyCache]. *)
Record ProviderObject := mkObject {
  methods : EncryptionProvider;
  cache : list (jsstring * CryptoKey)
}.

Inductive Method :=
| method_encrypt
| method_decrypt.

(** The state the service runs in.  [Map] objects and provider instances
    are held by reference: a [Map<SupportedAlgorithm, EncryptionProvider>]
    is a location of [Maps] whose entries are locations of [Providers].
    [provider_calls] records every method call made on a provider
    instance. *)
Record World := mkWorld {
  PrivateEnvironment_SECRET : jsstring;
  random_source : nat → bytes;
  random_used : nat;
  Maps : gmap nat (list (jsstring * nat));
  Providers : gmap nat ProviderObject;
  provider_calls : list (nat * Method)
}.

Definition set_Maps (f : gmap nat (list (jsstring * nat)) →
                          gmap nat (list (jsstring * nat)))
    (w : World) : World :=
  mkWorld (PrivateEnvironment_SECRET w) (random_source w) (random_used w)
          (f (Maps w)) (Providers w) (provider_calls w).

(** Dereference a [Map]. *)
Definition read_Map (l : nat) : M World (list (jsstring * nat)) :=
  λ w, match Maps w !! l with
       | Some m => (Ok m, w)
       | None => (Err TypeError, w)
       end.

(** [new Map(entries)]: a new object, at a location not in use. *)
Definition new_Map (entries : list (jsstring * nat)) : M World nat :=
  λ w, let l := fresh (dom (Maps w)) in
       (Ok l, set_Maps <[l := Map_from entries]> w).

(** [map.set(k, v)] and [map.delete(k)] on the object at [l]. *)
Definition Map_prototype_set (l : nat) (k : jsstring) (v : nat) : M World unit :=
  let! m := read_Map l in
  modify (set_Maps <[l := Map_set m k v]>).

Definition Map_prototype_delete (l : nat) (k : jsstring) : M World unit :=
  let! m := read_Map l in
  modify (set_Maps <[l := Map_delete m k]>).

(** Dereference a provider instance. *)
Definition read_Provider (p : nat) : M World ProviderObject :=
  λ w, match Providers w !! p with
       | Some obj => (Ok obj, w)
       | None => (Err TypeError, w)
       end.

(** A method call [provider.m(...)] on the instance at [p]: the body runs
    on the instance's cache, the configuration and the random source; the
    updated cache is stored back. *)
Definition invoke {A} (p : nat) (m : Method)
    (body : EncryptionProvider → M ProviderState A) : M World A :=
  λ w, match Providers w !! p with
       | None => (Err TypeError, w)
       | Some obj =>
           let st := mkProviderState (PrivateEnvironment_SECRET w) (cache obj)
                                     (random_source w) (random_used w) in
           let '(r, st') := body (methods obj) st in
           (r, mkWorld (PrivateEnvironment_SECRET w) (random_source w)
                       (random_drawn st') (Maps w)
                       (<[p := mkObject (methods obj) (cryptoKeyCache st')]>
                          (Providers w))
                       (provider_calls w ++ [(p, m)]))
       end.

(** ** The encryption service *)

Module EncryptOptions.
Record t := make {
  algorithm : option jsstring;
  context : option jsstring
}.
End EncryptOptions.

Module DecryptOptions.
Record t := make {
  context : option jsstring
}.
End DecryptOptions.

(** [EncryptionServiceConfig]: a reference to the caller's [Map]. *)
Record EncryptionServiceConfig := mkConfig {
  config_providers : nat
}.

(** An [EncryptionService] instance: the reference held in its private
    field [providers]. *)
Record EncryptionService := mkService {
  providers : nat
}.

(** [EncryptionService.constructor] *)
Definition constructor (config : EncryptionServiceConfig)
  : M World EncryptionService :=
  let! entries := read_Map (config_providers config) in
  let! own := new_Map entries in
  let! m := read_Map own in
  if (Map_size m =? 0)%nat then throw NoProvidersError
  else ret (mkService own).

(** [EncryptionService.getSupportedAlgorithms] *)
Definition getSupportedAlgorithms (this : EncryptionService)
  : M World (list jsstring) :=
  let! m := read_Map (providers this) in
  ret (Map_keys m).

(** [EncryptionService.isAlgorithmSupported] *)
Definition isAlgorithmSupported (this : EncryptionService)
    (algorithm : jsstring) : M World bool :=
  let! m := read_Map (providers this) in
  ret (Map_has m algorithm).

(** [EncryptionService.getAlgorithmFromEncrypted] *)
Definition getAlgorithmFromEncrypted (this : EncryptionService)
    (encryptedText : jsstring) : M World JSValue :=
  try_catch
    (let! metadataJson := lift (atob encryptedText) in
     let! metadata := lift (JSON_parse metadataJson) in
     lift (Get metadata (js "algorithm")))
    (λ _, ret VUndefined).

(** [EncryptionService.encrypt] *)
Definition EncryptionService_encrypt (this : EncryptionService)
    (plaintext : jsstring) (options : EncryptOptions.t) : M World jsstring :=
  if negb (ToBoolean (of_optional (EncryptOptions.algorithm options)))
  then
    let! available := getSupportedAlgorithms this in
    throw (NoAlgorithmSpecifiedError available)
  else
    let! m := read_Map (providers this) in
    match Map_get_value m (of_optional (EncryptOptions.algorithm options)) with
    | None =>
        let! available := getSupportedAlgorithms this in
        let! error :=
          lift (new_UnsupportedAlgorithmError
                  (of_optional (EncryptOptions.algorithm options)) available) in
        throw error
    | Some provider =>
        try_catch
          (let! encrypted :=
             invoke provider method_encrypt
               (λ c, encrypt c plaintext (EncryptOptions.context options)) in
           let! obj := read_Provider provider in
           let metadata :=
             mkMetadata (ALGORITHM_IDENTIFIER (methods obj)) 1 encrypted in
           lift (btoa (JSON_stringify metadata)))
          (λ error,
             throw (EncryptionError (js "Encryption failed")
                      (EncryptOptions.algorithm options) (Some error)))
    end.

(** [EncryptionService.decrypt]; [options] is [None] when the caller
    passes no second argument. *)
Definition EncryptionService_decrypt (this : EncryptionService)
    (encryptedText : jsstring) (options : option DecryptOptions.t)
  : M World jsstring :=
  if negb (ToBoolean (VString encryptedText))
  then throw (DecryptionError (js "Empty ciphertext") None None)
  else
    try_catch
      (let! metadataJson := lift (atob encryptedText) in
       let! metadata := lift (JSON_parse metadataJson) in
       let! requested := lift (Get metadata (js "algorithm")) in
       let! m := read_Map (providers this) in
       match Map_get_value m requested with
       | None =>
           let! available := getSupportedAlgorithms this in
           let! error :=
             lift (new_UnsupportedAlgorithmError requested available) in
           throw error
       | Some provider =>
           let! jwe := lift (Get metadata (js "data")) in
           invoke provider method_decrypt
             (λ c, decrypt c jwe
                     (match options with
                      | Some o => DecryptOptions.context o
                      | None => None
                      end))
       end)
      (λ error,
         if instanceof_UnsupportedAlgorithmError error
            || instanceof_DecryptionError error
         then throw error
         else throw (DecryptionError (js "Decryption failed") None
                                     (Some error))).

(** [EncryptionService.reEncrypt] *)
Definition reEncrypt (this : EncryptionService) (encryptedText : jsstring)
    (oldOptions : DecryptOptions.t) (newOptions : EncryptOptions.t)
  : M World jsstring :=
  let! decrypted := EncryptionService_decrypt this encryptedText
                      (Some oldOptions) in
  EncryptionService_encrypt this decrypted newOptions.

(** ** The factory *)

(** The [for (const provider of providers)] loop of
    [createEncryptionService]. *)
Fixpoint register_providers (providerMap : nat) (providers : list nat)
  : M World unit :=
  match providers with
  | [] => ret tt
  | provider :: rest =>
      let! obj := read_Provider provider in
      let! _ := Map_prototype_set providerMap
                  (ALGORITHM_IDENTIFIER (methods obj)) provider in
      register_providers providerMap rest
  end.

(** [createEncryptionService] *)
Definition createEncryptionService (providers : list nat)
  : M World EncryptionService :=
  let! providerMap := new_Map [] in
  let! _ := register_providers providerMap providers in
  constructor (mkConfig providerMap).

(** ** What the key material manager computes *)

Section KeyMaterialSummary.
Context `{Jose}.

(** The list [getSecretList] returns for a configuration value. *)
Definition secret_list (secret : jsstring) : result (list jsstring) :=
  match secret with
  | [] => Err (Error (js "Configuration error"))
  | _ :: _ =>
      match List.filter (λ s, ToBoolean (VString s))
                        (map trim (split 44 secret)) with
      | [] => Err (Error (js "Configuration error"))
      | secrets => Ok secrets
      end
  end.

(** The key [getCryptoKey] returns for a secret, whatever the cache holds. *)
Definition key_of (base64Secret : jsstring) : result CryptoKey :=
  if (length (Buffer_from_base64 base64Secret) =? 32)%nat
  then Ok (importKey (Buffer_from_base64 base64Secret))
  else Err (Error (js "Invalid secret key length")).

(** The keys of a list of secrets, or the error of the first bad one. *)
Fixpoint keys_of (secrets : list jsstring) : result (list CryptoKey) :=
  match secrets with
  | [] => Ok []
  | s :: rest =>
      match key_of s with
      | Err e => Err e
      | Ok k =>
          match keys_of rest with
          | Err e => Err e
          | Ok ks => Ok (k :: ks)
          end
      end
  end.

(** Every cached handle is the one [importKey] gives for its secret. *)
Definition cache_coherent (c : list (jsstring * CryptoKey)) : Prop :=
  ∀ s k, Map_get c s = Some k → key_of s = Ok k.

(** The key [getActiveCryptoKey] returns under a configuration value. *)
Definition active_key (secret : jsstring) : result CryptoKey :=
  match secret_list secret with
  | Err e => Err e
  | Ok [] => Err TypeError
  | Ok (active :: _) => key_of active
  end.

(** The keys [getAllCryptoKeys] returns under a configuration value. *)
Definition all_keys (secret : jsstring) : result (list CryptoKey) :=
  match secret_list secret with
  | Err e => Err e
  | Ok secrets => keys_of secrets
  end.

(** What [JWEA256GCMProvider.decrypt] returns or throws for a ciphertext
    string under a configuration value. *)
Definition provider_decrypt (secret jwe : jsstring)
    (context : option jsstring) : result jsstring :=
  match jwe with
  | [] => Ok []
  | _ :: _ =>
      match all_keys secret with
      | Err e => Err e
      | Ok keys => decrypt_with_keys (VString jwe) context keys
      end
  end.

(** The context check of the decrypt loop passes for a ciphertext made
    with [made] when the caller supplies [supplied]: nothing is checked for
    an absent or empty [supplied]; otherwise the header must carry it. *)
Definition context_accepted (made supplied : option jsstring) : bool :=
  match supplied with
  | Some (c :: cs) =>
      match made with
      | Some m => bool_decide (m = c :: cs)
      | None => false
      end
  | _ => true
  end.

End KeyMaterialSummary.

(** The envelope string for an algorithm identifier and a provider
    ciphertext: [btoa(JSON.stringify({ algorithm, version: 1, data }))]. *)
Definition envelope (algorithm data : jsstring) : jsstring :=
  base64_encode (JSON_stringify (mkMetadata algorithm 1 data)).

(** How [EncryptionService.decrypt] reports what the provider threw: a
    plain [Error] is wrapped. *)
Definition wrap_decrypt (r : result jsstring) : result jsstring :=
  match r with
  | Ok text => Ok text
  | Err e =>
      if instanceof_UnsupportedAlgorithmError e || instanceof_DecryptionError e
      then Err e
      else Err (DecryptionError (js "Decryption failed") None (Some e))
  end.

(** Decoding of the metadata envelope codec, the first two statements of
    the [try] blocks of [getAlgorithmFromEncrypted] and [decrypt]:
    [JSON.parse(atob(encryptedText))]. *)
Definition decode_metadata (encryptedText : jsstring) : result JSValue :=
  match atob encryptedText with
  | Ok metadataJson => JSON_parse metadataJson
  | Err e => Err e
  end.

(** The value [JSON.parse] gives back for an envelope. *)
Definition metadata_value (algorithm data : jsstring) : JSValue :=
  VObject [(js "algorithm", VString algorithm);
           (js "version", VNumber (mkDecimal false 1 0));
           (js "data", VString data)].

(** In world [w], the service's registry maps [X] to a
    [JWEA256GCMProvider] instance at [p] whose cache is coherent. *)
Definition registers_JWE `{Jose} (w : World) (this : EncryptionService)
    (X : jsstring) (p : nat) : Prop :=
  ∃ m obj,
    Maps w !! providers this = Some m ∧ Map_get m X = Some p
    ∧ Providers w !! p = Some obj ∧ methods obj = JWEA256GCMProvider
    ∧ cache_coherent (cache obj).

(** A method call on the [JWEA256GCMProvider] at [p] took the world from
    [w] to [w']: nothing changed but the provider's cache, which is still
    coherent, the trace, and [drawn] more values taken from the random
    source. *)
Definition steps `{Jose} (w w' : World) (p : nat) (m : Method) (drawn : nat)
  : Prop :=
  PrivateEnvironment_SECRET w' = PrivateEnvironment_SECRET w
  ∧ random_source w' = random_source w
  ∧ random_used w' = (random_used w + drawn)%nat
  ∧ Maps w' = Maps w
  ∧ provider_calls w' = provider_calls w ++ [(p, m)]
  ∧ ∃ c, cache_coherent c
         ∧ Providers w' = <[p := mkObject JWEA256GCMProvider c]> (Providers w).

(** [m] neither reads nor writes a [Map] object other than the one at
    [own]: replacing the others changes nothing but themselves. *)
Definition framed {A} (own : nat) (m : M World A) : Prop :=
  ∀ M' w, M' !! own = Maps w !! own →
    m (set_Maps (λ _, M') w) = ((m w).1, set_Maps (λ _, M') (m w).2)
    ∧ Maps (m w).2 = Maps w.

(** A change of the caller's [Map]. *)
Inductive Mutation :=
| mutation_set (k : jsstring) (v : nat)
| mutation_delete (k : jsstring).

Definition mutate (l : nat) (μ : Mutation) : M World unit :=
  match μ with
  | mutation_set k v => Map_prototype_set l k v
  | mutation_delete k => Map_prototype_delete l k
  end.

(** The world after a sequence of mutations of the [Map] at [l]. *)
Fixpoint mutations (l : nat) (μs : list Mutation) (w : World) : World :=
  match μs with
  | [] => w
  | μ :: rest => mutations l rest (mutate l μ w).2
  end.

(** ** A symbolic instance of the interface

    The compact serialization names the key and carries the key
    identifier, the plaintext and the initialisation vector in clear, each
    number [n] written as [n] letters [a] and a dot, each list closed by a
    semicolon: opening checks the key by name.  It shows that the laws of
    [IdealJose] can be met, and lets the service run on concrete inputs. *)
Module Symbolic.

Definition write_numbers (xs : list N) : jsstring :=
  flat_map (λ n, repeat 97 (N.to_nat n) ++ [46]) xs ++ [59].

Fixpoint read_numbers (current : N) (acc : list N) (s : jsstring)
  : option (list N * jsstring) :=
  match s with
  | [] => None
  | c :: rest =>
      if c =? 97 then read_numbers (current + 1) acc rest
      else if c =? 46 then read_numbers 0 (acc ++ [current]) rest
      else if c =? 59 then Some (acc, rest)
      else None
  end.

Definition kid_of (header : JSValue) : jsstring :=
  match header with
  | VObject props =>
      match own_property props (js "kid") with
      | VString s => s
      | _ => []
      end
  | _ => []
  end.

Definition seal (pt : bytes) (header : JSValue) (k : CryptoKey) (iv : bytes)
  : jsstring :=
  106 :: write_numbers (raw_key k) ++ write_numbers (kid_of header)
  ++ write_numbers pt ++ write_numbers iv.

Definition open (jwe : JSValue) (k : CryptoKey) : result (bytes * JSValue) :=
  match jwe with
  | VString (c :: s) =>
      match read_numbers 0 [] s with
      | Some (key, s1) =>
          if (c =? 106) && bool_decide (key = raw_key k) then
            match read_numbers 0 [] s1 with
            | Some (kid, s2) =>
                match read_numbers 0 [] s2 with
                | Some (pt, _) =>
                    Ok (pt, protected_header
                              (match kid with [] => None | _ => Some kid end))
                | None => Err (ForeignError 0)
                end
            | None => Err (ForeignError 0)
            end
          else Err (ForeignError 0)
      | None => Err (ForeignError 0)
      end
  | _ => Err (ForeignError 0)
  end.

Definition decode_secret (s : jsstring) : bytes :=
  match atob s with
  | Ok bs => bs
  | Err _ => []
  end.

Definition jose : Jose :=
  {| Buffer_from_base64 := decode_secret;
     CompactEncrypt := seal;
     compactDecrypt := open |}.

(** A service over one [JWEA256GCMProvider], as
    [createEncryptionService([new JWEA256GCMProvider()])] builds it: the
    caller's map at location 0, the service's own copy at location 1, the
    provider at location 0 with an empty cache. *)
Definition world (secret : jsstring) : World :=
  mkWorld secret (λ n, [N.of_nat n]) 0
          (<[1%nat := [(js "JWE-A256GCM", 0%nat)]]>
             (<[0%nat := [(js "JWE-A256GCM", 0%nat)]]> ∅))
          (<[0%nat := mkObject (@JWEA256GCMProvider jose) []]> ∅) [].

Definition service : EncryptionService := mkService 1.

(** [encrypt] under the configuration value [secret], then [decrypt] of
    the envelope in the state [encrypt] left. *)
Definition round_trip (secret plaintext : jsstring)
    (context : option jsstring) (options : option DecryptOptions.t)
  : result jsstring :=
  match EncryptionService_encrypt service plaintext
          (EncryptOptions.make (Some (js "JWE-A256GCM")) context)
          (world secret) with
  | (Ok encrypted, w1) =>
      (EncryptionService_decrypt service encrypted options w1).1
  | (Err e, _) => Err e
  end.

(** [encrypt] under the configuration value [old], then [decrypt] of the
    envelope by the service started under the configuration value [new]. *)
Definition rotate (old new plaintext : jsstring)
    (context : option jsstring) (options : option DecryptOptions.t)
  : result jsstring :=
  match EncryptionService_encrypt service plaintext
          (EncryptOptions.make (Some (js "JWE-A256GCM")) context)
          (world old) with
  | (Ok encrypted, _) =>
      (EncryptionService_decrypt service encrypted options (world new)).1
  | (Err e, _) => Err e
  end.

(** Base64 of 32 bytes: all zero for [secret_A], a leading 1 for
    [secret_B]. *)
Definition secret_A : jsstring :=
  js "AAAAAAAAAAAAAAAAAAAAAAAAAAAAAAAAAAAAAAAAAAA=".

Definition secret_B : jsstring :=
  js "AQAAAAAAAAAAAAAAAAAAAAAAAAAAAAAAAAAAAAAAAAA=".

(** ['x'.repeat(11 * 1024 * 1024)], the plaintext of the test 'should
    reject data over 10MB'. *)
Definition eleven_MiB : jsstring := repeat 120 (N.to_nat (11 * 1024 * 1024)).

End Symbolic.

(** ** The singleton of [factory.ts] *)

(** [new JWEA256GCMProvider()]: a new instance, at a location not in use,
    its [cryptoKeyCache] empty. *)
Definition new_JWEA256GCMProvider `{Jose} : M World nat :=
  λ w, let p := fresh (dom (Providers w)) in
       (Ok p, mkWorld (PrivateEnvironment_SECRET w) (random_source w)
                      (random_used w) (Maps w)
                      (<[p := mkObject JWEA256GCMProvider []]> (Providers w))
                      (provider_calls w)).

(** The state of the module [factory.ts]: its variable [serviceInstance]
    ([None] is [undefined]) and the object store. *)
Record Factory := mkFactory {
  serviceInstance : option EncryptionService;
  store : World
}.

(** A computation on the object store, run inside the module. *)
Definition in_store {A} (m : M World A) : M Factory A :=
  λ s, let '(r, w) := m (store s) in (r, mkFactory (serviceInstance s) w).

(** [getEncryptionService] *)
Definition getEncryptionService `{Jose} : M Factory EncryptionService :=
  let! s := get_state in
  match serviceInstance s with
  | Some instance => ret instance
  | None =>
      let! provider := in_store new_JWEA256GCMProvider in
      let! instance := in_store (createEncryptionService [provider]) in
      let! _ := modify (λ s, mkFactory (Some instance) (store s)) in
      ret instance
  end.

(** [resetEncryptionService] *)
Definition resetEncryptionService : M Factory unit :=
  modify (λ s, mkFactory None (store s)).

(** ** Cookie handles ([internal/core/cookie])

    The handles work through two interfaces, a storage and a codec; both
    run in a state [S] (the cookie jar of the request, the document, what
    a codec may keep).  A value of the cookie's type [T] is a JavaScript
    value; [null] is [VNull]. *)

(** [SerializeOptions] of the package [cookie]: an object. *)
Abbreviation SerializeOptions := (list (jsstring * JSValue)) (only parsing).

(** [ICookieCodec<T>] *)
Module ICookieCodec.
Record t (S : Type) := make {
  encode : JSValue → M S jsstring;
  decode : jsstring → M S JSValue
}.
Arguments make {S} encode decode.
Arguments encode {S} _ _ _.
Arguments decode {S} _ _ _.
End ICookieCodec.

(** [ICookieStorage]; [read] returns [None] for [undefined]. *)
Module ICookieStorage.
Record t (S : Type) := make {
  read : jsstring → M S (option jsstring);
  write : jsstring → jsstring → SerializeOptions → M S unit;
  delete : jsstring → SerializeOptions → M S unit
}.
Arguments make {S} read write delete.
Arguments read {S} _ _ _.
Arguments write {S} _ _ _ _ _.
Arguments delete {S} _ _ _ _.
End ICookieStorage.

(** [CookieConfig<T>]; the schema is its [parse] method. *)
Module CookieConfig.
Record t (S : Type) := make {
  name : jsstring;
  schema : JSValue → result JSValue;
  options : SerializeOptions;
  codec : option (ICookieCodec.t S)
}.
Arguments make {S} name schema options codec.
Arguments name {S} _.
Arguments schema {S} _ _.
Arguments options {S} _.
Arguments codec {S} _.
End CookieConfig.

(** The class [RawCookieHandle<T>] *)
Module RawCookieHandle.
Record t (S : Type) := make {
  storage : ICookieStorage.t S;
  codec : ICookieCodec.t S;
  config : CookieConfig.t S
}.
Arguments make {S} storage codec config.
Arguments storage {S} _.
Arguments codec {S} _.
Arguments config {S} _.

Definition get {S} (this : t S) : M S JSValue :=
  let! raw := ICookieStorage.read (storage this)
                (CookieConfig.name (config this)) in
  match raw with
  | None => ret VNull
  | Some raw =>
      if negb (ToBoolean (VString raw)) then ret VNull
      else ICookieCodec.decode (codec this) raw
  end.

Definition set {S} (this : t S) (value : JSValue) : M S unit :=
  let! encoded := ICookieCodec.encode (codec this) value in
  ICookieStorage.write (storage this) (CookieConfig.name (config this))
    encoded (CookieConfig.options (config this)).

Definition remove {S} (this : t S) : M S unit :=
  ICookieStorage.delete (storage this) (CookieConfig.name (config this))
    (CookieConfig.options (config this)).
End RawCookieHandle.

(** The class [SignalCookieHandle<T>] *)
Module SignalCookieHandle.
Record t (S : Type) := make {
  rawHandle : RawCookieHandle.t S
}.
Arguments make {S} rawHandle.
Arguments rawHandle {S} _.

Definition push {S} (this : t S) (value : JSValue) : M S unit :=
  RawCookieHandle.set (rawHandle this) value.

Definition consume {S} (this : t S) : M S JSValue :=
  let! value := RawCookieHandle.get (rawHandle this) in
  let! _ := (if ToBoolean value then RawCookieHandle.remove (rawHandle this)
             else ret tt) in
  ret value.
End SignalCookieHandle.

(** A storage that keeps what it is given: [read] changes nothing and
    returns the value last written under the name, and nothing after
    [delete]. *)
Record keeps_cookies {S} (storage : ICookieStorage.t S) : Prop := {
  read_only :
    ∀ name s, ∃ raw, ICookieStorage.read storage name s = (Ok raw, s);
  read_write :
    ∀ name value options s, ∃ s',
      ICookieStorage.write storage name value options s = (Ok tt, s')
      ∧ ICookieStorage.read storage name s' = (Ok (Some value), s');
  read_delete :
    ∀ name options s, ∃ s',
      ICookieStorage.delete storage name options s = (Ok tt, s')
      ∧ ICookieStorage.read storage name s' = (Ok None, s')
}.

(** ** A cookie jar in memory

    A storage over a finite map from names to values, and a codec for
    strings that writes them as they are: they show that the laws of
    [keeps_cookies] can be met, and let the handles run. *)
Module Jar.

Definition storage : ICookieStorage.t (gmap jsstring jsstring) :=
  ICookieStorage.make
    (λ name, λ jar, (Ok (jar !! name), jar))
    (λ name value _, modify <[name := value]>)
    (λ name _, modify (base.delete name)).

Definition codec : ICookieCodec.t (gmap jsstring jsstring) :=
  ICookieCodec.make
    (λ value, match value with
              | VString s => ret s
              | _ => throw TypeError
              end)
    (λ raw, ret (VString raw)).

Definition handle (name : jsstring)
  : SignalCookieHandle.t (gmap jsstring jsstring) :=
  SignalCookieHandle.make
    (RawCookieHandle.make storage codec
       (CookieConfig.make name (λ v, Ok v)
          [(js "path", VString (js "/"))] None)).

(** A codec for a flag, written ['true'] or ['false']; anything else
    decodes to [null]. *)
Definition flag_codec : ICookieCodec.t (gmap jsstring jsstring) :=
  ICookieCodec.make
    (λ value, match value with
              | VBool true => ret (js "true")
              | VBool false => ret (js "false")
              | _ => throw TypeError
              end)
    (λ raw, if bool_decide (raw = js "true") then ret (VBool true)
            else if bool_decide (raw = js "false") then ret (VBool false)
            else ret VNull).

Definition flag (name : jsstring)
  : SignalCookieHandle.t (gmap jsstring jsstring) :=
  SignalCookieHandle.make
    (RawCookieHandle.make storage flag_codec
       (CookieConfig.make name (λ v, Ok v)
          [(js "path", VString (js "/"))] (Some flag_codec))).

End Jar.

(** ** Cookies on the server

    An object with string keys that are not array indices ([options] and
    the like) is the list of its own properties in insertion order:
    [Map_get] reads a property and [Map_set] defines one, an existing key
    keeping its place. *)

(** [obj.k] *)
Definition property (obj : SerializeOptions) (k : jsstring) : JSValue :=
  match Map_get obj k with
  | Some v => v
  | None => VUndefined
  end.

(** [{ ...target, ...source }], for a [target] just built. *)
Definition spread (target source : SerializeOptions) : SerializeOptions :=
  fold_left (λ obj kv, Map_set obj kv.1 kv.2) source target.

(** [a || b] *)
Definition logical_or (a b : JSValue) : JSValue :=
  if ToBoolean a then a else b.

(** [pick(obj, keys)] of es-toolkit: a new object with the own properties
    of [obj] that [keys] names, in the order of [keys]. *)
Definition pick (obj : SerializeOptions) (keys : list jsstring)
  : SerializeOptions :=
  fold_left (λ result key,
               match Map_get obj key with
               | Some v => Map_set result key v
               | None => result
               end) keys [].

(** What the cookie code uses of Next.js, of the package [cookie] and of
    the platform: the store [await cookies()] of [next/headers] with its
    methods [get] (of which the code reads [?.value]), [set] and [delete];
    [JSON.stringify] on a parsed value; the test [typeof window ===
    'undefined']; the property [document.cookie], read and assigned; and
    [parseCookie] and [serialize], which may throw. *)
Class CookiePlatform (S : Type) := {
  cookies_get : jsstring → M S (option jsstring);
  cookies_set : jsstring → jsstring → SerializeOptions → M S unit;
  cookies_delete : SerializeOptions → M S unit;
  JSON_stringify_value : JSValue → jsstring;
  window_is_undefined : S → bool;
  document_cookie : M S jsstring;
  set_document_cookie : jsstring → M S unit;
  parseCookie : jsstring → list (jsstring * jsstring);
  serialize : jsstring → jsstring → SerializeOptions → result jsstring
}.

Section ServerCookies.
Context {S : Type} `{CookiePlatform S}.

(** The class [JsonCodec<T>], for a schema given by its [parse]. *)
Definition JsonCodec (schema : JSValue → result JSValue) : ICookieCodec.t S :=
  ICookieCodec.make
    (λ value,
       let! parsed := lift (schema value) in
       ret (JSON_stringify_value parsed))
    (λ value,
       try_catch
         (let! json := lift (JSON_parse value) in
          lift (schema json))
         (λ _, ret VNull)).

(** The class [NextServerStorage]; [produce(o, draft => { draft.maxAge = 0
    })] of immer is [o] with [maxAge] defined as 0. *)
Definition NextServerStorage : ICookieStorage.t S :=
  ICookieStorage.make
    (λ name, cookies_get name)
    (λ name value options,
       cookies_set name value
         (pick options
            [js "domain"; js "expires"; js "httpOnly"; js "maxAge";
             js "partitioned"; js "path"; js "priority"; js "sameSite";
             js "secure"]))
    (λ name options,
       let overridedOptions :=
         Map_set
           (pick options
              [js "domain"; js "httpOnly"; js "maxAge"; js "partitioned";
               js "path"; js "priority"; js "sameSite"; js "secure"])
           (js "maxAge") (VNumber (mkDecimal false 0 0)) in
       cookies_delete (spread [(js "name", VString name)] overridedOptions)).

(** The class [DocumentStorage] *)
Definition DocumentStorage : ICookieStorage.t S :=
  ICookieStorage.make
    (λ name,
       let! cookie := document_cookie in
       ret (Map_get (parseCookie cookie) name))
    (λ name value options,
       let! text := lift (serialize name value options) in
       set_document_cookie text)
    (λ name options,
       let! text :=
         lift (serialize name []
                 (Map_set (spread [] options) (js "maxAge")
                    (VNumber (mkDecimal false 0 0)))) in
       set_document_cookie text).

(** The class [UniversalStorage]: its getter [isServer] is evaluated at
    every call. *)
Definition UniversalStorage (serverStrategy clientStrategy : ICookieStorage.t S)
  : ICookieStorage.t S :=
  ICookieStorage.make
    (λ name, λ s,
       if window_is_undefined s then ICookieStorage.read serverStrategy name s
       else ICookieStorage.read clientStrategy name s)
    (λ name value options, λ s,
       if window_is_undefined s
       then ICookieStorage.write serverStrategy name value options s
       else ICookieStorage.write clientStrategy name value options s)
    (λ name options, λ s,
       if window_is_undefined s
       then ICookieStorage.delete serverStrategy name options s
       else ICookieStorage.delete clientStrategy name options s).

End ServerCookies.

(** The class [CookieController<T>] *)
Module CookieController.
Record t (S : Type) := make {
  rawHandle : RawCookieHandle.t S;
  signalHandle : SignalCookieHandle.t S
}.
Arguments make {S} rawHandle signalHandle.
Arguments rawHandle {S} _.
Arguments signalHandle {S} _.

Definition constructor {S} `{CookiePlatform S} (config : CookieConfig.t S)
    (storage : ICookieStorage.t S) : t S :=
  let codec := match CookieConfig.codec config with
               | Some codec => codec
               | None => JsonCodec (CookieConfig.schema config)
               end in
  let rawHandle := RawCookieHandle.make storage codec config in
  make rawHandle (SignalCookieHandle.make rawHandle).

Definition asRaw {S} (this : t S) : RawCookieHandle.t S := rawHandle this.

Definition asSignal {S} (this : t S) : SignalCookieHandle.t S :=
  signalHandle this.
End CookieController.

(** [ServerCookieDefinition<T>] *)
Module ServerCookieDefinition.
Record t (S : Type) := make {
  name : jsstring;
  schema : JSValue → result JSValue;
  options : SerializeOptions;
  encryption : option (ICookieCodec.t S)
}.
Arguments make {S} name schema options encryption.
Arguments name {S} _.
Arguments schema {S} _ _.
Arguments options {S} _.
Arguments encryption {S} _.
End ServerCookieDefinition.

(** [defineServerCookie] *)
Definition defineServerCookie {S} `{CookiePlatform S}
    (def : ServerCookieDefinition.t S) : CookieController.t S :=
  let strictOptions :=
    Map_set
      (Map_set
         (Map_set (spread [] (ServerCookieDefinition.options def))
            (js "path")
            (logical_or
               (property (ServerCookieDefinition.options def) (js "path"))
               (VString (js "/"))))
         (js "httpOnly") (VBool true))
      (js "secure") (VBool true) in
  let config :=
    CookieConfig.make (ServerCookieDefinition.name def)
      (ServerCookieDefinition.schema def) strictOptions
      (ServerCookieDefinition.encryption def) in
  CookieController.constructor config NextServerStorage.

(** [BrowserCookieDefinition<T>] *)
Module BrowserCookieDefinition.
Record t (S : Type) := make {
  name : jsstring;
  schema : JSValue → result JSValue;
  options : SerializeOptions;
  encryption : option (ICookieCodec.t S)
}.
Arguments make {S} name schema options encryption.
Arguments name {S} _.
Arguments schema {S} _ _.
Arguments options {S} _.
Arguments encryption {S} _.
End BrowserCookieDefinition.

(** [defineBrowserCookie] *)
Definition defineBrowserCookie {S} `{CookiePlatform S}
    (def : BrowserCookieDefinition.t S) : CookieController.t S :=
  let strictOptions :=
    Map_set
      (Map_set
         (Map_set (spread [] (BrowserCookieDefinition.options def))
            (js "path")
            (logical_or
               (property (BrowserCookieDefinition.options def) (js "path"))
               (VString (js "/"))))
         (js "httpOnly") (VBool false))
      (js "secure") (VBool true) in
  let config :=
    CookieConfig.make (BrowserCookieDefinition.name def)
      (BrowserCookieDefinition.schema def) strictOptions
      (BrowserCookieDefinition.encryption def) in
  let storage := UniversalStorage NextServerStorage DocumentStorage in
  CookieController.constructor config storage.

(** * Properties *)

(** ** Encodings *)

(** *** UTF-8 *)

(** Decide the comparisons of the goal by linear arithmetic. *)
Ltac decide_comparisons :=
  repeat match goal with
  | |- context [?a <=? ?b] =>
      first [ rewrite (proj2 (N.leb_le a b)) by lia
            | rewrite (proj2 (N.leb_gt a b)) by lia ]
  | |- context [?a <? ?b] =>
      first [ rewrite (proj2 (N.ltb_lt a b)) by lia
            | rewrite (proj2 (N.ltb_ge a b)) by lia ]
  | |- context [?a =? ?b] =>
      first [ rewrite (proj2 (N.eqb_eq a b)) by lia
            | rewrite (proj2 (N.eqb_neq a b)) by lia ]
  end.


Lemma utf8_decode_bytes v bs :
  is_scalar_value v →
  utf8_decode None (utf8_bytes v ++ bs) = v :: utf8_decode None bs.
Proof.
  intros [Hlt Hns]. unfold utf8_bytes.
  destruct (N.leb_spec v 0x7F) as [H1|H1].
  { cbn [app utf8_decode]. unfold utf8_start. decide_comparisons. reflexivity. }
  destruct (N.leb_spec v 0x7FF) as [H2|H2].
  { cbn [app utf8_decode]. unfold utf8_start.
    decide_comparisons. cbn. decide_comparisons. cbn. f_equal. lia. }
  destruct (N.leb_spec v 0xFFFF) as [H3|H3].
  { cbn [app utf8_decode]. unfold utf8_start.
    decide_comparisons. cbn.
    destruct (N.eqb_spec (0xE0 + v / 4096) 0xE0);
    destruct (N.eqb_spec (0xE0 + v / 4096) 0xED);
    cbn; decide_comparisons; cbn; decide_comparisons; cbn; f_equal; lia. }
  cbn [app utf8_decode]. unfold utf8_start.
  decide_comparisons. cbn.
  destruct (N.eqb_spec (0xF0 + v / 262144) 0xF0);
  destruct (N.eqb_spec (0xF0 + v / 262144) 0xF4);
  cbn; decide_comparisons; cbn; decide_comparisons; cbn; decide_comparisons; cbn; f_equal; lia.
Qed.

Lemma list_length_ind {A} (P : list A → Prop) :
  (∀ s, (∀ t, (length t < length s)%nat → P t) → P s) → ∀ s, P s.
Proof.
  intros step s. remember (length s) as n eqn:Hn.
  revert s Hn. induction (lt_wf n) as [n _ IH]. intros s ->.
  apply step. intros t Ht. by apply (IH (length t)).
Qed.

Lemma to_scalar_values_scalar s :
  is_string s → Forall is_scalar_value (to_scalar_values s).
Proof.
  induction s as [s IH] using list_length_ind. intros Hs.
  destruct s as [|c rest]; [constructor|].
  apply Forall_cons in Hs as [Hc Hrest]. cbn [to_scalar_values].
  unfold is_high_surrogate, is_low_surrogate.
  destruct (N.leb_spec 0xD800 c), (N.leb_spec c 0xDBFF); cbn [andb].
  - destruct rest as [|d rest'].
    + repeat constructor; unfold is_scalar_value; lia.
    + apply Forall_cons in Hrest as [Hd Hrest'].
      destruct (N.leb_spec 0xDC00 d), (N.leb_spec d 0xDFFF); cbn [andb];
        constructor;
        try (unfold is_scalar_value; lia);
        apply IH; cbn; try lia; try done; by constructor.
  - destruct (N.leb_spec 0xDC00 c), (N.leb_spec c 0xDFFF); cbn [andb];
      constructor; try (unfold is_scalar_value; lia); apply IH; cbn; try lia; done.
  - destruct (N.leb_spec 0xDC00 c), (N.leb_spec c 0xDFFF); cbn [andb];
      constructor; try (unfold is_scalar_value; lia); apply IH; cbn; try lia; done.
  - lia.
Qed.

Lemma utf8_decode_flat_map vs :
  Forall is_scalar_value vs → utf8_decode None (flat_map utf8_bytes vs) = vs.
Proof.
  induction 1 as [|v vs Hv _ IH]; [done|].
  cbn [flat_map]. rewrite utf8_decode_bytes by done. by rewrite IH.
Qed.

Lemma strip_BOM_to_scalar_values s :
  strip_BOM (to_scalar_values s) = to_scalar_values (strip_BOM s).
Proof.
  destruct s as [|c rest]; [done|]. cbn [strip_BOM].
  destruct (N.eqb_spec c 0xFEFF) as [->|Hc]; [by cbn|].
  cbn [to_scalar_values]. unfold is_high_surrogate, is_low_surrogate.
  destruct (N.leb_spec 0xD800 c), (N.leb_spec c 0xDBFF); cbn [andb].
  - destruct rest as [|d rest']; [done|].
    destruct ((0xDC00 <=? d) && (d <=? 0xDFFF)); cbn [strip_BOM];
      decide_comparisons; done.
  - destruct ((0xDC00 <=? c) && (c <=? 0xDFFF)); cbn [strip_BOM];
      decide_comparisons; done.
  - destruct ((0xDC00 <=? c) && (c <=? 0xDFFF)); cbn [strip_BOM];
      decide_comparisons; done.
  - lia.
Qed.

Lemma utf16_units_to_scalar_values s :
  is_string s → isWellFormed s = true →
  flat_map utf16_units (to_scalar_values s) = s.
Proof.
  induction s as [s IH] using list_length_ind. intros Hs Hwf.
  destruct s as [|c rest]; [done|].
  apply Forall_cons in Hs as [Hc Hrest].
  cbn [to_scalar_values isWellFormed] in *.
  unfold is_high_surrogate, is_low_surrogate in *.
  destruct (N.leb_spec 0xD800 c), (N.leb_spec c 0xDBFF); cbn [andb] in *.
  - destruct rest as [|d rest']; [done|].
    apply Forall_cons in Hrest as [Hd Hrest'].
    destruct (N.leb_spec 0xDC00 d), (N.leb_spec d 0xDFFF); cbn [andb] in *;
      try done.
    cbn [flat_map]. rewrite IH by (cbn; try lia; done).
    unfold utf16_units. decide_comparisons. cbn [app].
    f_equal; [lia|]. f_equal. lia.
  - destruct (N.leb_spec 0xDC00 c), (N.leb_spec c 0xDFFF); cbn [andb negb] in *;
      try done; try lia;
      cbn [flat_map]; rewrite IH by (cbn; try lia; done);
      unfold utf16_units; decide_comparisons; done.
  - destruct (N.leb_spec 0xDC00 c), (N.leb_spec c 0xDFFF); cbn [andb negb] in *;
      try done; try lia;
      cbn [flat_map]; rewrite IH by (cbn; try lia; done);
      unfold utf16_units; decide_comparisons; done.
  - lia.
Qed.

Lemma is_string_strip_BOM s : is_string s → is_string (strip_BOM s).
Proof.
  destruct s as [|c rest]; [done|]. cbn. intros [? ?]%Forall_cons.
  destruct (c =? 0xFEFF); [done|by constructor].
Qed.

Lemma isWellFormed_strip_BOM s :
  isWellFormed s = true → isWellFormed (strip_BOM s) = true.
Proof.
  destruct s as [|c rest]; [done|]. cbn [strip_BOM].
  destruct (N.eqb_spec c 0xFEFF) as [->|]; [|done]. cbn. done.
Qed.

(** [TextDecoder] after [TextEncoder]: unpaired surrogates have become
    U+FFFD and a leading U+FEFF is gone. *)
Lemma TextDecoder_decode_encode s :
  is_string s →
  TextDecoder_decode (TextEncoder_encode s)
  = flat_map utf16_units (to_scalar_values (strip_BOM s)).
Proof.
  intros Hs. unfold TextDecoder_decode, TextEncoder_encode.
  rewrite utf8_decode_flat_map by by apply to_scalar_values_scalar.
  by rewrite strip_BOM_to_scalar_values.
Qed.

Lemma TextDecoder_decode_encode_wf s :
  is_string s → isWellFormed s = true →
  TextDecoder_decode (TextEncoder_encode s) = strip_BOM s.
Proof.
  intros Hs Hwf. rewrite TextDecoder_decode_encode by done.
  apply utf16_units_to_scalar_values;
    [by apply is_string_strip_BOM|by apply isWellFormed_strip_BOM].
Qed.

(** *** Base64 *)

Lemma base64_char_cases n :
  n < 64 →
  base64_value (base64_char n) = Some n
  ∧ is_ascii_whitespace (base64_char n) = false
  ∧ base64_char n ≠ 61 ∧ base64_char n <= 255.
Proof.
  intros Hn. unfold base64_char, base64_value, is_ascii_whitespace.
  destruct (N.ltb_spec n 26); [|destruct (N.ltb_spec n 52);
    [|destruct (N.ltb_spec n 62); [|destruct (N.eqb_spec n 62)]]];
    decide_comparisons; cbn; (split; [f_equal; lia|]); (split; [done|]); lia.
Qed.

(** The shape of an encoding: characters of 6-bit values that decode to the
    input, then the padding that completes a group of four. *)
Lemma base64_encode_shape bs :
  Forall (λ b, b <= 255) bs →
  ∃ vs pad,
    base64_encode bs = map base64_char vs ++ pad
    ∧ Forall (λ v, v < 64) vs
    ∧ base64_decode vs = bs
    ∧ ((pad = [] ∧ N.of_nat (length vs) mod 4 = 0)
       ∨ (pad = [61] ∧ N.of_nat (length vs) mod 4 = 3)
       ∨ (pad = [61; 61] ∧ N.of_nat (length vs) mod 4 = 2)).
Proof.
  induction bs as [bs IH] using list_length_ind. intros Hbs.
  destruct bs as [|a [|b [|c rest]]].
  - exists [], []. repeat split; auto.
  - apply Forall_cons in Hbs as [Ha _].
    exists [a / 4; (a mod 4) * 16], [61; 61]. cbn.
    repeat split; [repeat constructor; lia| f_equal; lia | auto].
  - apply Forall_cons in Hbs as [Ha [Hb _]%Forall_cons].
    exists [a / 4; (a mod 4) * 16 + b / 16; (b mod 16) * 4], [61]. cbn.
    repeat split; [repeat constructor; lia| repeat (f_equal; try lia) | auto].
  - apply Forall_cons in Hbs as [Ha [Hb [Hc Hrest]%Forall_cons]%Forall_cons].
    destruct (IH rest) as (vs & pad & Henc & Hvs & Hdec & Hpad);
      [cbn; lia|done|].
    exists (a / 4 :: (a mod 4) * 16 + b / 16 :: (b mod 16) * 4 + c / 64
            :: c mod 64 :: vs), pad.
    cbn [base64_encode map app]. rewrite Henc. split; [done|].
    split; [repeat constructor; try lia; done|].
    split.
    { cbn [base64_decode]. rewrite Hdec. repeat (f_equal; try lia). }
    cbn [length].
    replace (N.of_nat (S (S (S (S (length vs)))) ) mod 4)
      with (N.of_nat (length vs) mod 4) by lia.
    done.
Qed.

Lemma filter_all {A} (P : A → Prop) `{∀ x, Decision (P x)} (l : list A) :
  Forall P l → filter P l = l.
Proof.
  induction 1 as [|x l Hx _ IH]; [done|].
  rewrite filter_cons_True by done. by rewrite IH.
Qed.

Lemma strip_padding_encoded vs pad :
  Forall (λ v, v < 64) vs →
  (pad = [] ∧ N.of_nat (length vs) mod 4 = 0)
  ∨ (pad = [61] ∧ N.of_nat (length vs) mod 4 = 3)
  ∨ (pad = [61; 61] ∧ N.of_nat (length vs) mod 4 = 2) →
  strip_padding (map base64_char vs ++ pad) = map base64_char vs.
Proof.
  intros Hvs Hpad. unfold strip_padding.
  assert (Hlast : ∀ c r, rev (map base64_char vs) = c :: r → c ≠ 61).
  { intros c r Hrev.
    assert (Hin : In c (rev (map base64_char vs))) by (rewrite Hrev; by left).
    apply in_rev, in_map_iff in Hin as (v & <- & Hv%list_elem_of_In).
    rewrite Forall_forall in Hvs. by apply base64_char_cases, Hvs. }
  rewrite length_app, length_map.
  destruct Hpad as [[-> Hl]|[[-> Hl]|[-> Hl]]]; cbn [length].
  - rewrite app_nil_r.
    replace (N.of_nat (length vs + 0) mod 4 =? 0) with true
      by (symmetry; apply N.eqb_eq; lia).
    destruct (rev (map base64_char vs)) as [|c r] eqn:Hrev; [done|].
    by rewrite (proj2 (N.eqb_neq c 61)) by by eapply Hlast.
  - replace (N.of_nat (length vs + 1) mod 4 =? 0) with true
      by (symmetry; apply N.eqb_eq; lia).
    rewrite rev_app_distr. cbn [rev app].
    destruct (rev (map base64_char vs)) as [|c r] eqn:Hrev.
    + cbn. apply (f_equal (@rev N)) in Hrev. by rewrite rev_involutive in Hrev.
    + cbn [N.eqb Pos.eqb].
      rewrite (proj2 (N.eqb_neq c 61)) by by eapply Hlast.
      rewrite <- Hrev. apply rev_involutive.
  - replace (N.of_nat (length vs + 2) mod 4 =? 0) with true
      by (symmetry; apply N.eqb_eq; lia).
    rewrite rev_app_distr. cbn [rev app N.eqb Pos.eqb].
    apply rev_involutive.
Qed.

(** [atob] undoes [base64_encode] on bytes. *)
Lemma atob_base64_encode bs :
  Forall (λ b, b <= 255) bs → atob (base64_encode bs) = Ok bs.
Proof.
  intros Hbs.
  destruct (base64_encode_shape bs Hbs) as (vs & pad & -> & Hvs & Hdec & Hpad).
  unfold atob.
  rewrite filter_all.
  2:{ apply Forall_app. split.
      - apply Forall_fmap. eapply Forall_impl; [exact Hvs|].
        intros v Hv. by apply base64_char_cases.
      - destruct Hpad as [[-> _]|[[-> _]|[-> _]]]; by repeat constructor. }
  rewrite strip_padding_encoded by done.
  rewrite length_map.
  replace (N.of_nat (length vs) mod 4 =? 1) with false
    by (symmetry; apply N.eqb_neq; lia).
  change (map base64_char vs) with (base64_char <$> vs).
  rewrite (mapM_fmap_Forall_Some base64_value base64_char vs).
  - by rewrite Hdec.
  - eapply Forall_impl; [exact Hvs|]. intros v Hv. by apply base64_char_cases.
Qed.

Lemma atob_btoa s t : btoa s = Ok t → atob t = Ok s.
Proof.
  unfold btoa. destruct (forallb _ s) eqn:Hs; [|done].
  intros [= <-]. apply atob_base64_encode.
  apply Forall_forall. intros c Hc%list_elem_of_In.
  rewrite forallb_forall in Hs. apply N.leb_le. by apply Hs.
Qed.

Lemma base64_encode_nonempty bs : bs ≠ [] → base64_encode bs ≠ [].
Proof. by destruct bs as [|a [|b [|c rest]]]. Qed.

(** *** JSON *)

Lemma hex_value_hex_digit n : n < 16 → hex_value (hex_digit n) = Some n.
Proof.
  intros Hn. unfold hex_value, hex_digit, is_digit.
  destruct (N.ltb_spec n 10); decide_comparisons; cbn; f_equal; lia.
Qed.

Lemma parse_unicode_escape c s tail str :
  c < 65536 →
  parse_string_chars s = Some (str, tail) →
  parse_string_chars (unicode_escape c ++ s) = Some (c :: str, tail).
Proof.
  intros Hc Hs. unfold unicode_escape. cbn [app parse_string_chars].
  cbn [N.eqb Pos.eqb].
  rewrite !hex_value_hex_digit by lia. rewrite Hs.
  do 2 f_equal. f_equal. lia.
Qed.

Lemma parse_quote_unit c s tail str :
  ¬ (0xD800 <= c <= 0xDFFF) →
  parse_string_chars s = Some (str, tail) →
  parse_string_chars (quote_unit c ++ s) = Some (c :: str, tail).
Proof.
  intros Hc Hs. unfold quote_unit.
  repeat match goal with
  | |- context [if ?a =? ?b then _ else _] =>
      destruct (N.eqb_spec a b) as [->|?];
        [cbn [app parse_string_chars N.eqb Pos.eqb simple_escape];
         by rewrite Hs|]
  end.
  destruct (N.ltb_spec c 32).
  - apply parse_unicode_escape; [lia|done].
  - cbn [app parse_string_chars]. decide_comparisons. by rewrite Hs.
Qed.

(** A quoted string body followed by its closing quote reads back as the
    string. *)
Lemma parse_string_chars_quote s tail :
  parse_string_chars (quote_chars s ++ 34 :: tail) = Some (s, tail).
Proof.
  induction s as [s IH] using list_length_ind.
  destruct s as [|c rest]; [done|].
  cbn [quote_chars]. unfold is_high_surrogate, is_low_surrogate.
  destruct (N.leb_spec 0xD800 c), (N.leb_spec c 0xDBFF); cbn [andb].
  - destruct rest as [|d rest'].
    + apply parse_unicode_escape; [lia|done].
    + destruct (N.leb_spec 0xDC00 d), (N.leb_spec d 0xDFFF); cbn [andb].
      * cbn [app parse_string_chars]. decide_comparisons.
        rewrite IH by (cbn; lia). done.
      * rewrite <- app_assoc. apply parse_unicode_escape; [lia|].
        apply IH. cbn; lia.
      * rewrite <- app_assoc. apply parse_unicode_escape; [lia|].
        apply IH. cbn; lia.
      * lia.
  - destruct (N.leb_spec 0xDC00 c), (N.leb_spec c 0xDFFF); cbn [andb];
      rewrite <- app_assoc;
      first [ apply parse_unicode_escape; [lia|apply IH; cbn; lia]
            | apply parse_quote_unit; [lia|apply IH; cbn; lia] ].
  - destruct (N.leb_spec 0xDC00 c), (N.leb_spec c 0xDFFF); cbn [andb];
      rewrite <- app_assoc;
      first [ apply parse_unicode_escape; [lia|apply IH; cbn; lia]
            | apply parse_quote_unit; [lia|apply IH; cbn; lia] ].
  - lia.
Qed.

Lemma skip_ws_not_ws c s :
  is_json_whitespace c = false → skip_ws (c :: s) = c :: s.
Proof. intros Hc. cbn [skip_ws]. by rewrite Hc. Qed.

Lemma parse_value_string fuel str tail :
  parse_value (S fuel) (34 :: quote_chars str ++ 34 :: tail)
  = Some (VString str, tail).
Proof.
  cbn [parse_value]. rewrite skip_ws_not_ws by done.
  cbn [N.eqb Pos.eqb]. by rewrite parse_string_chars_quote.
Qed.

Lemma parse_value_one fuel c tail :
  is_digit c = false → c ≠ 46 → c ≠ 101 → c ≠ 69 →
  parse_value (S fuel) (49 :: c :: tail)
  = Some (VNumber (mkDecimal false 1 0), c :: tail).
Proof.
  intros Hd H1 H2 H3. cbn [parse_value]. rewrite skip_ws_not_ws by done.
  cbn [N.eqb Pos.eqb]. unfold parse_number.
  cbn [N.eqb Pos.eqb is_digit N.leb N.compare Pos.compare Pos.compare_cont andb take_digits].
  rewrite Hd. unfold parse_exponent.
  rewrite (proj2 (N.eqb_neq c 46)), (proj2 (N.eqb_neq c 101)),
    (proj2 (N.eqb_neq c 69)) by done.
  done.
Qed.

(** One member [ "key":value ] of an object, the value parsed by
    [parse_value]. *)
Lemma parse_members_step fuel key rest acc :
  parse_members (S fuel) (34 :: quote_chars key ++ 34 :: 58 :: rest) acc
  = match parse_value fuel rest with
    | Some (v, rest3) =>
        match skip_ws rest3 with
        | c3 :: rest4 =>
            if c3 =? 44 then parse_members fuel rest4 (acc ++ [(key, v)])
            else if c3 =? 125 then Some (VObject (acc ++ [(key, v)]), rest4)
            else None
        | [] => None
        end
    | None => None
    end.
Proof.
  cbn [parse_members]. rewrite skip_ws_not_ws by done.
  cbn [N.eqb Pos.eqb]. rewrite parse_string_chars_quote.
  rewrite skip_ws_not_ws by done. done.
Qed.

Lemma JSON_stringify_shape a d :
  JSON_stringify (mkMetadata a 1 d)
  = 123 :: 34 :: quote_chars (js "algorithm") ++ 34 :: 58 :: 34
    :: quote_chars a ++ 34 :: 44 :: 34 :: quote_chars (js "version")
    ++ 34 :: 58 :: 49 :: 44 :: 34 :: quote_chars (js "data") ++ 34 :: 58
    :: 34 :: quote_chars d ++ [34; 125].
Proof.
  unfold JSON_stringify, QuoteJSONString. cbn [algorithm version data].
  change (js "{") with [123]. change (js ":") with [58].
  change (js ",") with [44]. change (js "}") with [125].
  change (js (DecimalString.NilZero.string_of_uint (N.to_uint 1))) with [49].
  cbn [app]. repeat (rewrite <- !app_assoc; cbn [app]). done.
Qed.

(** Parsing the text of an envelope gives its three members back. *)
Lemma parse_value_JSON_stringify fuel a d :
  parse_value (6 + fuel) (JSON_stringify (mkMetadata a 1 d))
  = Some (metadata_value a d, []).
Proof.
  rewrite JSON_stringify_shape.
  change (6 + fuel)%nat with (S (S (S (S (S (S fuel)))))).
  cbn [parse_value]. rewrite skip_ws_not_ws by done. cbn [N.eqb Pos.eqb].
  rewrite skip_ws_not_ws by done. cbn [N.eqb Pos.eqb].
  rewrite parse_members_step, parse_value_string.
  rewrite skip_ws_not_ws by done. cbn [N.eqb Pos.eqb].
  rewrite parse_members_step, parse_value_one by done.
  rewrite skip_ws_not_ws by done. cbn [N.eqb Pos.eqb].
  rewrite parse_members_step, parse_value_string.
  rewrite skip_ws_not_ws by done. cbn [N.eqb Pos.eqb app].
  done.
Qed.

Lemma JSON_parse_stringify a d :
  JSON_parse (JSON_stringify (mkMetadata a 1 d)) = Ok (metadata_value a d).
Proof.
  unfold JSON_parse.
  assert (∃ n, S (length (JSON_stringify (mkMetadata a 1 d))) = (6 + n)%nat)
    as [n ->].
  { rewrite JSON_stringify_shape. cbn [length].
    eexists. repeat f_equal. }
  by rewrite parse_value_JSON_stringify.
Qed.

(** ** Key material and the provider *)

(** *** [Map] *)

Lemma Map_get_set {V} (m : list (jsstring * V)) k v k' :
  Map_get (Map_set m k v) k' = if bool_decide (k = k') then Some v else Map_get m k'.
Proof.
  induction m as [|[k0 v0] m IH]; cbn.
  - done.
  - repeat (case_bool_decide; cbn; subst); try done; congruence.
Qed.

Section KeyMaterialFacts.
Context {J : Jose}.

Lemma getSecretList_eq st : getSecretList st = (secret_list (SECRET st), st).
Proof.
  unfold getSecretList, secret_list, bind, get_state, throw, ret.
  destruct (SECRET st) as [|c cs]; cbn [ToBoolean negb]; [done|].
  by destruct (List.filter _ _).
Qed.

Lemma cache_coherent_nil : cache_coherent [].
Proof. by intros s k. Qed.

Lemma cache_coherent_set c s k :
  cache_coherent c → key_of s = Ok k → cache_coherent (Map_set c s k).
Proof.
  intros Hc Hk s' k'. rewrite Map_get_set.
  case_bool_decide; [intros [= <-]; by subst|apply Hc].
Qed.

Lemma set_cryptoKeyCache_same st : set_cryptoKeyCache (cryptoKeyCache st) st = st.
Proof. by destruct st. Qed.

(** [getCryptoKey] returns the key of the secret whatever the cache holds,
    and leaves a coherent cache. *)
Lemma getCryptoKey_eq s st :
  cache_coherent (cryptoKeyCache st) →
  ∃ c, getCryptoKey s st = (key_of s, set_cryptoKeyCache c st)
       ∧ cache_coherent c.
Proof.
  intros Hc. unfold getCryptoKey, bind, get_state.
  destruct (Map_get (cryptoKeyCache st) s) as [k|] eqn:Hget.
  - exists (cryptoKeyCache st). rewrite set_cryptoKeyCache_same.
    by rewrite (Hc _ _ Hget).
  - unfold key_of.
    destruct (length (Buffer_from_base64 s) =? 32)%nat eqn:Hlen; cbn [negb].
    + eexists. split; [reflexivity|].
      apply cache_coherent_set; [done|]. unfold key_of. by rewrite Hlen.
    + exists (cryptoKeyCache st). by rewrite set_cryptoKeyCache_same.
Qed.

Lemma Promise_all_getCryptoKey_eq secrets st :
  cache_coherent (cryptoKeyCache st) →
  ∃ c, Promise_all_map getCryptoKey secrets st
       = (keys_of secrets, set_cryptoKeyCache c st)
       ∧ cache_coherent c.
Proof.
  revert st. induction secrets as [|s rest IH]; intros st Hc.
  - exists (cryptoKeyCache st). by rewrite set_cryptoKeyCache_same.
  - cbn [Promise_all_map keys_of].
    destruct (getCryptoKey_eq s st Hc) as (c1 & -> & Hc1).
    destruct (IH (set_cryptoKeyCache c1 st) Hc1) as (c2 & -> & Hc2).
    exists c2. split; [|done].
    destruct (key_of s) as [k|e]; [by destruct (keys_of rest)|done].
Qed.

Lemma getActiveCryptoKey_eq st :
  cache_coherent (cryptoKeyCache st) →
  ∃ c, getActiveCryptoKey st = (active_key (SECRET st), set_cryptoKeyCache c st)
       ∧ cache_coherent c.
Proof.
  intros Hc. unfold getActiveCryptoKey, active_key, bind.
  rewrite getSecretList_eq.
  destruct (secret_list (SECRET st)) as [[|a l]|e].
  - exists (cryptoKeyCache st). by rewrite set_cryptoKeyCache_same.
  - by apply getCryptoKey_eq.
  - exists (cryptoKeyCache st). by rewrite set_cryptoKeyCache_same.
Qed.

Lemma getAllCryptoKeys_eq st :
  cache_coherent (cryptoKeyCache st) →
  ∃ c, getAllCryptoKeys st = (all_keys (SECRET st), set_cryptoKeyCache c st)
       ∧ cache_coherent c.
Proof.
  intros Hc. unfold getAllCryptoKeys, all_keys, bind.
  rewrite getSecretList_eq.
  destruct (secret_list (SECRET st)) as [l|e].
  - by apply Promise_all_getCryptoKey_eq.
  - exists (cryptoKeyCache st). by rewrite set_cryptoKeyCache_same.
Qed.

Lemma key_of_valid s k : key_of s = Ok k → valid_key k.
Proof.
  unfold key_of, valid_key.
  destruct (length _ =? 32)%nat eqn:Hl; [|done].
  intros [= <-]. cbn. by apply Nat.eqb_eq.
Qed.

Lemma keys_of_valid secrets keys :
  keys_of secrets = Ok keys → Forall valid_key keys.
Proof.
  revert keys. induction secrets as [|s rest IH]; cbn; intros keys.
  - by intros [= <-].
  - destruct (key_of s) as [k|] eqn:Hk; [|done].
    destruct (keys_of rest) as [ks|]; [|done].
    intros [= <-]. constructor; [by eapply key_of_valid|by apply IH].
Qed.

Lemma all_keys_valid secret keys :
  all_keys secret = Ok keys → Forall valid_key keys.
Proof.
  unfold all_keys. destruct (secret_list secret); [|done]. apply keys_of_valid.
Qed.

(** With every secret valid, the active key is the first of all keys. *)
Lemma active_key_all_keys secret keys :
  all_keys secret = Ok keys →
  ∃ k ks, keys = k :: ks ∧ active_key secret = Ok k.
Proof.
  unfold all_keys, active_key, secret_list.
  destruct secret as [|c cs]; [done|].
  destruct (List.filter _ _) as [|a l]; [done|]. cbn [keys_of].
  destruct (key_of a) as [k|]; [|done].
  destruct (keys_of l) as [ks|]; [|done].
  intros [= <-]. by exists k, ks.
Qed.

(** What [JWEA256GCMProvider.encrypt] does. *)
Lemma JWEA256GCMProvider_encrypt_eq plaintext context st :
  cache_coherent (cryptoKeyCache st) →
  ∃ c, cache_coherent c ∧
    JWEA256GCMProvider_encrypt plaintext context st
    = match plaintext with
      | [] => (Ok [], st)
      | _ :: _ =>
          match active_key (SECRET st) with
          | Err e => (Err e, set_cryptoKeyCache c st)
          | Ok k =>
              (Ok (CompactEncrypt (TextEncoder_encode plaintext)
                     (protected_header context) k
                     (random_values st (random_drawn st))),
               mkProviderState (SECRET st) c (random_values st)
                               (S (random_drawn st)))
          end
      end.
Proof.
  intros Hc. unfold JWEA256GCMProvider_encrypt.
  destruct plaintext as [|x xs]; cbn [ToBoolean negb].
  - by exists (cryptoKeyCache st).
  - unfold try_catch, bind at 1.
    destruct (getActiveCryptoKey_eq st Hc) as (c & -> & Hc').
    exists c. split; [done|].
    by destruct (active_key (SECRET st)).
Qed.

Lemma ToBoolean_VString s : ToBoolean (VString s) = negb (bool_decide (s = [])).
Proof. by destruct s. Qed.

(** What [JWEA256GCMProvider.decrypt] does on a string. *)
Lemma JWEA256GCMProvider_decrypt_eq jwe context st :
  cache_coherent (cryptoKeyCache st) →
  ∃ c, cache_coherent c ∧
    JWEA256GCMProvider_decrypt (VString jwe) context st
    = (provider_decrypt (SECRET st) jwe context, set_cryptoKeyCache c st).
Proof.
  intros Hc. unfold JWEA256GCMProvider_decrypt, provider_decrypt.
  destruct jwe as [|x xs]; cbn [ToBoolean negb].
  - exists (cryptoKeyCache st). by rewrite set_cryptoKeyCache_same.
  - unfold bind.
    destruct (getAllCryptoKeys_eq st Hc) as (c & -> & Hc').
    exists c. split; [done|]. by destruct (all_keys (SECRET st)).
Qed.

(** The loop only ever throws its final error. *)
Lemma decrypt_with_keys_Err jwe context keys e :
  decrypt_with_keys jwe context keys = Err e →
  e = Error (js "Decryption failed").
Proof.
  induction keys as [|k ks IH]; cbn [decrypt_with_keys].
  - by intros [= <-].
  - destruct (match compactDecrypt jwe k with | Ok _ => _ | Err _ => _ end);
      [done|apply IH].
Qed.

(** What [JWEA256GCMProvider.decrypt] does on any value. *)
Lemma JWEA256GCMProvider_decrypt_value jwe context st :
  cache_coherent (cryptoKeyCache st) →
  ∃ c, cache_coherent c ∧
    JWEA256GCMProvider_decrypt jwe context st
    = (if ToBoolean jwe
       then match all_keys (SECRET st) with
            | Ok keys => decrypt_with_keys jwe context keys
            | Err e => Err e
            end
       else Ok [],
       set_cryptoKeyCache c st).
Proof.
  intros Hc. unfold JWEA256GCMProvider_decrypt.
  destruct (ToBoolean jwe); cbn [negb].
  - unfold bind. destruct (getAllCryptoKeys_eq st Hc) as (c & -> & Hc').
    exists c. split; [done|]. by destruct (all_keys (SECRET st)).
  - exists (cryptoKeyCache st). by rewrite set_cryptoKeyCache_same.
Qed.

(** The loop over a list of keys followed by another: the keys of the
    second list are tried only when every key of the first has failed. *)
Lemma decrypt_with_keys_app jwe context keys keys' :
  decrypt_with_keys jwe context (keys ++ keys')
  = match decrypt_with_keys jwe context keys with
    | Ok text => Ok text
    | Err _ => decrypt_with_keys jwe context keys'
    end.
Proof.
  induction keys as [|k keys IH]; cbn [app decrypt_with_keys]; [done|].
  by destruct (match compactDecrypt jwe k with | Ok _ => _ | Err _ => _ end).
Qed.

Context {I : IdealJose J}.

Lemma Get_kid context :
  Get (protected_header context) (js "kid")
  = Ok (match context with
        | Some (c :: cs) => VString (c :: cs)
        | _ => VUndefined
        end).
Proof. by destruct context as [[|c cs]|]. Qed.

(** One turn of the loop on a ciphertext made with key [k]. *)
Lemma decrypt_with_keys_cons pt made k iv supplied k' keys :
  valid_key k → valid_key k' →
  decrypt_with_keys
    (VString (CompactEncrypt pt (protected_header made) k iv))
    supplied (k' :: keys)
  = if bool_decide (k' = k) && context_accepted made supplied
    then Ok (TextDecoder_decode pt)
    else decrypt_with_keys
           (VString (CompactEncrypt pt (protected_header made) k iv))
           supplied keys.
Proof.
  intros Hk Hk'. cbn [decrypt_with_keys].
  case_bool_decide as Heq; cbn [andb].
  - subst k'. rewrite compactDecrypt_CompactEncrypt by done.
    unfold context_accepted.
    destruct supplied as [[|c cs]|]; [done| |done].
    rewrite Get_kid. unfold strict_neq_string.
    destruct made as [[|m ms]|]; [done| |done].
    by case_bool_decide.
  - destruct (compactDecrypt_other_key pt made k k' iv) as [e ->]; [done..|].
    done.
Qed.

(** The loop succeeds when the key is in the list and the context is
    accepted. *)
Lemma decrypt_with_keys_accept pt made k iv supplied keys :
  valid_key k → Forall valid_key keys → k ∈ keys →
  context_accepted made supplied = true →
  decrypt_with_keys
    (VString (CompactEncrypt pt (protected_header made) k iv)) supplied keys
  = Ok (TextDecoder_decode pt).
Proof.
  intros Hk Hkeys Hin Hacc.
  induction Hkeys as [|k' keys Hk' _ IH]; [by apply elem_of_nil in Hin|].
  rewrite decrypt_with_keys_cons by done. rewrite Hacc, andb_true_r.
  case_bool_decide as Heq; [done|].
  apply IH. apply elem_of_cons in Hin as [->|]; done.
Qed.

(** The loop fails when the key is not in the list or the context is not
    accepted. *)
Lemma decrypt_with_keys_reject pt made k iv supplied keys :
  valid_key k → Forall valid_key keys →
  k ∉ keys ∨ context_accepted made supplied = false →
  decrypt_with_keys
    (VString (CompactEncrypt pt (protected_header made) k iv)) supplied keys
  = Err (Error (js "Decryption failed")).
Proof.
  intros Hk Hkeys Hrej.
  induction Hkeys as [|k' keys Hk' _ IH]; [done|].
  rewrite decrypt_with_keys_cons by done.
  destruct Hrej as [Hnot|Hacc].
  - apply not_elem_of_cons in Hnot as [Hne Hnot].
    rewrite bool_decide_eq_false_2 by done. cbn [andb]. apply IH. by left.
  - rewrite Hacc, andb_false_r. apply IH. by right.
Qed.

End KeyMaterialFacts.

(** *** Envelopes *)

Lemma Forall_latin1 s :
  forallb (λ c, c <=? 255) s = true ↔ Forall (λ c, c <= 255) s.
Proof.
  rewrite forallb_forall, Forall_forall. split.
  - intros Hs c Hc%list_elem_of_In. by apply N.leb_le, Hs.
  - intros Hs c Hc%list_elem_of_In. by apply N.leb_le, Hs.
Qed.

Lemma quote_unit_latin1 c : c <= 255 → Forall (λ c, c <= 255) (quote_unit c).
Proof.
  intros Hc. unfold quote_unit, unicode_escape, hex_digit.
  repeat match goal with
  | |- context [if ?b then _ else _] => destruct b
  end; repeat constructor; lia.
Qed.

Lemma quote_chars_latin1 s :
  Forall (λ c, c <= 255) s → Forall (λ c, c <= 255) (quote_chars s).
Proof.
  induction 1 as [|c rest Hc _ IH]; [constructor|].
  cbn [quote_chars]. unfold is_high_surrogate, is_low_surrogate.
  rewrite (proj2 (N.leb_gt 0xD800 c)), (proj2 (N.leb_gt 0xDC00 c)) by lia.
  cbn [andb]. apply Forall_app. split; [by apply quote_unit_latin1|done].
Qed.

Lemma JSON_stringify_latin1 a d :
  Forall (λ c, c <= 255) a → Forall (λ c, c <= 255) d →
  Forall (λ c, c <= 255) (JSON_stringify (mkMetadata a 1 d)).
Proof.
  intros Ha Hd. rewrite JSON_stringify_shape.
  assert (Hkey : ∀ k, forallb (λ c, c <=? 255) k = true →
                      Forall (λ c, c <= 255) (quote_chars k)).
  { intros k Hk. by apply quote_chars_latin1, Forall_latin1. }
  repeat first
    [ apply Forall_nil
    | apply Forall_cons; split; [lia|]
    | apply Forall_app; split;
      [first [by apply quote_chars_latin1 | by apply Hkey]|] ].
  done.
Qed.

Lemma btoa_JSON_stringify a d :
  Forall (λ c, c <= 255) a → Forall (λ c, c <= 255) d →
  btoa (JSON_stringify (mkMetadata a 1 d)) = Ok (envelope a d).
Proof.
  intros Ha Hd. unfold btoa, envelope.
  by rewrite (proj2 (Forall_latin1 _) (JSON_stringify_latin1 a d Ha Hd)).
Qed.

Lemma atob_envelope a d :
  Forall (λ c, c <= 255) a → Forall (λ c, c <= 255) d →
  atob (envelope a d) = Ok (JSON_stringify (mkMetadata a 1 d)).
Proof. intros. by apply atob_base64_encode, JSON_stringify_latin1. Qed.

Lemma envelope_nonempty a d : envelope a d ≠ [].
Proof.
  unfold envelope. apply base64_encode_nonempty.
  by rewrite JSON_stringify_shape.
Qed.

Lemma JWE_identifier_latin1 : Forall (λ c, c <= 255) (js "JWE-A256GCM").
Proof. by apply Forall_latin1. Qed.

(** *** The service over a [JWEA256GCMProvider] *)

Section ServiceFacts.
Context {J : Jose}.

Lemma steps_registers_JWE w w' p m n this X q :
  steps w w' p m n → registers_JWE w this X q → registers_JWE w' this X q.
Proof.
  intros (HS & _ & _ & HM & _ & c & Hc & HP) (mp & obj & Hm & Hget & Hobj & Hcls & Hcoh).
  destruct (decide (q = p)) as [->|Hne].
  - exists mp, (mkObject JWEA256GCMProvider c).
    rewrite HM, HP, lookup_insert_eq. done.
  - exists mp, obj. rewrite HM, HP, lookup_insert_ne by done. done.
Qed.

(** [invoke] on a registered [JWEA256GCMProvider]. *)
Lemma invoke_JWE {A} w p obj (m : Method)
    (body : EncryptionProvider → M ProviderState A) r st' :
  Providers w !! p = Some obj →
  body (methods obj)
       (mkProviderState (PrivateEnvironment_SECRET w) (cache obj)
                        (random_source w) (random_used w)) = (r, st') →
  invoke p m body w
  = (r, mkWorld (PrivateEnvironment_SECRET w) (random_source w)
                (random_drawn st') (Maps w)
                (<[p := mkObject (methods obj) (cryptoKeyCache st')]>
                   (Providers w))
                (provider_calls w ++ [(p, m)])).
Proof. intros Hp Hbody. unfold invoke. by rewrite Hp, Hbody. Qed.

(** What [EncryptionService.encrypt] does with a registered
    [JWEA256GCMProvider]. *)
Lemma EncryptionService_encrypt_JWE {I : IdealJose J}
    w this X p plaintext context :
  registers_JWE w this X p → X ≠ [] →
  ∃ w',
    EncryptionService_encrypt this plaintext
      (EncryptOptions.make (Some X) context) w
    = (match plaintext with
       | [] => Ok (envelope (js "JWE-A256GCM") [])
       | _ :: _ =>
           match active_key (PrivateEnvironment_SECRET w) with
           | Err e =>
               Err (EncryptionError (js "Encryption failed") (Some X) (Some e))
           | Ok k =>
               Ok (envelope (js "JWE-A256GCM")
                     (CompactEncrypt (TextEncoder_encode plaintext)
                        (protected_header context) k
                        (random_source w (random_used w))))
           end
       end, w')
    ∧ steps w w' p method_encrypt
        (match plaintext with
         | [] => 0
         | _ :: _ => match active_key (PrivateEnvironment_SECRET w) with
                     | Ok _ => 1
                     | Err _ => 0
                     end
         end).
Proof.
  intros (m & obj & Hm & Hget & Hobj & Hcls & Hcoh) HX.
  unfold EncryptionService_encrypt. cbn [EncryptOptions.algorithm of_optional].
  rewrite ToBoolean_VString, bool_decide_eq_false_2 by done. cbn [negb].
  unfold bind at 1. unfold read_Map at 1. rewrite Hm.
  cbn [Map_get_value]. rewrite Hget.
  unfold try_catch, bind at 1. cbn [EncryptOptions.context].
  destruct (JWEA256GCMProvider_encrypt_eq plaintext context
              (mkProviderState (PrivateEnvironment_SECRET w) (cache obj)
                               (random_source w) (random_used w)) Hcoh)
    as (c & Hc & Hbody).
  cbn [SECRET random_values random_drawn cryptoKeyCache set_cryptoKeyCache]
    in Hbody.
  destruct plaintext as [|x xs].
  - erewrite invoke_JWE; [|done|by rewrite Hcls].
    unfold bind, read_Provider, lift. cbn [Providers]. rewrite lookup_insert_eq.
    cbn [methods cryptoKeyCache random_drawn]. rewrite Hcls. cbn [ALGORITHM_IDENTIFIER JWEA256GCMProvider].
    rewrite btoa_JSON_stringify by (done || apply JWE_identifier_latin1).
    eexists. split; [reflexivity|].
    repeat split; cbn; try done; try lia.
    by exists (cache obj).
  - destruct (active_key (PrivateEnvironment_SECRET w)) as [k|e] eqn:Hk.
    + erewrite invoke_JWE; [|done|by rewrite Hcls].
      unfold bind, read_Provider, lift. cbn [Providers]. rewrite lookup_insert_eq.
      cbn [methods cryptoKeyCache random_drawn]. rewrite Hcls. cbn [ALGORITHM_IDENTIFIER JWEA256GCMProvider].
      rewrite btoa_JSON_stringify
        by (apply JWE_identifier_latin1 || apply CompactEncrypt_latin1).
      eexists. split; [reflexivity|].
      repeat split; cbn; try done; try lia. exists c. split; [exact Hc|reflexivity].
    + erewrite invoke_JWE; [|done|by rewrite Hcls].
      unfold throw.
      eexists. split; [reflexivity|].
      repeat split; cbn; try done; try lia. exists c. by rewrite Hcls.
Qed.

(** What [EncryptionService.decrypt] does with an envelope of a registered
    [JWEA256GCMProvider]. *)
Lemma EncryptionService_decrypt_JWE w this p d options :
  registers_JWE w this (js "JWE-A256GCM") p →
  Forall (λ c, c <= 255) d →
  ∃ w',
    EncryptionService_decrypt this (envelope (js "JWE-A256GCM") d) options w
    = (wrap_decrypt
         (provider_decrypt (PrivateEnvironment_SECRET w) d
            (match options with
             | Some o => DecryptOptions.context o
             | None => None
             end)), w')
    ∧ steps w w' p method_decrypt 0.
Proof.
  intros (m & obj & Hm & Hget & Hobj & Hcls & Hcoh) Hd.
  unfold EncryptionService_decrypt.
  rewrite ToBoolean_VString,
    (bool_decide_eq_false_2 _ (envelope_nonempty _ _)). cbn [negb].
  unfold try_catch, bind at 1, lift at 1.
  rewrite atob_envelope by (done || apply JWE_identifier_latin1).
  unfold bind at 1, lift at 1. rewrite JSON_parse_stringify.
  unfold bind at 1, lift at 1.
  change (Get (metadata_value (js "JWE-A256GCM") d) (js "algorithm"))
    with (Ok (A:=JSValue) (VString (js "JWE-A256GCM"))).
  unfold bind at 1. unfold read_Map at 1. rewrite Hm.
  cbn [Map_get_value]. rewrite Hget.
  unfold bind at 1, lift at 1.
  change (Get (metadata_value (js "JWE-A256GCM") d) (js "data"))
    with (Ok (A:=JSValue) (VString d)).
  destruct (JWEA256GCMProvider_decrypt_eq d
              (match options with
               | Some o => DecryptOptions.context o
               | None => None
               end)
              (mkProviderState (PrivateEnvironment_SECRET w) (cache obj)
                               (random_source w) (random_used w)) Hcoh)
    as (c & Hc & Hbody).
  erewrite invoke_JWE; [|done|by rewrite Hcls].
  cbn [SECRET random_drawn set_cryptoKeyCache cryptoKeyCache].
  eexists. split.
  - unfold wrap_decrypt, throw.
    destruct (provider_decrypt _ _ _) as [t|e]; [reflexivity|].
    by destruct (_ || _).
  - repeat split; cbn; try done; try lia. exists c. by rewrite Hcls.
Qed.

End ServiceFacts.

(** ** The symbolic instance meets the laws *)

Lemma read_numbers_letters n current acc rest :
  Symbolic.read_numbers current acc (repeat 97 n ++ 46 :: rest)
  = Symbolic.read_numbers 0 (acc ++ [current + N.of_nat n]) rest.
Proof.
  revert current. induction n as [|n IH]; intros current.
  - cbn. by rewrite N.add_0_r.
  - cbn [repeat app Symbolic.read_numbers N.eqb Pos.eqb].
    rewrite IH. do 3 f_equal. lia.
Qed.

Lemma read_numbers_write_acc xs acc tail :
  Symbolic.read_numbers 0 acc (Symbolic.write_numbers xs ++ tail)
  = Some (acc ++ xs, tail).
Proof.
  unfold Symbolic.write_numbers. revert acc.
  induction xs as [|x xs IH]; intros acc.
  - cbn. by rewrite app_nil_r.
  - cbn [flat_map]. rewrite <- !app_assoc. cbn [app].
    rewrite read_numbers_letters, N.add_0_l, N2Nat.id.
    rewrite <- !app_assoc in IH. rewrite IH.
    by rewrite <- app_assoc.
Qed.

Lemma read_numbers_write xs tail :
  Symbolic.read_numbers 0 [] (Symbolic.write_numbers xs ++ tail)
  = Some (xs, tail).
Proof. apply read_numbers_write_acc. Qed.

Lemma Symbolic_kid_of context :
  Symbolic.kid_of (protected_header context)
  = match context with
    | Some (c :: cs) => c :: cs
    | _ => []
    end.
Proof. by destruct context as [[|c cs]|]. Qed.

Lemma Symbolic_open_seal pt context k k' iv :
  Symbolic.open (VString (Symbolic.seal pt (protected_header context) k iv)) k'
  = if bool_decide (raw_key k = raw_key k')
    then Ok (pt, protected_header context)
    else Err (ForeignError 0).
Proof.
  unfold Symbolic.open, Symbolic.seal.
  rewrite read_numbers_write. cbn [N.eqb Pos.eqb andb].
  case_bool_decide; [|done].
  rewrite !read_numbers_write. rewrite Symbolic_kid_of.
  by destruct context as [[|c cs]|].
Qed.

Lemma Symbolic_ideal : IdealJose Symbolic.jose.
Proof.
  split; cbn [CompactEncrypt compactDecrypt Symbolic.jose].
  - intros pt context k iv _. rewrite Symbolic_open_seal.
    by rewrite bool_decide_eq_true_2.
  - intros pt context k k' iv _ _ Hne. rewrite Symbolic_open_seal.
    rewrite bool_decide_eq_false_2; [by eexists|].
    destruct k, k'. cbn. congruence.
  - done.
  - intros pt h k iv. unfold Symbolic.seal.
    assert (Hw : ∀ xs, Forall (λ c, c <= 255) (Symbolic.write_numbers xs)).
    { intros xs. unfold Symbolic.write_numbers. apply Forall_app. split.
      - induction xs as [|x xs IH]; [constructor|]. cbn [flat_map].
        rewrite !Forall_app. split_and!; [|by repeat constructor|done].
        apply Forall_forall. intros c Hc%list_elem_of_In%repeat_spec. lia.
      - by repeat constructor. }
    apply Forall_cons. split; [lia|].
    rewrite !Forall_app. split_and!; apply Hw.
Qed.

(** ** Decrypting what was encrypted *)

Section Decrypting.
Context {J : Jose} {I : IdealJose J}.

Lemma keys_of_Err secrets e :
  keys_of secrets = Err e → e = Error (js "Invalid secret key length").
Proof.
  induction secrets as [|s rest IH]; cbn [keys_of]; [done|].
  unfold key_of at 1. destruct (length _ =? 32)%nat.
  - destruct (keys_of rest); [done|]. intros [= <-]. by apply IH.
  - by intros [= <-].
Qed.

(** The key material manager throws plain errors only. *)
Lemma all_keys_Err secret e :
  all_keys secret = Err e →
  wrap_decrypt (Err e)
  = Err (DecryptionError (js "Decryption failed") None (Some e)).
Proof.
  unfold all_keys, secret_list.
  destruct secret as [|c cs]; [by intros [= <-]|].
  destruct (List.filter _ _) as [|a l]; [by intros [= <-]|].
  by intros ->%keys_of_Err.
Qed.

(** Decrypting the envelope of a ciphertext made with key [k]: it opens
    when [k] is among the configured keys and the context is accepted. *)
Lemma decrypt_envelope w this p pt made k iv options keys :
  registers_JWE w this (js "JWE-A256GCM") p →
  valid_key k →
  all_keys (PrivateEnvironment_SECRET w) = Ok keys →
  (EncryptionService_decrypt this
     (envelope (js "JWE-A256GCM")
        (CompactEncrypt pt (protected_header made) k iv)) options w).1
  = if bool_decide (k ∈ keys)
       && context_accepted made
            (match options with
             | Some o => DecryptOptions.context o
             | None => None
             end)
    then Ok (TextDecoder_decode pt)
    else Err (DecryptionError (js "Decryption failed") None
                (Some (Error (js "Decryption failed")))).
Proof.
  intros Hreg Hk Hkeys.
  destruct (EncryptionService_decrypt_JWE w this p
              (CompactEncrypt pt (protected_header made) k iv) options Hreg)
    as (w' & -> & _); [apply CompactEncrypt_latin1|].
  cbn [fst]. unfold provider_decrypt.
  destruct (CompactEncrypt pt (protected_header made) k iv) eqn:Hc;
    [by apply CompactEncrypt_nonempty in Hc|].
  rewrite <- Hc, Hkeys.
  pose proof (all_keys_valid _ _ Hkeys) as Hvalid.
  case_bool_decide as Hin; cbn [andb].
  - destruct (context_accepted made _) eqn:Hacc.
    + by rewrite decrypt_with_keys_accept.
    + rewrite decrypt_with_keys_reject; [done..|by right].
  - rewrite decrypt_with_keys_reject; [done..|by left].
Qed.

(** Decrypting under a configuration whose keys cannot be loaded. *)
Lemma decrypt_envelope_no_keys w this p pt made k iv options e :
  registers_JWE w this (js "JWE-A256GCM") p →
  all_keys (PrivateEnvironment_SECRET w) = Err e →
  (EncryptionService_decrypt this
     (envelope (js "JWE-A256GCM")
        (CompactEncrypt pt (protected_header made) k iv)) options w).1
  = Err (DecryptionError (js "Decryption failed") None (Some e)).
Proof.
  intros Hreg Hkeys.
  destruct (EncryptionService_decrypt_JWE w this p
              (CompactEncrypt pt (protected_header made) k iv) options Hreg)
    as (w' & -> & _); [apply CompactEncrypt_latin1|].
  cbn [fst]. unfold provider_decrypt.
  destruct (CompactEncrypt pt (protected_header made) k iv) eqn:Hc;
    [by apply CompactEncrypt_nonempty in Hc|].
  rewrite Hkeys. exact (all_keys_Err _ _ Hkeys).
Qed.

(** The envelope of the empty plaintext decrypts to the empty string
    whatever the keys and the context. *)
Lemma decrypt_envelope_empty w this p options :
  registers_JWE w this (js "JWE-A256GCM") p →
  (EncryptionService_decrypt this (envelope (js "JWE-A256GCM") []) options w).1
  = Ok [].
Proof.
  intros Hreg.
  by destruct (EncryptionService_decrypt_JWE w this p [] options Hreg)
    as (w' & -> & _).
Qed.

(** Encrypting a non-empty plaintext under a valid active key. *)
Lemma encrypt_nonempty w this p x xs context k :
  registers_JWE w this (js "JWE-A256GCM") p →
  active_key (PrivateEnvironment_SECRET w) = Ok k →
  ∃ w1,
    EncryptionService_encrypt this (x :: xs)
      (EncryptOptions.make (Some (js "JWE-A256GCM")) context) w
    = (Ok (envelope (js "JWE-A256GCM")
             (CompactEncrypt (TextEncoder_encode (x :: xs))
                (protected_header context) k
                (random_source w (random_used w)))), w1)
    ∧ steps w w1 p method_encrypt 1.
Proof.
  intros Hreg Hk.
  destruct (EncryptionService_encrypt_JWE w this (js "JWE-A256GCM") p (x :: xs)
              context Hreg) as (w1 & Henc & Hsteps); [done|].
  rewrite Hk in Henc, Hsteps. by exists w1.
Qed.

Lemma encrypt_empty w this p context :
  registers_JWE w this (js "JWE-A256GCM") p →
  ∃ w1,
    EncryptionService_encrypt this []
      (EncryptOptions.make (Some (js "JWE-A256GCM")) context) w
    = (Ok (envelope (js "JWE-A256GCM") []), w1)
    ∧ steps w w1 p method_encrypt 0.
Proof.
  intros Hreg.
  by destruct (EncryptionService_encrypt_JWE w this (js "JWE-A256GCM") p []
                 context Hreg) as (w1 & Henc & Hsteps); [|exists w1].
Qed.

Lemma steps_SECRET w w' p m n :
  steps w w' p m n → PrivateEnvironment_SECRET w' = PrivateEnvironment_SECRET w.
Proof. by intros (? & _). Qed.

Lemma active_key_valid secret k : active_key secret = Ok k → valid_key k.
Proof.
  unfold active_key. destruct (secret_list secret) as [[|a l]|]; try done.
  apply key_of_valid.
Qed.

End Decrypting.

Lemma Symbolic_registers secret :
  @registers_JWE Symbolic.jose (Symbolic.world secret) Symbolic.service
    (js "JWE-A256GCM") 0.
Proof.
  exists [(js "JWE-A256GCM", 0%nat)], (mkObject (@JWEA256GCMProvider Symbolic.jose) []).
  by split_and!.
Qed.

Lemma strip_BOM_no_BOM s : head s ≠ Some 0xFEFF → strip_BOM s = s.
Proof.
  destruct s as [|c rest]; [done|]. cbn. intros Hc.
  destruct (N.eqb_spec c 0xFEFF) as [->|]; done.
Qed.

Lemma is_string_forallb s :
  forallb (λ c, c <? 65536) s = true → is_string s.
Proof.
  intros Hs. apply Forall_forall. intros c Hc%list_elem_of_In.
  rewrite forallb_forall in Hs. by apply N.ltb_lt, Hs.
Qed.

(** * The claims *)

Section Claims.
Context {J : Jose} {I : IdealJose J}.

(** What decrypting without a context gives for an envelope just made,
    with or without a context: the plaintext as [TextDecoder] reads the
    bytes of [TextEncoder] back. *)
Lemma decrypt_encrypt_no_context_supplied w this p keys plaintext made :
  registers_JWE w this (js "JWE-A256GCM") p →
  all_keys (PrivateEnvironment_SECRET w) = Ok keys →
  is_string plaintext →
  ∃ encrypted w1,
    EncryptionService_encrypt this plaintext
      (EncryptOptions.make (Some (js "JWE-A256GCM")) made) w
    = (Ok encrypted, w1)
    ∧ registers_JWE w1 this (js "JWE-A256GCM") p
    ∧ PrivateEnvironment_SECRET w1 = PrivateEnvironment_SECRET w
    ∧ ∀ options,
        match options with
        | Some o => DecryptOptions.context o
        | None => None
        end = None →
        (EncryptionService_decrypt this encrypted options w1).1
        = Ok (flat_map utf16_units (to_scalar_values (strip_BOM plaintext))).
Proof.
  intros Hreg Hkeys Hs.
  destruct (active_key_all_keys _ _ Hkeys) as (k & ks & -> & Hk).
  destruct plaintext as [|x xs].
  - destruct (encrypt_empty w this p made Hreg) as (w1 & Henc & Hsteps).
    exists (envelope (js "JWE-A256GCM") []), w1.
    pose proof (steps_registers_JWE _ _ _ _ _ _ _ _ Hsteps Hreg) as Hreg1.
    split_and!; [done|done|by eapply steps_SECRET|].
    intros options _. by rewrite (decrypt_envelope_empty w1 this p).
  - destruct (encrypt_nonempty w this p x xs made k Hreg Hk)
      as (w1 & Henc & Hsteps).
    eexists _, w1.
    pose proof (steps_registers_JWE _ _ _ _ _ _ _ _ Hsteps Hreg) as Hreg1.
    pose proof (steps_SECRET _ _ _ _ _ Hsteps) as HS.
    split_and!; [done|done|done|].
    intros options Hnone.
    rewrite (decrypt_envelope w1 this p _ _ _ _ _ (k :: ks));
      [|done|by eapply active_key_valid|by rewrite HS].
    rewrite Hnone. rewrite bool_decide_eq_true_2 by left.
    cbn [andb context_accepted].
    by rewrite TextDecoder_decode_encode.
Qed.

(** C3, amended: for every plaintext that is a well-formed UTF-16 string
    (no unpaired surrogate) and does not begin with U+FEFF, the empty
    string and strings of non-ASCII characters included, encrypting it
    under the registered algorithm and decrypting the envelope without a
    context (no options, or options without a context) yields exactly the
    plaintext. *)
Theorem round_trip_without_context w this p keys plaintext :
  registers_JWE w this (js "JWE-A256GCM") p →
  all_keys (PrivateEnvironment_SECRET w) = Ok keys →
  is_string plaintext →
  isWellFormed plaintext = true →
  head plaintext ≠ Some 0xFEFF →
  ∃ encrypted w1,
    EncryptionService_encrypt this plaintext
      (EncryptOptions.make (Some (js "JWE-A256GCM")) None) w
    = (Ok encrypted, w1)
    ∧ (EncryptionService_decrypt this encrypted None w1).1 = Ok plaintext
    ∧ (EncryptionService_decrypt this encrypted
         (Some (DecryptOptions.make None)) w1).1 = Ok plaintext.
Proof.
  intros Hreg Hkeys Hs Hwf Hbom.
  destruct (decrypt_encrypt_no_context_supplied w this p keys plaintext None
              Hreg Hkeys Hs) as (encrypted & w1 & Henc & _ & _ & Hdec).
  exists encrypted, w1.
  rewrite !Hdec by done. rewrite strip_BOM_no_BOM by done.
  by rewrite utf16_units_to_scalar_values.
Qed.

(** C1: a ciphertext bound to a non-empty context fails to decrypt, with a
    decryption failure, under any other non-empty context; but with no
    context supplied at all the check is skipped and decryption returns the
    plaintext, where the claim (and the test 'should fail decryption
    without required context') says it fails. *)
Theorem context_checked_only_when_supplied w this p keys plaintext context :
  registers_JWE w this (js "JWE-A256GCM") p →
  all_keys (PrivateEnvironment_SECRET w) = Ok keys →
  is_string plaintext →
  isWellFormed plaintext = true →
  head plaintext ≠ Some 0xFEFF →
  plaintext ≠ [] →
  context ≠ [] →
  ∃ encrypted w1,
    EncryptionService_encrypt this plaintext
      (EncryptOptions.make (Some (js "JWE-A256GCM")) (Some context)) w
    = (Ok encrypted, w1)
    ∧ (∀ other, other ≠ [] → other ≠ context →
         (EncryptionService_decrypt this encrypted
            (Some (DecryptOptions.make (Some other))) w1).1
         = Err (DecryptionError (js "Decryption failed") None
                  (Some (Error (js "Decryption failed")))))
    ∧ (EncryptionService_decrypt this encrypted None w1).1 = Ok plaintext
    ∧ (EncryptionService_decrypt this encrypted
         (Some (DecryptOptions.make None)) w1).1 = Ok plaintext.
Proof.
  intros Hreg Hkeys Hs Hwf Hbom Hne Hctx.
  destruct (decrypt_encrypt_no_context_supplied w this p keys plaintext
              (Some context) Hreg Hkeys Hs)
    as (encrypted & w1 & Henc & Hreg1 & HS & Hdec).
  exists encrypted, w1.
  rewrite !Hdec by done. rewrite strip_BOM_no_BOM by done.
  rewrite utf16_units_to_scalar_values by done.
  split_and!; try done.
  intros other Hother Hdiff.
  destruct (active_key_all_keys _ _ Hkeys) as (k & ks & -> & Hk).
  destruct plaintext as [|x xs]; [done|].
  destruct (encrypt_nonempty w this p x xs (Some context) k Hreg Hk)
    as (w1' & Henc' & _).
  rewrite Henc in Henc'. injection Henc' as -> <-.
  rewrite (decrypt_envelope w1 this p _ _ _ _ _ (k :: ks));
    [|done|by eapply active_key_valid|by rewrite HS].
  cbn [DecryptOptions.context context_accepted].
  destruct other as [|o os]; [done|].
  rewrite (bool_decide_eq_false_2 (context = o :: os)) by done.
  by rewrite andb_false_r.
Qed.

(** C2: encryption has no size guard.  Every non-empty plaintext, one
    above 10 MiB like any other, is handed whole to the cryptographic
    primitive (one initialisation vector is drawn, one provider call is
    made) and an envelope is returned, where the claim (and the test
    'should reject data over 10MB') says that above 10 MiB encryption fails
    before any primitive is invoked. *)
Theorem encrypt_has_no_size_limit w this p k plaintext context :
  registers_JWE w this (js "JWE-A256GCM") p →
  active_key (PrivateEnvironment_SECRET w) = Ok k →
  plaintext ≠ [] →
  ∃ w1,
    EncryptionService_encrypt this plaintext
      (EncryptOptions.make (Some (js "JWE-A256GCM")) context) w
    = (Ok (envelope (js "JWE-A256GCM")
             (CompactEncrypt (TextEncoder_encode plaintext)
                (protected_header context) k
                (random_source w (random_used w)))), w1)
    ∧ random_used w1 = S (random_used w)
    ∧ provider_calls w1 = provider_calls w ++ [(p, method_encrypt)].
Proof.
  intros Hreg Hk Hlen.
  destruct plaintext as [|x xs]; [done|].
  destruct (encrypt_nonempty w this p x xs context k Hreg Hk)
    as (w1 & Henc & (_ & _ & Hused & _ & Hcalls & _)).
  exists w1. split_and!; [done| |done]. rewrite Hused. lia.
Qed.

(** C4, amended: key rotation for a non-empty plaintext.  With secret
    lists [A], then [B, A], then [B] for two valid secrets of different
    keys: under [B, A], [getAllCryptoKeys] returns [B]'s key, then [A]'s,
    and [JWEA256GCMProvider.decrypt] tries them in that order on every
    ciphertext: it returns what the attempt with [B]'s key returns, and
    turns to [A]'s key only when that attempt fails
    ([decrypt_with_keys jwe supplied [k]] is the loop over the one key
    [k]); a ciphertext made under [A] still decrypts under [B, A]; a
    ciphertext made under [B, A] is encrypted with [B]'s key and decrypts;
    and under [B] alone the ciphertext made under [A] fails with a
    decryption failure. *)
Theorem key_rotation wA wBA wB this p A B kA kB plaintext made options :
  registers_JWE wA this (js "JWE-A256GCM") p →
  registers_JWE wBA this (js "JWE-A256GCM") p →
  registers_JWE wB this (js "JWE-A256GCM") p →
  secret_list (PrivateEnvironment_SECRET wA) = Ok [A] →
  secret_list (PrivateEnvironment_SECRET wBA) = Ok [B; A] →
  secret_list (PrivateEnvironment_SECRET wB) = Ok [B] →
  key_of A = Ok kA → key_of B = Ok kB → kA ≠ kB →
  plaintext ≠ [] →
  context_accepted made
    (match options with
     | Some o => DecryptOptions.context o
     | None => None
     end) = true →
  (∀ st, SECRET st = PrivateEnvironment_SECRET wBA →
         cache_coherent (cryptoKeyCache st) →
         (getAllCryptoKeys st).1 = Ok [kB; kA]
         ∧ ∀ jwe supplied, ToBoolean jwe = true →
             (JWEA256GCMProvider_decrypt jwe supplied st).1
             = match decrypt_with_keys jwe supplied [kB] with
               | Ok text => Ok text
               | Err _ => decrypt_with_keys jwe supplied [kA]
               end)
  ∧ ∃ old wA',
      EncryptionService_encrypt this plaintext
        (EncryptOptions.make (Some (js "JWE-A256GCM")) made) wA
      = (Ok old, wA')
      ∧ (EncryptionService_decrypt this old options wBA).1
        = Ok (TextDecoder_decode (TextEncoder_encode plaintext))
      ∧ (∃ wBA',
           EncryptionService_encrypt this plaintext
             (EncryptOptions.make (Some (js "JWE-A256GCM")) made) wBA
           = (Ok (envelope (js "JWE-A256GCM")
                    (CompactEncrypt (TextEncoder_encode plaintext)
                       (protected_header made) kB
                       (random_source wBA (random_used wBA)))), wBA')
           ∧ (EncryptionService_decrypt this
                (envelope (js "JWE-A256GCM")
                   (CompactEncrypt (TextEncoder_encode plaintext)
                      (protected_header made) kB
                      (random_source wBA (random_used wBA)))) options wBA').1
             = Ok (TextDecoder_decode (TextEncoder_encode plaintext)))
      ∧ (EncryptionService_decrypt this old options wB).1
        = Err (DecryptionError (js "Decryption failed") None
                 (Some (Error (js "Decryption failed")))).
Proof.
  intros HregA HregBA HregB HlA HlBA HlB HkA HkB Hne Hpt Hacc.
  destruct plaintext as [|x xs]; [done|].
  assert (HallA : active_key (PrivateEnvironment_SECRET wA) = Ok kA)
    by (unfold active_key; by rewrite HlA).
  assert (HallBA : all_keys (PrivateEnvironment_SECRET wBA) = Ok [kB; kA])
    by (unfold all_keys; rewrite HlBA; cbn; by rewrite HkA, HkB).
  assert (HactBA : active_key (PrivateEnvironment_SECRET wBA) = Ok kB)
    by (unfold active_key; by rewrite HlBA).
  assert (HallB : all_keys (PrivateEnvironment_SECRET wB) = Ok [kB])
    by (unfold all_keys; rewrite HlB; cbn; by rewrite HkB).
  pose proof (key_of_valid _ _ HkA) as HvA.
  pose proof (key_of_valid _ _ HkB) as HvB.
  split.
  { intros st HS Hc. split.
    - destruct (getAllCryptoKeys_eq st Hc) as (c & -> & _).
      cbn [fst]. by rewrite HS.
    - intros jwe supplied Hjwe.
      destruct (JWEA256GCMProvider_decrypt_value jwe supplied st Hc)
        as (c & _ & ->).
      cbn [fst]. rewrite Hjwe, HS, HallBA.
      exact (decrypt_with_keys_app jwe supplied [kB] [kA]). }
  destruct (encrypt_nonempty wA this p x xs made kA HregA HallA)
    as (wA' & HencA & _).
  eexists _, wA'. split; [exact HencA|].
  split_and!.
  - rewrite (decrypt_envelope wBA this p _ _ _ _ _ [kB; kA]) by done.
    rewrite Hacc, bool_decide_eq_true_2; [done|]. by right; left.
  - destruct (encrypt_nonempty wBA this p x xs made kB HregBA HactBA)
      as (wBA' & HencBA & Hsteps).
    exists wBA'. split; [done|].
    rewrite (decrypt_envelope wBA' this p _ _ _ _ _ [kB; kA]);
      [|by eapply steps_registers_JWE|done
       |by rewrite (steps_SECRET _ _ _ _ _ Hsteps)].
    rewrite Hacc, bool_decide_eq_true_2; [done|]. by left.
  - rewrite (decrypt_envelope wB this p _ _ _ _ _ [kB]) by done.
    rewrite bool_decide_eq_false_2; [done|].
    by intros [->|[]%elem_of_nil]%elem_of_cons.
Qed.

(** C8: a non-empty plaintext encrypted with no context (none given, or the
    empty string) carries no key identifier, and decrypting its envelope
    with any non-empty context fails with a decryption failure, right after
    the encryption and under every list of secrets configured later. *)
Theorem unbound_ciphertext_rejects_context w this p k plaintext made supplied :
  registers_JWE w this (js "JWE-A256GCM") p →
  active_key (PrivateEnvironment_SECRET w) = Ok k →
  plaintext ≠ [] →
  made = None ∨ made = Some [] →
  supplied ≠ [] →
  ∃ encrypted w1,
    EncryptionService_encrypt this plaintext
      (EncryptOptions.make (Some (js "JWE-A256GCM")) made) w
    = (Ok encrypted, w1)
    ∧ (∃ cause,
         (EncryptionService_decrypt this encrypted
            (Some (DecryptOptions.make (Some supplied))) w1).1
         = Err (DecryptionError (js "Decryption failed") None (Some cause)))
    ∧ ∀ w2, registers_JWE w2 this (js "JWE-A256GCM") p →
        ∃ cause,
          (EncryptionService_decrypt this encrypted
             (Some (DecryptOptions.make (Some supplied))) w2).1
          = Err (DecryptionError (js "Decryption failed") None (Some cause)).
Proof.
  intros Hreg Hk Hpt Hmade Hsup.
  destruct plaintext as [|x xs]; [done|].
  destruct (encrypt_nonempty w this p x xs made k Hreg Hk)
    as (w1 & Henc & Hsteps).
  pose proof (active_key_valid _ _ Hk) as Hv.
  assert (Hrej : context_accepted made (Some supplied) = false).
  { destruct supplied as [|s ss]; [done|]. by destruct Hmade as [->| ->]. }
  assert (Hfail : ∀ w', registers_JWE w' this (js "JWE-A256GCM") p →
    ∃ cause,
      (EncryptionService_decrypt this
         (envelope (js "JWE-A256GCM")
            (CompactEncrypt (TextEncoder_encode (x :: xs))
               (protected_header made) k (random_source w (random_used w))))
         (Some (DecryptOptions.make (Some supplied))) w').1
      = Err (DecryptionError (js "Decryption failed") None (Some cause))).
  { intros w' Hreg'.
    destruct (all_keys (PrivateEnvironment_SECRET w')) as [keys|e] eqn:Hkeys.
    - exists (Error (js "Decryption failed")).
      rewrite (decrypt_envelope w' this p _ _ _ _ _ keys) by done.
      cbn [DecryptOptions.context]. by rewrite Hrej, andb_false_r.
    - exists e.
      by rewrite (decrypt_envelope_no_keys w' this p _ _ _ _ _ e). }
  eexists _, w1. split_and!; [exact Henc| |exact Hfail].
  apply Hfail. by eapply steps_registers_JWE.
Qed.

End Claims.

(** ** The registry *)

Lemma Map_has_keys {V} (m : list (jsstring * V)) a :
  Map_has m a = true ↔ a ∈ Map_keys m.
Proof.
  unfold Map_has, Map_keys. induction m as [|[k v] m IH]; cbn.
  - split; [done|]. by intros ?%elem_of_nil.
  - rewrite elem_of_cons. case_bool_decide; subst.
    + split; [by left|done].
    + rewrite IH. split; [by right|]. by intros [?|?].
Qed.

Lemma getSupportedAlgorithms_eq w this m :
  Maps w !! providers this = Some m →
  getSupportedAlgorithms this w = (Ok (Map_keys m), w).
Proof. intros Hm. unfold getSupportedAlgorithms, bind, read_Map. by rewrite Hm. Qed.

Lemma isAlgorithmSupported_eq w this m a :
  Maps w !! providers this = Some m →
  isAlgorithmSupported this a w = (Ok (Map_has m a), w).
Proof. intros Hm. unfold isAlgorithmSupported, bind, read_Map. by rewrite Hm. Qed.

(** C10: in every state where the service's registry exists,
    [isAlgorithmSupported(a)] returns [true] exactly when [a] is an element
    of the list [getSupportedAlgorithms()] returns, and [false] exactly
    when it is not. *)
Theorem isAlgorithmSupported_iff_listed w this m a :
  Maps w !! providers this = Some m →
  ∃ supported,
    (getSupportedAlgorithms this w).1 = Ok supported
    ∧ ((isAlgorithmSupported this a w).1 = Ok true ↔ a ∈ supported)
    ∧ ((isAlgorithmSupported this a w).1 = Ok false ↔ a ∉ supported).
Proof.
  intros Hm. exists (Map_keys m).
  rewrite (getSupportedAlgorithms_eq w this m Hm),
    (isAlgorithmSupported_eq w this m a Hm). cbn [fst].
  rewrite <- Map_has_keys. split; [done|split].
  - split; [by intros [= ->]|by intros ->].
  - by destruct (Map_has m a); split.
Qed.

(** C7: with the [algorithm] option missing or empty, [encrypt] throws
    [NoAlgorithmSpecifiedError]; with an algorithm that is not registered
    it throws [UnsupportedAlgorithmError] for that algorithm; each error
    carries the list [getSupportedAlgorithms()] returns, and the state,
    with its trace of provider calls, is left as it was: no provider is
    invoked. *)
Theorem encrypt_rejects_missing_or_unknown_algorithm
    w this m plaintext options :
  Maps w !! providers this = Some m →
  (getSupportedAlgorithms this w).1 = Ok (Map_keys m)
  ∧ (EncryptOptions.algorithm options = None
     ∨ EncryptOptions.algorithm options = Some [] →
     EncryptionService_encrypt this plaintext options w
     = (Err (NoAlgorithmSpecifiedError (Map_keys m)), w))
  ∧ (∀ X, EncryptOptions.algorithm options = Some X → X ≠ [] →
          X ∉ Map_keys m →
     EncryptionService_encrypt this plaintext options w
     = (Err (UnsupportedAlgorithmError (VString X) (Map_keys m)), w)).
Proof.
  intros Hm. rewrite (getSupportedAlgorithms_eq w this m Hm).
  split_and!; [done| |].
  - intros Halg. unfold EncryptionService_encrypt.
    replace (ToBoolean (of_optional (EncryptOptions.algorithm options)))
      with false by (by destruct Halg as [-> | ->]).
    cbn [negb]. unfold bind.
    by rewrite (getSupportedAlgorithms_eq w this m Hm).
  - intros X Halg HX Hnot. unfold EncryptionService_encrypt.
    rewrite Halg. cbn [of_optional].
    rewrite ToBoolean_VString, bool_decide_eq_false_2 by done. cbn [negb].
    unfold bind at 1. unfold read_Map at 1. rewrite Hm.
    cbn [Map_get_value].
    rewrite <- Map_has_keys in Hnot. unfold Map_has in Hnot.
    destruct (Map_get m X); [done|].
    unfold bind at 1. by rewrite (getSupportedAlgorithms_eq w this m Hm).
Qed.

(** ** Reading an envelope *)

Lemma getAlgorithmFromEncrypted_eq this encryptedText w :
  getAlgorithmFromEncrypted this encryptedText w
  = (Ok (match decode_metadata encryptedText with
         | Err _ => VUndefined
         | Ok metadata =>
             match Get metadata (js "algorithm") with
             | Ok requested => requested
             | Err _ => VUndefined
             end
         end), w).
Proof.
  unfold getAlgorithmFromEncrypted, decode_metadata, try_catch, bind, lift, ret.
  destruct (atob encryptedText) as [metadataJson|]; [|done].
  destruct (JSON_parse metadataJson) as [metadata|]; [|done].
  by destruct (Get metadata (js "algorithm")).
Qed.

Lemma atob_Err s e : atob s = Err e → e = InvalidCharacterError.
Proof.
  unfold atob. destruct (_ =? 1); [by intros [= <-]|].
  destruct (mapM base64_value _); [done|by intros [= <-]].
Qed.

Lemma JSON_parse_Err text e : JSON_parse text = Err e → e = SyntaxError.
Proof.
  unfold JSON_parse.
  destruct (parse_value _ _) as [[v rest]|]; [|by intros [= <-]].
  destruct (skip_ws rest); [done|by intros [= <-]].
Qed.

Lemma decode_metadata_btoa a d encrypted :
  btoa (JSON_stringify (mkMetadata a 1 d)) = Ok encrypted →
  decode_metadata encrypted = Ok (metadata_value a d).
Proof.
  intros Hb. unfold decode_metadata.
  by rewrite (atob_btoa _ _ Hb), JSON_parse_stringify.
Qed.

(** Whatever the provider, an envelope [encrypt] returns is the encoding
    of the provider's identifier and ciphertext. *)
Lemma EncryptionService_encrypt_Ok w this m X p obj plaintext context
    encrypted w1 :
  Maps w !! providers this = Some m →
  Map_get m X = Some p →
  Providers w !! p = Some obj →
  X ≠ [] →
  EncryptionService_encrypt this plaintext
    (EncryptOptions.make (Some X) context) w = (Ok encrypted, w1) →
  ∃ d, btoa (JSON_stringify
               (mkMetadata (ALGORITHM_IDENTIFIER (methods obj)) 1 d))
       = Ok encrypted.
Proof.
  intros Hm Hget Hobj HX.
  unfold EncryptionService_encrypt. cbn [EncryptOptions.algorithm of_optional].
  rewrite ToBoolean_VString, bool_decide_eq_false_2 by done. cbn [negb].
  unfold bind at 1. unfold read_Map at 1. rewrite Hm.
  cbn [Map_get_value]. rewrite Hget.
  unfold try_catch, bind, invoke, read_Provider, lift, throw. rewrite Hobj.
  destruct (encrypt (methods obj) plaintext _ _) as [[d|e] st']; [|done].
  cbn [Providers]. rewrite lookup_insert_eq. cbn [methods].
  destruct (btoa _) as [text|e] eqn:Hb; [|done].
  intros [= <- _]. by exists d.
Qed.

Section Envelopes.
Context {J : Jose} {I : IdealJose J}.

(** C5, amended: for a provider registered under its own identifier [X]
    (as [createEncryptionService] registers every provider), every envelope
    [encrypt] returns for [X] names [X]: [getAlgorithmFromEncrypted]
    returns it; for the [JWEA256GCMProvider] with a valid active key
    [encrypt] does return an envelope; and on every string
    [getAlgorithmFromEncrypted] returns without throwing and changes
    nothing: [undefined] when the base64 decoding or the JSON parsing
    fails, when the parsed value is not an object, or when the object has
    no member [algorithm]; otherwise the value of that member as it is, a
    string or not, whether or not the members [version] and [data] are
    there. *)
Theorem envelope_is_self_describing w this m X p obj plaintext context :
  Maps w !! providers this = Some m →
  Map_get m X = Some p →
  Providers w !! p = Some obj →
  ALGORITHM_IDENTIFIER (methods obj) = X →
  X ≠ [] →
  (∀ encrypted w1,
     EncryptionService_encrypt this plaintext
       (EncryptOptions.make (Some X) context) w = (Ok encrypted, w1) →
     ∀ w', getAlgorithmFromEncrypted this encrypted w'
           = (Ok (VString X), w'))
  ∧ (∀ k, methods obj = JWEA256GCMProvider →
          cache_coherent (cache obj) →
          active_key (PrivateEnvironment_SECRET w) = Ok k →
          ∃ encrypted w1,
            EncryptionService_encrypt this plaintext
              (EncryptOptions.make (Some X) context) w = (Ok encrypted, w1))
  ∧ (∀ text e w', decode_metadata text = Err e →
                  getAlgorithmFromEncrypted this text w' = (Ok VUndefined, w'))
  ∧ (∀ text w',
       getAlgorithmFromEncrypted this text w'
       = (Ok (match decode_metadata text with
              | Ok (VObject props) => own_property props (js "algorithm")
              | _ => VUndefined
              end), w')).
Proof.
  intros Hm Hget Hobj Hid HX. split_and!.
  - intros encrypted w1 Henc w'.
    destruct (EncryptionService_encrypt_Ok _ _ _ _ _ _ _ _ _ _
                Hm Hget Hobj HX Henc) as [d Hb].
    rewrite Hid in Hb.
    by rewrite getAlgorithmFromEncrypted_eq, (decode_metadata_btoa _ _ _ Hb).
  - intros k Hcls Hcoh Hk.
    destruct (EncryptionService_encrypt_JWE w this X p plaintext context)
      as (w1 & Henc & _); [by exists m, obj|done|].
    rewrite Hk in Henc. destruct plaintext; eexists _, w1; exact Henc.
  - intros text e w' Hdec. by rewrite getAlgorithmFromEncrypted_eq, Hdec.
  - intros text w'. rewrite getAlgorithmFromEncrypted_eq.
    by destruct (decode_metadata text) as [[]|].
Qed.

End Envelopes.

(** C6, amended: for every non-empty input whose base64 decoding or JSON
    parsing fails, or that decodes to [null], [decrypt] throws a
    [DecryptionError] that carries the cause; an input that decodes to JSON
    whose [algorithm] member is absent or names no registered provider
    makes it throw [UnsupportedAlgorithmError] instead, unless that member
    cannot be converted to a string (an object with an own member
    [toString], or an array that holds one): then the constructor of the
    error throws a [TypeError] inside the [try], and [decrypt] throws a
    [DecryptionError] that carries it; and an error thrown by the provider
    is re-thrown unchanged when it is a [DecryptionError] or an
    [UnsupportedAlgorithmError], and otherwise wrapped in a
    [DecryptionError] with the error as its cause. *)
Theorem decrypt_reports_typed_failures w this m encryptedText options :
  Maps w !! providers this = Some m →
  encryptedText ≠ [] →
  (∀ e, decode_metadata encryptedText = Err e →
        EncryptionService_decrypt this encryptedText options w
        = (Err (DecryptionError (js "Decryption failed") None (Some e)), w))
  ∧ (∀ metadata e,
       decode_metadata encryptedText = Ok metadata →
       Get metadata (js "algorithm") = Err e →
       EncryptionService_decrypt this encryptedText options w
       = (Err (DecryptionError (js "Decryption failed") None (Some e)), w))
  ∧ (∀ metadata requested,
       decode_metadata encryptedText = Ok metadata →
       Get metadata (js "algorithm") = Ok requested →
       Map_get_value m requested = None →
       EncryptionService_decrypt this encryptedText options w
       = (Err (if ToString_throws requested
               then DecryptionError (js "Decryption failed") None
                      (Some TypeError)
               else UnsupportedAlgorithmError requested (Map_keys m)), w))
  ∧ (∀ metadata requested p obj jwe e st',
       decode_metadata encryptedText = Ok metadata →
       Get metadata (js "algorithm") = Ok requested →
       Map_get_value m requested = Some p →
       Providers w !! p = Some obj →
       Get metadata (js "data") = Ok jwe →
       decrypt (methods obj) jwe
         (match options with
          | Some o => DecryptOptions.context o
          | None => None
          end)
         (mkProviderState (PrivateEnvironment_SECRET w) (cache obj)
                          (random_source w) (random_used w)) = (Err e, st') →
       (EncryptionService_decrypt this encryptedText options w).1
       = Err (if instanceof_UnsupportedAlgorithmError e
                 || instanceof_DecryptionError e
              then e
              else DecryptionError (js "Decryption failed") None (Some e))).
Proof.
  intros Hm Hne.
  unfold EncryptionService_decrypt.
  rewrite ToBoolean_VString, bool_decide_eq_false_2 by done. cbn [negb].
  unfold decode_metadata, try_catch, bind, lift, throw.
  split_and!.
  - intros e He.
    destruct (atob encryptedText) as [metadataJson|e0] eqn:Ha.
    + pose proof (JSON_parse_Err _ _ He) as ->. by rewrite He.
    + pose proof (atob_Err _ _ Ha) as ->. by injection He as <-.
  - intros metadata e Hdec Hget.
    destruct (atob encryptedText) as [metadataJson|]; [|done].
    rewrite Hdec, Hget.
    destruct metadata; try done; by injection Hget as <-.
  - intros metadata requested Hdec Hget Hnone.
    destruct (atob encryptedText) as [metadataJson|]; [|done].
    rewrite Hdec, Hget. unfold read_Map. rewrite Hm, Hnone.
    rewrite (getSupportedAlgorithms_eq w this m Hm).
    unfold new_UnsupportedAlgorithmError.
    by destruct (ToString_throws requested).
  - intros metadata requested p obj jwe e st' Hdec Hget Hsome Hobj Hdata Hthrow.
    destruct (atob encryptedText) as [metadataJson|]; [|done].
    rewrite Hdec, Hget. unfold read_Map. rewrite Hm, Hsome, Hdata.
    unfold invoke. rewrite Hobj, Hthrow.
    by destruct (_ || _).
Qed.

(** ** The service's own copy of the registry *)

Lemma set_Maps_set_Maps f g w : set_Maps f (set_Maps g w) = set_Maps (f ∘ g) w.
Proof. done. Qed.

Lemma set_Maps_same w : set_Maps (λ _, Maps w) w = w.
Proof. by destruct w. Qed.

Lemma framed_ret {A} own (a : A) : framed own (ret a).
Proof. by intros M' w _. Qed.

Lemma framed_throw {A} own e : framed own (@throw World A e).
Proof. by intros M' w _. Qed.

Lemma framed_lift {A} own (r : result A) : framed own (lift r).
Proof. by intros M' w _. Qed.

Lemma framed_bind {A B} own (m : M World A) (k : A → M World B) :
  framed own m → (∀ a, framed own (k a)) → framed own (bind m k).
Proof.
  intros Hm Hk M' w HM. unfold bind.
  destruct (Hm M' w HM) as [-> Hsame].
  destruct (m w) as [[a|e] w1]; cbn [fst snd] in *; [|done].
  destruct (Hk a M' w1) as [-> Hsame1]; [by rewrite Hsame|].
  split; [done|]. by rewrite Hsame1.
Qed.

Lemma framed_try_catch {A} own (m : M World A) (h : JSError → M World A) :
  framed own m → (∀ e, framed own (h e)) → framed own (try_catch m h).
Proof.
  intros Hm Hh M' w HM. unfold try_catch.
  destruct (Hm M' w HM) as [-> Hsame].
  destruct (m w) as [[a|e] w1]; cbn [fst snd] in *; [done|].
  destruct (Hh e M' w1) as [-> Hsame1]; [by rewrite Hsame|].
  split; [done|]. by rewrite Hsame1.
Qed.

Lemma framed_read_Map own : framed own (read_Map own).
Proof.
  intros M' w HM. unfold read_Map. cbn [Maps set_Maps]. rewrite HM.
  by destruct (Maps w !! own).
Qed.

Lemma framed_read_Provider own p : framed own (read_Provider p).
Proof.
  intros M' w HM. unfold read_Provider. cbn [Providers set_Maps].
  by destruct (Providers w !! p).
Qed.

Lemma framed_invoke {A} own p m
    (body : EncryptionProvider → M ProviderState A) :
  framed own (invoke p m body).
Proof.
  intros M' w HM. unfold invoke.
  cbn [Providers set_Maps PrivateEnvironment_SECRET random_source random_used].
  destruct (Providers w !! p) as [obj|]; [|done].
  by destruct (body _ _).
Qed.

Lemma framed_getSupportedAlgorithms this :
  framed (providers this) (getSupportedAlgorithms this).
Proof.
  apply framed_bind; [apply framed_read_Map|]. intros m. apply framed_ret.
Qed.

Lemma framed_isAlgorithmSupported this a :
  framed (providers this) (isAlgorithmSupported this a).
Proof.
  apply framed_bind; [apply framed_read_Map|]. intros m. apply framed_ret.
Qed.

Lemma framed_encrypt this plaintext options :
  framed (providers this) (EncryptionService_encrypt this plaintext options).
Proof.
  unfold EncryptionService_encrypt.
  destruct (negb _).
  { apply framed_bind; [apply framed_getSupportedAlgorithms|].
    intros. apply framed_throw. }
  apply framed_bind; [apply framed_read_Map|]. intros m.
  destruct (Map_get_value m _) as [provider|].
  - apply framed_try_catch; [|intros; apply framed_throw].
    apply framed_bind; [apply framed_invoke|]. intros encrypted.
    apply framed_bind; [apply framed_read_Provider|]. intros obj.
    apply framed_lift.
  - apply framed_bind; [apply framed_getSupportedAlgorithms|].
    intros available. apply framed_bind; [apply framed_lift|].
    intros. apply framed_throw.
Qed.

Lemma framed_decrypt this encryptedText options :
  framed (providers this) (EncryptionService_decrypt this encryptedText options).
Proof.
  unfold EncryptionService_decrypt.
  destruct (negb _); [apply framed_throw|].
  apply framed_try_catch.
  - apply framed_bind; [apply framed_lift|]. intros metadataJson.
    apply framed_bind; [apply framed_lift|]. intros metadata.
    apply framed_bind; [apply framed_lift|]. intros requested.
    apply framed_bind; [apply framed_read_Map|]. intros m.
    destruct (Map_get_value m requested) as [provider|].
    + apply framed_bind; [apply framed_lift|]. intros jwe.
      apply framed_invoke.
    + apply framed_bind; [apply framed_getSupportedAlgorithms|].
      intros available. apply framed_bind; [apply framed_lift|].
      intros. apply framed_throw.
  - intros e. destruct (_ || _); apply framed_throw.
Qed.

(** The result of a framed computation does not depend on the other
    [Map] objects. *)
Lemma framed_result {A} own (m : M World A) M' w :
  framed own m → M' !! own = Maps w !! own →
  (m (set_Maps (λ _, M') w)).1 = (m w).1.
Proof. intros Hm HM. by destruct (Hm M' w HM) as [-> _]. Qed.

(** Mutations of the [Map] at [l] replace the [Map] objects of the world
    by others that agree at every other location. *)
Lemma mutations_elsewhere l own μs w :
  l ≠ own →
  ∃ M', mutations l μs w = set_Maps (λ _, M') w ∧ M' !! own = Maps w !! own.
Proof.
  intros Hne. revert w. induction μs as [|μ μs IH]; intros w.
  - exists (Maps w). by rewrite set_Maps_same.
  - cbn [mutations].
    assert (∃ M1, (mutate l μ w).2 = set_Maps (λ _, M1) w
                  ∧ M1 !! own = Maps w !! own) as (M1 & -> & HM1).
    { destruct μ as [k v|k]; cbn [mutate];
        unfold Map_prototype_set, Map_prototype_delete, bind, read_Map, modify;
        (destruct (Maps w !! l) as [m|];
         [eexists; split; [reflexivity|by rewrite lookup_insert_ne]
         |exists (Maps w); by rewrite set_Maps_same]). }
    destruct (IH (set_Maps (λ _, M1) w)) as (M2 & -> & HM2).
    exists M2. split; [done|]. by rewrite HM2.
Qed.

Lemma Map_set_nonempty {V} (m : list (jsstring * V)) k v : Map_set m k v ≠ [].
Proof. destruct m as [|[k' v'] m]; cbn; [done|]. by case_bool_decide. Qed.

Lemma Map_from_nonempty {V} (entries : list (jsstring * V)) :
  entries ≠ [] → Map_from entries ≠ [].
Proof.
  unfold Map_from.
  assert (∀ es (acc : list (jsstring * V)), acc ≠ [] →
            fold_left (λ m kv, Map_set m kv.1 kv.2) es acc ≠ []) as Hfold.
  { induction es as [|e es IH]; intros acc Hacc; [done|].
    cbn. apply IH, Map_set_nonempty. }
  destruct entries as [|e es]; [done|]. intros _. cbn. by apply Hfold.
Qed.

(** What the constructor does for a non-empty [Map]: the service holds a
    new [Map] object with the entries of the caller's. *)
Lemma constructor_eq w config entries :
  Maps w !! config_providers config = Some entries →
  entries ≠ [] →
  constructor config w
  = (Ok (mkService (fresh (dom (Maps w)))),
     set_Maps <[fresh (dom (Maps w)) := Map_from entries]> w)
  ∧ fresh (dom (Maps w)) ≠ config_providers config.
Proof.
  intros Hm Hne. split.
  - unfold constructor, bind, read_Map, new_Map. rewrite Hm.
    cbn [Maps set_Maps]. rewrite lookup_insert_eq.
    pose proof (Map_from_nonempty entries Hne) as Hfrom.
    unfold Map_size. by destruct (Map_from entries).
  - intros Heq. apply (is_fresh (dom (Maps w))). rewrite Heq.
    apply elem_of_dom. by eexists.
Qed.

(** C9: the constructor copies the provider map.  For a non-empty map,
    construction succeeds and the service holds a new [Map] object with
    the entries of the caller's; and in the state construction leaves, as
    in every later state, after any sequence of [set] and [delete] on the
    caller's map the service's [getSupportedAlgorithms],
    [isAlgorithmSupported], [encrypt] and [decrypt] return or throw what
    they do without those mutations. *)
Theorem constructor_copies_provider_map w config entries :
  Maps w !! config_providers config = Some entries →
  entries ≠ [] →
  ∃ this w1,
    constructor config w = (Ok this, w1)
    ∧ providers this ≠ config_providers config
    ∧ Maps w1 !! providers this = Some (Map_from entries)
    ∧ ∀ w' μs,
        (getSupportedAlgorithms this
           (mutations (config_providers config) μs w')).1
        = (getSupportedAlgorithms this w').1
        ∧ (∀ a,
             (isAlgorithmSupported this a
                (mutations (config_providers config) μs w')).1
             = (isAlgorithmSupported this a w').1)
        ∧ (∀ plaintext options,
             (EncryptionService_encrypt this plaintext options
                (mutations (config_providers config) μs w')).1
             = (EncryptionService_encrypt this plaintext options w').1)
        ∧ (∀ encryptedText options,
             (EncryptionService_decrypt this encryptedText options
                (mutations (config_providers config) μs w')).1
             = (EncryptionService_decrypt this encryptedText options w').1).
Proof.
  intros Hm Hne.
  destruct (constructor_eq w config entries Hm Hne) as [Hctor Hfresh].
  eexists _, _. split; [exact Hctor|]. split; [done|].
  split; [cbn; by rewrite lookup_insert_eq|].
  intros w' μs.
  set (this := mkService (fresh (dom (Maps w)))).
  destruct (mutations_elsewhere (config_providers config) (providers this)
              μs w') as (M' & -> & HM'); [done|].
  split_and!; intros.
  - by apply (framed_result (providers this));
      [apply framed_getSupportedAlgorithms|].
  - by apply (framed_result (providers this));
      [apply framed_isAlgorithmSupported|].
  - by apply (framed_result (providers this)); [apply framed_encrypt|].
  - by apply (framed_result (providers this)); [apply framed_decrypt|].
Qed.

(** * The claims on concrete inputs

    The symbolic instance of [jose], a service over one
    [JWEA256GCMProvider] and the 32-byte secrets [secret_A] and
    [secret_B]. *)

Lemma Symbolic_key_A :
  @key_of Symbolic.jose Symbolic.secret_A = Ok (importKey (repeat 0 32)).
Proof. vm_compute. reflexivity. Qed.

Lemma Symbolic_key_B :
  @key_of Symbolic.jose Symbolic.secret_B = Ok (importKey (1 :: repeat 0 31)).
Proof. vm_compute. reflexivity. Qed.

Lemma Symbolic_secret_list_A :
  secret_list Symbolic.secret_A = Ok [Symbolic.secret_A].
Proof. vm_compute. reflexivity. Qed.

Lemma Symbolic_all_keys_A :
  @all_keys Symbolic.jose Symbolic.secret_A = Ok [importKey (repeat 0 32)].
Proof. vm_compute. reflexivity. Qed.

Lemma Symbolic_active_key_A :
  @active_key Symbolic.jose Symbolic.secret_A = Ok (importKey (repeat 0 32)).
Proof. vm_compute. reflexivity. Qed.

(** The scenario of the specification: ['Hello, World!'] comes back. *)
Lemma round_trip_without_context_witness :
  ∃ encrypted w1,
    EncryptionService_encrypt Symbolic.service (js "Hello, World!")
      (EncryptOptions.make (Some (js "JWE-A256GCM")) None)
      (Symbolic.world Symbolic.secret_A)
    = (Ok encrypted, w1)
    ∧ (EncryptionService_decrypt Symbolic.service encrypted None w1).1
      = Ok (js "Hello, World!")
    ∧ (EncryptionService_decrypt Symbolic.service encrypted
         (Some (DecryptOptions.make None)) w1).1 = Ok (js "Hello, World!").
Proof.
  apply (@round_trip_without_context Symbolic.jose Symbolic_ideal
           (Symbolic.world Symbolic.secret_A) Symbolic.service 0%nat
           [importKey (repeat 0 32)] (js "Hello, World!")).
  - apply Symbolic_registers.
  - apply Symbolic_all_keys_A.
  - apply is_string_forallb. vm_compute. reflexivity.
  - reflexivity.
  - discriminate.
Defined.

(** An unpaired surrogate does not come back: [TextEncoder] has replaced
    it by U+FFFD before anything is encrypted. *)
Lemma round_trip_unpaired_surrogate :
  Symbolic.round_trip Symbolic.secret_A [0xD800] None None = Ok [0xFFFD].
Proof. vm_compute. reflexivity. Qed.

(** The test 'should fail decryption without required context': the
    decryption returns the plaintext. *)
Lemma context_checked_only_when_supplied_witness :
  ∃ encrypted w1,
    EncryptionService_encrypt Symbolic.service (js "sensitive data")
      (EncryptOptions.make (Some (js "JWE-A256GCM"))
         (Some (js "required_context")))
      (Symbolic.world Symbolic.secret_A)
    = (Ok encrypted, w1)
    ∧ (∀ other, other ≠ [] → other ≠ js "required_context" →
         (EncryptionService_decrypt Symbolic.service encrypted
            (Some (DecryptOptions.make (Some other))) w1).1
         = Err (DecryptionError (js "Decryption failed") None
                  (Some (Error (js "Decryption failed")))))
    ∧ (EncryptionService_decrypt Symbolic.service encrypted None w1).1
      = Ok (js "sensitive data")
    ∧ (EncryptionService_decrypt Symbolic.service encrypted
         (Some (DecryptOptions.make None)) w1).1 = Ok (js "sensitive data").
Proof.
  apply (@context_checked_only_when_supplied Symbolic.jose Symbolic_ideal
           (Symbolic.world Symbolic.secret_A) Symbolic.service 0%nat
           [importKey (repeat 0 32)] (js "sensitive data")
           (js "required_context")).
  - apply Symbolic_registers.
  - apply Symbolic_all_keys_A.
  - apply is_string_forallb. vm_compute. reflexivity.
  - reflexivity.
  - discriminate.
  - discriminate.
  - discriminate.
Defined.

Lemma eleven_MiB_length : N.of_nat (length Symbolic.eleven_MiB) = 11 * 1024 * 1024.
Proof. unfold Symbolic.eleven_MiB. by rewrite repeat_length, N2Nat.id. Qed.

Lemma encrypt_has_no_size_limit_witness :
  10 * 1024 * 1024 < N.of_nat (length Symbolic.eleven_MiB)
  ∧ ∃ w1,
      EncryptionService_encrypt Symbolic.service Symbolic.eleven_MiB
        (EncryptOptions.make (Some (js "JWE-A256GCM")) None)
        (Symbolic.world Symbolic.secret_A)
      = (Ok (envelope (js "JWE-A256GCM")
               (@CompactEncrypt Symbolic.jose (TextEncoder_encode Symbolic.eleven_MiB)
                  (protected_header None) (importKey (repeat 0 32))
                  (random_source (Symbolic.world Symbolic.secret_A)
                     (random_used (Symbolic.world Symbolic.secret_A))))), w1)
      ∧ random_used w1 = S (random_used (Symbolic.world Symbolic.secret_A))
      ∧ provider_calls w1
        = provider_calls (Symbolic.world Symbolic.secret_A)
          ++ [(0%nat, method_encrypt)].
Proof.
  split; [by rewrite eleven_MiB_length|].
  apply (@encrypt_has_no_size_limit Symbolic.jose Symbolic_ideal
           (Symbolic.world Symbolic.secret_A) Symbolic.service 0%nat
           (importKey (repeat 0 32)) Symbolic.eleven_MiB None).
  - apply Symbolic_registers.
  - apply Symbolic_active_key_A.
  - intros Hnil. pose proof eleven_MiB_length as Hlen.
    rewrite Hnil in Hlen. discriminate Hlen.
Defined.

Lemma Symbolic_secret_list_B :
  secret_list Symbolic.secret_B = Ok [Symbolic.secret_B].
Proof. vm_compute. reflexivity. Qed.

(** The configuration value ["B,A"]. *)
Lemma Symbolic_secret_list_BA :
  secret_list (Symbolic.secret_B ++ js "," ++ Symbolic.secret_A)
  = Ok [Symbolic.secret_B; Symbolic.secret_A].
Proof. vm_compute. reflexivity. Qed.

(** The empty plaintext is not encrypted under any key: its envelope,
    made under [A], decrypts to the empty string under [B] alone. *)
Lemma key_rotation_empty_plaintext :
  Symbolic.rotate Symbolic.secret_A Symbolic.secret_B [] None None = Ok [].
Proof. vm_compute. reflexivity. Qed.

(** Rotation from [A] to [B, A] to [B], for the plaintext ['data'] with
    the context ['user_123']. *)
Lemma key_rotation_witness :
  (∀ st,
     SECRET st
     = PrivateEnvironment_SECRET
         (Symbolic.world (Symbolic.secret_B ++ js "," ++ Symbolic.secret_A)) →
     @cache_coherent Symbolic.jose (cryptoKeyCache st) →
     (@getAllCryptoKeys Symbolic.jose st).1
     = Ok [importKey (1 :: repeat 0 31); importKey (repeat 0 32)]
     ∧ ∀ jwe supplied, ToBoolean jwe = true →
         (@JWEA256GCMProvider_decrypt Symbolic.jose jwe supplied st).1
         = match @decrypt_with_keys Symbolic.jose jwe supplied
                   [importKey (1 :: repeat 0 31)] with
           | Ok text => Ok text
           | Err _ => @decrypt_with_keys Symbolic.jose jwe supplied
                        [importKey (repeat 0 32)]
           end)
  ∧ ∃ old wA',
      EncryptionService_encrypt Symbolic.service (js "data")
        (EncryptOptions.make (Some (js "JWE-A256GCM")) (Some (js "user_123")))
        (Symbolic.world Symbolic.secret_A)
      = (Ok old, wA')
      ∧ (EncryptionService_decrypt Symbolic.service old
           (Some (DecryptOptions.make (Some (js "user_123"))))
           (Symbolic.world (Symbolic.secret_B ++ js "," ++ Symbolic.secret_A))).1
        = Ok (TextDecoder_decode (TextEncoder_encode (js "data")))
      ∧ (∃ wBA',
           EncryptionService_encrypt Symbolic.service (js "data")
             (EncryptOptions.make (Some (js "JWE-A256GCM"))
                (Some (js "user_123")))
             (Symbolic.world (Symbolic.secret_B ++ js "," ++ Symbolic.secret_A))
           = (Ok (envelope (js "JWE-A256GCM")
                    (@CompactEncrypt Symbolic.jose
                       (TextEncoder_encode (js "data"))
                       (protected_header (Some (js "user_123")))
                       (importKey (1 :: repeat 0 31))
                       (random_source
                          (Symbolic.world
                             (Symbolic.secret_B ++ js "," ++ Symbolic.secret_A))
                          (random_used
                             (Symbolic.world
                                (Symbolic.secret_B ++ js ","
                                 ++ Symbolic.secret_A)))))), wBA')
           ∧ (EncryptionService_decrypt Symbolic.service
                (envelope (js "JWE-A256GCM")
                   (@CompactEncrypt Symbolic.jose
                      (TextEncoder_encode (js "data"))
                      (protected_header (Some (js "user_123")))
                      (importKey (1 :: repeat 0 31))
                      (random_source
                         (Symbolic.world
                            (Symbolic.secret_B ++ js "," ++ Symbolic.secret_A))
                         (random_used
                            (Symbolic.world
                               (Symbolic.secret_B ++ js ","
                                ++ Symbolic.secret_A))))))
                (Some (DecryptOptions.make (Some (js "user_123")))) wBA').1
             = Ok (TextDecoder_decode (TextEncoder_encode (js "data"))))
      ∧ (EncryptionService_decrypt Symbolic.service old
           (Some (DecryptOptions.make (Some (js "user_123"))))
           (Symbolic.world Symbolic.secret_B)).1
        = Err (DecryptionError (js "Decryption failed") None
                 (Some (Error (js "Decryption failed")))).
Proof.
  apply (@key_rotation Symbolic.jose Symbolic_ideal
           (Symbolic.world Symbolic.secret_A)
           (Symbolic.world (Symbolic.secret_B ++ js "," ++ Symbolic.secret_A))
           (Symbolic.world Symbolic.secret_B) Symbolic.service 0%nat
           Symbolic.secret_A Symbolic.secret_B
           (importKey (repeat 0 32)) (importKey (1 :: repeat 0 31))
           (js "data") (Some (js "user_123"))
           (Some (DecryptOptions.make (Some (js "user_123"))))).
  - apply Symbolic_registers.
  - apply Symbolic_registers.
  - apply Symbolic_registers.
  - apply Symbolic_secret_list_A.
  - apply Symbolic_secret_list_BA.
  - apply Symbolic_secret_list_B.
  - apply Symbolic_key_A.
  - apply Symbolic_key_B.
  - discriminate.
  - discriminate.
  - reflexivity.
Defined.

(** [getAlgorithmFromEncrypted(await service.encrypt('data', { algorithm:
    'JWE-A256GCM' }))], the test 'should embed algorithm metadata in
    encrypted data'. *)
Lemma envelope_is_self_describing_witness :
  (∀ encrypted w1,
     EncryptionService_encrypt Symbolic.service (js "data")
       (EncryptOptions.make (Some (js "JWE-A256GCM")) None)
       (Symbolic.world Symbolic.secret_A) = (Ok encrypted, w1) →
     ∀ w', getAlgorithmFromEncrypted Symbolic.service encrypted w'
           = (Ok (VString (js "JWE-A256GCM")), w'))
  ∧ (∀ k, methods (mkObject (@JWEA256GCMProvider Symbolic.jose) [])
          = @JWEA256GCMProvider Symbolic.jose →
          @cache_coherent Symbolic.jose
            (cache (mkObject (@JWEA256GCMProvider Symbolic.jose) [])) →
          @active_key Symbolic.jose
            (PrivateEnvironment_SECRET (Symbolic.world Symbolic.secret_A))
          = Ok k →
          ∃ encrypted w1,
            EncryptionService_encrypt Symbolic.service (js "data")
              (EncryptOptions.make (Some (js "JWE-A256GCM")) None)
              (Symbolic.world Symbolic.secret_A) = (Ok encrypted, w1))
  ∧ (∀ text e w', decode_metadata text = Err e →
                  getAlgorithmFromEncrypted Symbolic.service text w'
                  = (Ok VUndefined, w'))
  ∧ (∀ text w',
       getAlgorithmFromEncrypted Symbolic.service text w'
       = (Ok (match decode_metadata text with
              | Ok (VObject props) => own_property props (js "algorithm")
              | _ => VUndefined
              end), w')).
Proof.
  apply (@envelope_is_self_describing Symbolic.jose Symbolic_ideal
           (Symbolic.world Symbolic.secret_A) Symbolic.service
           [(js "JWE-A256GCM", 0%nat)] (js "JWE-A256GCM") 0%nat
           (mkObject (@JWEA256GCMProvider Symbolic.jose) []) (js "data") None).
  - reflexivity.
  - reflexivity.
  - reflexivity.
  - reflexivity.
  - discriminate.
Defined.

(** Inputs that decode to JSON but are no envelopes:
    [btoa('{"algorithm":5}')], for which [getAlgorithmFromEncrypted]
    returns the number 5, and [btoa('{"algorithm":"JWE-A256GCM"}')],
    without [version] and [data], for which it returns ['JWE-A256GCM']. *)
Lemma getAlgorithmFromEncrypted_missing_fields :
  (getAlgorithmFromEncrypted Symbolic.service (js "eyJhbGdvcml0aG0iOjV9")
     (Symbolic.world Symbolic.secret_A)).1
  = Ok (VNumber (mkDecimal false 5 0))
  ∧ (getAlgorithmFromEncrypted Symbolic.service
       (js "eyJhbGdvcml0aG0iOiJKV0UtQTI1NkdDTSJ9")
       (Symbolic.world Symbolic.secret_A)).1
    = Ok (VString (js "JWE-A256GCM")).
Proof. split; vm_compute; reflexivity. Qed.

(** An envelope without members: [btoa('{}')] is ['e30=']; [decrypt]
    throws [UnsupportedAlgorithmError] for the algorithm [undefined], not a
    [DecryptionError].  An envelope without [data],
    [btoa('{"algorithm":"JWE-A256GCM"}')], decrypts to the empty string. *)
Lemma decrypt_envelope_missing_fields :
  (EncryptionService_decrypt Symbolic.service (js "e30=") None
     (Symbolic.world Symbolic.secret_A)).1
  = Err (UnsupportedAlgorithmError VUndefined [js "JWE-A256GCM"])
  ∧ (EncryptionService_decrypt Symbolic.service
       (js "eyJhbGdvcml0aG0iOiJKV0UtQTI1NkdDTSJ9") None
       (Symbolic.world Symbolic.secret_A)).1
    = Ok [].
Proof. split; vm_compute; reflexivity. Qed.

(** Inputs for every case: ['not a valid envelope'], the input of the
    specification, which is no base64 text; [btoa('not json')];
    [btoa('null')]; [btoa('{}')] and an envelope that names the algorithm
    ['NOPE']; [btoa('{"algorithm":{"toString":0}}')]; and the envelope of
    the data ['x'], which no key opens. *)
Lemma decrypt_reports_typed_failures_witness :
  EncryptionService_decrypt Symbolic.service (js "not a valid envelope") None
    (Symbolic.world Symbolic.secret_A)
  = (Err (DecryptionError (js "Decryption failed") None
            (Some InvalidCharacterError)),
     Symbolic.world Symbolic.secret_A)
  ∧ EncryptionService_decrypt Symbolic.service (js "bm90IGpzb24=") None
      (Symbolic.world Symbolic.secret_A)
    = (Err (DecryptionError (js "Decryption failed") None (Some SyntaxError)),
       Symbolic.world Symbolic.secret_A)
  ∧ EncryptionService_decrypt Symbolic.service (js "bnVsbA==") None
      (Symbolic.world Symbolic.secret_A)
    = (Err (DecryptionError (js "Decryption failed") None (Some TypeError)),
       Symbolic.world Symbolic.secret_A)
  ∧ EncryptionService_decrypt Symbolic.service (js "e30=") None
      (Symbolic.world Symbolic.secret_A)
    = (Err (UnsupportedAlgorithmError VUndefined [js "JWE-A256GCM"]),
       Symbolic.world Symbolic.secret_A)
  ∧ EncryptionService_decrypt Symbolic.service
      (js "eyJhbGdvcml0aG0iOiJOT1BFIiwidmVyc2lvbiI6MSwiZGF0YSI6IngifQ==") None
      (Symbolic.world Symbolic.secret_A)
    = (Err (UnsupportedAlgorithmError (VString (js "NOPE"))
              [js "JWE-A256GCM"]),
       Symbolic.world Symbolic.secret_A)
  ∧ EncryptionService_decrypt Symbolic.service
      (js "eyJhbGdvcml0aG0iOnsidG9TdHJpbmciOjB9fQ==") None
      (Symbolic.world Symbolic.secret_A)
    = (Err (DecryptionError (js "Decryption failed") None (Some TypeError)),
       Symbolic.world Symbolic.secret_A)
  ∧ (EncryptionService_decrypt Symbolic.service
       (js "eyJhbGdvcml0aG0iOiJKV0UtQTI1NkdDTSIsInZlcnNpb24iOjEsImRhdGEiOiJ4In0=")
       None (Symbolic.world Symbolic.secret_A)).1
    = Err (DecryptionError (js "Decryption failed") None
             (Some (Error (js "Decryption failed")))).
Proof.
  split_and!.
  - apply (proj1 (decrypt_reports_typed_failures
                    (Symbolic.world Symbolic.secret_A) Symbolic.service
                    [(js "JWE-A256GCM", 0%nat)] (js "not a valid envelope")
                    None eq_refl ltac:(discriminate))).
    vm_compute. reflexivity.
  - apply (proj1 (decrypt_reports_typed_failures
                    (Symbolic.world Symbolic.secret_A) Symbolic.service
                    [(js "JWE-A256GCM", 0%nat)] (js "bm90IGpzb24=")
                    None eq_refl ltac:(discriminate))).
    vm_compute. reflexivity.
  - apply (proj1 (proj2 (decrypt_reports_typed_failures
                           (Symbolic.world Symbolic.secret_A) Symbolic.service
                           [(js "JWE-A256GCM", 0%nat)] (js "bnVsbA==")
                           None eq_refl ltac:(discriminate))) VNull).
    + vm_compute. reflexivity.
    + reflexivity.
  - apply (proj1 (proj2 (proj2 (decrypt_reports_typed_failures
                                  (Symbolic.world Symbolic.secret_A)
                                  Symbolic.service
                                  [(js "JWE-A256GCM", 0%nat)] (js "e30=")
                                  None eq_refl ltac:(discriminate))))
             (VObject []) VUndefined).
    + vm_compute. reflexivity.
    + reflexivity.
    + reflexivity.
  - apply (proj1 (proj2 (proj2 (decrypt_reports_typed_failures
                                  (Symbolic.world Symbolic.secret_A)
                                  Symbolic.service
                                  [(js "JWE-A256GCM", 0%nat)]
                                  (js "eyJhbGdvcml0aG0iOiJOT1BFIiwidmVyc2lvbiI6MSwiZGF0YSI6IngifQ==")
                                  None eq_refl ltac:(discriminate))))
             (metadata_value (js "NOPE") (js "x")) (VString (js "NOPE"))).
    + vm_compute. reflexivity.
    + reflexivity.
    + vm_compute. reflexivity.
  - apply (proj1 (proj2 (proj2 (decrypt_reports_typed_failures
                                  (Symbolic.world Symbolic.secret_A)
                                  Symbolic.service
                                  [(js "JWE-A256GCM", 0%nat)]
                                  (js "eyJhbGdvcml0aG0iOnsidG9TdHJpbmciOjB9fQ==")
                                  None eq_refl ltac:(discriminate))))
             (VObject [(js "algorithm",
                        VObject [(js "toString",
                                  VNumber (mkDecimal false 0 0))])])
             (VObject [(js "toString", VNumber (mkDecimal false 0 0))])).
    + vm_compute. reflexivity.
    + vm_compute. reflexivity.
    + reflexivity.
  - apply (proj2 (proj2 (proj2 (decrypt_reports_typed_failures
                                  (Symbolic.world Symbolic.secret_A)
                                  Symbolic.service
                                  [(js "JWE-A256GCM", 0%nat)]
                                  (js "eyJhbGdvcml0aG0iOiJKV0UtQTI1NkdDTSIsInZlcnNpb24iOjEsImRhdGEiOiJ4In0=")
                                  None eq_refl ltac:(discriminate))))
             (metadata_value (js "JWE-A256GCM") (js "x"))
             (VString (js "JWE-A256GCM")) 0%nat
             (mkObject (@JWEA256GCMProvider Symbolic.jose) [])
             (VString (js "x")) (Error (js "Decryption failed"))
             (mkProviderState Symbolic.secret_A
                [(Symbolic.secret_A, importKey (repeat 0 32))]
                (λ n, [N.of_nat n]) 0)).
    + vm_compute. reflexivity.
    + vm_compute. reflexivity.
    + vm_compute. reflexivity.
    + reflexivity.
    + vm_compute. reflexivity.
    + vm_compute. reflexivity.
Defined.

(** The tests 'should throw when no algorithm specified' and 'should throw
    when unsupported algorithm requested'. *)
Lemma encrypt_rejects_missing_or_unknown_algorithm_witness :
  (getSupportedAlgorithms Symbolic.service (Symbolic.world Symbolic.secret_A)).1
  = Ok (Map_keys [(js "JWE-A256GCM", 0%nat)])
  ∧ (EncryptOptions.algorithm
       (EncryptOptions.make (Some (js "INVALID-ALGO")) None) = None
     ∨ EncryptOptions.algorithm
         (EncryptOptions.make (Some (js "INVALID-ALGO")) None) = Some [] →
     EncryptionService_encrypt Symbolic.service (js "data")
       (EncryptOptions.make (Some (js "INVALID-ALGO")) None)
       (Symbolic.world Symbolic.secret_A)
     = (Err (NoAlgorithmSpecifiedError (Map_keys [(js "JWE-A256GCM", 0%nat)])),
        Symbolic.world Symbolic.secret_A))
  ∧ (∀ X, EncryptOptions.algorithm
            (EncryptOptions.make (Some (js "INVALID-ALGO")) None) = Some X →
          X ≠ [] → X ∉ Map_keys [(js "JWE-A256GCM", 0%nat)] →
     EncryptionService_encrypt Symbolic.service (js "data")
       (EncryptOptions.make (Some (js "INVALID-ALGO")) None)
       (Symbolic.world Symbolic.secret_A)
     = (Err (UnsupportedAlgorithmError (VString X)
               (Map_keys [(js "JWE-A256GCM", 0%nat)])),
        Symbolic.world Symbolic.secret_A)).
Proof.
  apply (encrypt_rejects_missing_or_unknown_algorithm
           (Symbolic.world Symbolic.secret_A) Symbolic.service
           [(js "JWE-A256GCM", 0%nat)] (js "data")
           (EncryptOptions.make (Some (js "INVALID-ALGO")) None)).
  reflexivity.
Defined.

(** ['data'] encrypted without a context, decrypted with ['user_123']. *)
Lemma unbound_ciphertext_rejects_context_witness :
  ∃ encrypted w1,
    EncryptionService_encrypt Symbolic.service (js "data")
      (EncryptOptions.make (Some (js "JWE-A256GCM")) None)
      (Symbolic.world Symbolic.secret_A)
    = (Ok encrypted, w1)
    ∧ (∃ cause,
         (EncryptionService_decrypt Symbolic.service encrypted
            (Some (DecryptOptions.make (Some (js "user_123")))) w1).1
         = Err (DecryptionError (js "Decryption failed") None (Some cause)))
    ∧ ∀ w2, @registers_JWE Symbolic.jose w2 Symbolic.service
              (js "JWE-A256GCM") 0 →
        ∃ cause,
          (EncryptionService_decrypt Symbolic.service encrypted
             (Some (DecryptOptions.make (Some (js "user_123")))) w2).1
          = Err (DecryptionError (js "Decryption failed") None (Some cause)).
Proof.
  apply (@unbound_ciphertext_rejects_context Symbolic.jose Symbolic_ideal
           (Symbolic.world Symbolic.secret_A) Symbolic.service 0%nat
           (importKey (repeat 0 32)) (js "data") None (js "user_123")).
  - apply Symbolic_registers.
  - apply Symbolic_active_key_A.
  - discriminate.
  - by left.
  - discriminate.
Defined.

(** A service constructed from the map at location 0. *)
Lemma constructor_copies_provider_map_witness :
  ∃ this w1,
    constructor (mkConfig 0) (Symbolic.world Symbolic.secret_A) = (Ok this, w1)
    ∧ providers this ≠ config_providers (mkConfig 0)
    ∧ Maps w1 !! providers this = Some (Map_from [(js "JWE-A256GCM", 0%nat)])
    ∧ ∀ w' μs,
        (getSupportedAlgorithms this
           (mutations (config_providers (mkConfig 0)) μs w')).1
        = (getSupportedAlgorithms this w').1
        ∧ (∀ a,
             (isAlgorithmSupported this a
                (mutations (config_providers (mkConfig 0)) μs w')).1
             = (isAlgorithmSupported this a w').1)
        ∧ (∀ plaintext options,
             (EncryptionService_encrypt this plaintext options
                (mutations (config_providers (mkConfig 0)) μs w')).1
             = (EncryptionService_encrypt this plaintext options w').1)
        ∧ (∀ encryptedText options,
             (EncryptionService_decrypt this encryptedText options
                (mutations (config_providers (mkConfig 0)) μs w')).1
             = (EncryptionService_decrypt this encryptedText options w').1).
Proof.
  apply (constructor_copies_provider_map (Symbolic.world Symbolic.secret_A)
           (mkConfig 0) [(js "JWE-A256GCM", 0%nat)]).
  - reflexivity.
  - discriminate.
Defined.

(** The test 'should support checking algorithm availability'. *)
Lemma isAlgorithmSupported_iff_listed_witness :
  ∃ supported,
    (getSupportedAlgorithms Symbolic.service
       (Symbolic.world Symbolic.secret_A)).1 = Ok supported
    ∧ ((isAlgorithmSupported Symbolic.service (js "INVALID")
          (Symbolic.world Symbolic.secret_A)).1 = Ok true
       ↔ js "INVALID" ∈ supported)
    ∧ ((isAlgorithmSupported Symbolic.service (js "INVALID")
          (Symbolic.world Symbolic.secret_A)).1 = Ok false
       ↔ js "INVALID" ∉ supported).
Proof.
  apply (isAlgorithmSupported_iff_listed (Symbolic.world Symbolic.secret_A)
           Symbolic.service [(js "JWE-A256GCM", 0%nat)] (js "INVALID")).
  reflexivity.
Defined.

(** * Further properties *)

Lemma context_accepted_same context : context_accepted context context = true.
Proof.
  destruct context as [[|c cs]|]; try done. cbn. by rewrite bool_decide_eq_true_2.
Qed.

Section Further.
Context {J : Jose} {I : IdealJose J}.

(** X1, context binding: for every well-formed plaintext that does not
    begin with U+FEFF and every context, decrypting the envelope with the
    context it was encrypted with yields the plaintext. *)
Theorem round_trip_with_context w this p keys plaintext context :
  registers_JWE w this (js "JWE-A256GCM") p →
  all_keys (PrivateEnvironment_SECRET w) = Ok keys →
  is_string plaintext →
  isWellFormed plaintext = true →
  head plaintext ≠ Some 0xFEFF →
  ∃ encrypted w1,
    EncryptionService_encrypt this plaintext
      (EncryptOptions.make (Some (js "JWE-A256GCM")) context) w
    = (Ok encrypted, w1)
    ∧ (EncryptionService_decrypt this encrypted
         (Some (DecryptOptions.make context)) w1).1 = Ok plaintext.
Proof.
  intros Hreg Hkeys Hs Hwf Hbom.
  destruct (active_key_all_keys _ _ Hkeys) as (k & ks & -> & Hk).
  destruct plaintext as [|x xs].
  - destruct (encrypt_empty w this p context Hreg) as (w1 & Henc & Hsteps).
    eexists _, w1. split; [exact Henc|].
    apply (decrypt_envelope_empty w1 this p).
    by eapply steps_registers_JWE.
  - destruct (encrypt_nonempty w this p x xs context k Hreg Hk)
      as (w1 & Henc & Hsteps).
    eexists _, w1. split; [exact Henc|].
    rewrite (decrypt_envelope w1 this p _ _ _ _ _ (k :: ks));
      [|by eapply steps_registers_JWE|by eapply active_key_valid
       |by rewrite (steps_SECRET _ _ _ _ _ Hsteps)].
    cbn [DecryptOptions.context].
    rewrite context_accepted_same, bool_decide_eq_true_2 by left.
    cbn [andb]. rewrite TextDecoder_decode_encode_wf by done.
    by rewrite strip_BOM_no_BOM.
Qed.

(** X2: a leading U+FEFF of the plaintext is lost.  [new TextDecoder()]
    leaves [ignoreBOM] false, so decrypting the envelope of
    ['\uFEFF' + rest] yields [rest]. *)
Theorem leading_BOM_is_dropped w this p keys rest :
  registers_JWE w this (js "JWE-A256GCM") p →
  all_keys (PrivateEnvironment_SECRET w) = Ok keys →
  is_string rest →
  isWellFormed rest = true →
  ∃ encrypted w1,
    EncryptionService_encrypt this (0xFEFF :: rest)
      (EncryptOptions.make (Some (js "JWE-A256GCM")) None) w
    = (Ok encrypted, w1)
    ∧ (EncryptionService_decrypt this encrypted None w1).1 = Ok rest.
Proof.
  intros Hreg Hkeys Hs Hwf.
  destruct (decrypt_encrypt_no_context_supplied w this p keys (0xFEFF :: rest)
              None Hreg Hkeys) as (encrypted & w1 & Henc & _ & _ & Hdec).
  { constructor; [lia|done]. }
  exists encrypted, w1. split; [done|].
  rewrite Hdec by done. cbn [strip_BOM N.eqb Pos.eqb].
  by rewrite utf16_units_to_scalar_values.
Qed.

End Further.

Section Memo.
Context {J : Jose}.

(** X3: [getCryptoKey] memoizes.  When the cache holds a handle for the
    secret, the call returns that handle as it is and changes nothing: the
    secret is not decoded and its length is not checked.  A call that
    returns a key leaves it in the cache under the secret and touches no
    other entry, so that a second call returns the key from the cache.
    And a call that throws has found nothing in the cache and stores
    nothing. *)
Theorem getCryptoKey_memoizes base64Secret st :
  (∀ cached, Map_get (cryptoKeyCache st) base64Secret = Some cached →
     getCryptoKey base64Secret st = (Ok cached, st))
  ∧ (∀ k st', getCryptoKey base64Secret st = (Ok k, st') →
       Map_get (cryptoKeyCache st') base64Secret = Some k
       ∧ (∀ s, s ≠ base64Secret →
            Map_get (cryptoKeyCache st') s = Map_get (cryptoKeyCache st) s)
       ∧ getCryptoKey base64Secret st' = (Ok k, st'))
  ∧ (∀ e st', getCryptoKey base64Secret st = (Err e, st') →
       Map_get (cryptoKeyCache st) base64Secret = None ∧ st' = st).
Proof.
  unfold getCryptoKey, bind, get_state, modify, ret, throw.
  split_and!.
  - by intros cached ->.
  - intros k st'.
    destruct (Map_get (cryptoKeyCache st) base64Secret) as [cached|] eqn:Hget.
    + intros [= <- <-]. by rewrite Hget.
    + destruct (negb _); [done|]. intros [= <- <-].
      cbn [cryptoKeyCache set_cryptoKeyCache].
      rewrite Map_get_set, bool_decide_eq_true_2 by done.
      split_and!; [done| |done].
      intros s Hs. by rewrite Map_get_set, bool_decide_eq_false_2.
  - intros e st'.
    destruct (Map_get (cryptoKeyCache st) base64Secret) as [cached|]; [done|].
    destruct (negb _); [|done]. by intros [= _ <-].
Qed.

End Memo.

(** ** The factory *)






(** ** The errors of the service *)

(** X5, the errors of the service are its own: whatever the provider, the
    library or the platform throws, [decrypt] throws nothing but a
    [DecryptionError] or an [UnsupportedAlgorithmError]; and [encrypt], in
    a state where its registry exists, throws nothing but a
    [NoAlgorithmSpecifiedError], an [UnsupportedAlgorithmError] for the
    algorithm asked, or an [EncryptionError('Encryption failed')] that
    names the algorithm and carries the cause. *)
Theorem service_throws_only_its_own_errors this w :
  (∀ encryptedText options e,
     (EncryptionService_decrypt this encryptedText options w).1 = Err e →
     instanceof_DecryptionError e = true
     ∨ instanceof_UnsupportedAlgorithmError e = true)
  ∧ (∀ m plaintext options e,
       Maps w !! providers this = Some m →
       (EncryptionService_encrypt this plaintext options w).1 = Err e →
       e = NoAlgorithmSpecifiedError (Map_keys m)
       ∨ (∃ X, EncryptOptions.algorithm options = Some X
               ∧ e = UnsupportedAlgorithmError (VString X) (Map_keys m))
       ∨ (∃ X cause, EncryptOptions.algorithm options = Some X
                     ∧ e = EncryptionError (js "Encryption failed") (Some X)
                             (Some cause))).
Proof.
  split.
  - intros encryptedText options e. unfold EncryptionService_decrypt.
    destruct (negb _); [intros [= <-]; by left|].
    unfold try_catch.
    destruct (bind _ _ w) as [[text|error] w']; [done|].
    destruct (instanceof_UnsupportedAlgorithmError error) eqn:Hu;
      [intros [= <-]; by right|].
    destruct (instanceof_DecryptionError error) eqn:Hd;
      intros [= <-]; by left.
  - intros m plaintext options e Hm. unfold EncryptionService_encrypt.
    destruct (EncryptOptions.algorithm options) as [X|] eqn:Halg;
      cbn [of_optional].
    + rewrite ToBoolean_VString. case_bool_decide as HX; cbn [negb].
      * unfold bind. rewrite (getSupportedAlgorithms_eq w this m Hm).
        intros [= <-]. by left.
      * unfold bind at 1. unfold read_Map at 1. rewrite Hm.
        cbn [Map_get_value]. destruct (Map_get m X) as [p|].
        -- unfold try_catch.
           destruct (bind _ _ w) as [[text|error] w']; [done|].
           intros [= <-]. right; right. by exists X, error.
        -- unfold bind. rewrite (getSupportedAlgorithms_eq w this m Hm).
           intros [= <-]. right; left. by exists X.
    + cbn [ToBoolean negb]. unfold bind.
      rewrite (getSupportedAlgorithms_eq w this m Hm).
      intros [= <-]. by left.
Qed.

(** ** The secret list *)

(** *** [split] and [join] *)

Lemma split_nonempty sep s : split sep s ≠ [].
Proof.
  destruct s as [|c rest]; cbn; [done|].
  destruct (c =? sep); [done|]. by destruct (split sep rest).
Qed.

Lemma split_app sep x s :
  sep ∉ x →
  split sep (x ++ s)
  = match split sep s with
    | piece :: pieces => (x ++ piece) :: pieces
    | [] => [x]
    end.
Proof.
  pose proof (split_nonempty sep s) as Hne.
  induction x as [|c x IH]; intros Hx; cbn [app].
  - by destruct (split sep s).
  - cbn [split]. destruct (N.eqb_spec c sep) as [->|_].
    + exfalso. apply Hx. by left.
    + rewrite IH by (intros ?; apply Hx; by right).
      by destruct (split sep s).
Qed.

Lemma split_join sep pieces :
  pieces ≠ [] → Forall (λ piece, sep ∉ piece) pieces →
  split sep (join [sep] pieces) = pieces.
Proof.
  intros Hne Hall. induction Hall as [|x rest Hx Hrest IH]; [done|].
  destruct rest as [|y rest].
  - cbn [join]. rewrite <- (app_nil_r x) at 1. rewrite split_app by done.
    cbn [split]. by rewrite app_nil_r.
  - change (join [sep] (x :: y :: rest))
      with (x ++ sep :: join [sep] (y :: rest)).
    rewrite split_app by done. cbn [split]. rewrite N.eqb_refl.
    by rewrite app_nil_r, IH.
Qed.

Lemma split_elem sep s piece c :
  piece ∈ split sep s → c ∈ piece → c ∈ s ∧ c ≠ sep.
Proof.
  revert piece. induction s as [|d rest IH]; intros piece; cbn [split].
  - intros ->%list_elem_of_singleton []%elem_of_nil.
  - destruct (N.eqb_spec d sep) as [->|Hd].
    + intros [->|Hin]%elem_of_cons Hc; [by apply elem_of_nil in Hc|].
      destruct (IH _ Hin Hc). split; [by right|done].
    + pose proof (split_nonempty sep rest) as Hne.
      destruct (split sep rest) as [|p ps]; [done|].
      intros [->|Hin]%elem_of_cons Hc.
      * apply elem_of_cons in Hc as [->|Hc]; [split; [by left|done]|].
        destruct (IH p) as [? ?]; [by left|done|]. split; [by right|done].
      * destruct (IH piece) as [? ?]; [by right|done|]. split; [by right|done].
Qed.

Lemma split_cover sep s c :
  c ∈ s → c ≠ sep → ∃ piece, piece ∈ split sep s ∧ c ∈ piece.
Proof.
  induction s as [|d rest IH]; [by intros ?%elem_of_nil|].
  intros Hc Hsep. cbn [split].
  pose proof (split_nonempty sep rest) as Hne.
  destruct (N.eqb_spec d sep) as [->|Hd].
  - apply elem_of_cons in Hc as [->|Hc]; [done|].
    destruct (IH Hc Hsep) as (piece & Hin & Hcp).
    exists piece. split; [by right|done].
  - destruct (split sep rest) as [|p ps] eqn:Hsplit; [done|].
    apply elem_of_cons in Hc as [->|Hc].
    + exists (d :: p). split; by left.
    + destruct (IH Hc Hsep) as (piece & Hin & Hcp).
      apply elem_of_cons in Hin as [->|Hin].
      * exists (d :: p). split; [by left|by right].
      * exists piece. split; [by right|done].
Qed.

(** *** [trim] *)

Lemma trimStart_nil s :
  trimStart s = [] ↔ Forall (λ c, is_whitespace c = true) s.
Proof.
  induction s as [|c rest IH]; cbn [trimStart]; [by split|].
  destruct (is_whitespace c) eqn:Hc.
  - rewrite IH. split; [by constructor|by intros [_ ?]%Forall_cons].
  - split; [done|]. intros [? _]%Forall_cons. congruence.
Qed.

Lemma trimStart_suffix s : ∃ blank, s = blank ++ trimStart s
  ∧ Forall (λ c, is_whitespace c = true) blank.
Proof.
  induction s as [|c rest (blank & Heq & Hblank)]; [by exists []|].
  cbn [trimStart]. destruct (is_whitespace c) eqn:Hc.
  - exists (c :: blank). split; [cbn; by f_equal|by constructor].
  - by exists [].
Qed.

Lemma trimStart_head s c :
  head (trimStart s) = Some c → is_whitespace c = false.
Proof.
  induction s as [|d rest IH]; [done|]. cbn [trimStart].
  destruct (is_whitespace d) eqn:Hd; [done|]. by intros [= <-].
Qed.

Lemma trimStart_id s :
  (∀ c, head s = Some c → is_whitespace c = false) → trimStart s = s.
Proof. destruct s as [|c rest]; [done|]. intros Hc. cbn. by rewrite Hc. Qed.

Lemma trimStart_last s :
  trimStart s ≠ [] → last (trimStart s) = last s.
Proof.
  destruct (trimStart_suffix s) as (blank & Heq & _). intros Hne.
  rewrite Heq at 2. rewrite last_app.
  destruct (last (trimStart s)) eqn:Hlast; [done|].
  by apply last_None in Hlast.
Qed.

Lemma trim_nil s : trim s = [] ↔ Forall (λ c, is_whitespace c = true) s.
Proof.
  unfold trim. destruct (trimStart_suffix s) as (blank & Heq & Hblank).
  split.
  - intros Hnil. apply (f_equal (@rev N)) in Hnil.
    rewrite rev_involutive in Hnil.
    cbn in Hnil. apply trimStart_nil in Hnil.
    rewrite Heq. apply Forall_app. split; [done|].
    rewrite <- (rev_involutive (trimStart s)). by apply Forall_rev.
  - intros Hs. apply trimStart_nil in Hs. by rewrite Hs.
Qed.

Lemma elem_of_rev {A} (l : list A) x : x ∈ rev l ↔ x ∈ l.
Proof. by rewrite !list_elem_of_In, <- in_rev. Qed.

Lemma trim_elem s c : c ∈ trim s → c ∈ s.
Proof.
  unfold trim. rewrite elem_of_rev. intros Hc.
  destruct (trimStart_suffix (rev (trimStart s))) as (b1 & Heq1 & _).
  destruct (trimStart_suffix s) as (b2 & Heq2 & _).
  rewrite Heq2. apply elem_of_app. right.
  apply elem_of_rev. rewrite Heq1. apply elem_of_app. by right.
Qed.

Lemma last_rev {A} (l : list A) : last (rev l) = head l.
Proof. destruct l as [|a l]; [done|]. cbn [rev head]. apply last_snoc. Qed.

Lemma head_rev {A} (l : list A) : head (rev l) = last l.
Proof. by rewrite <- (rev_involutive l) at 2; rewrite last_rev. Qed.

(** What [trim] returns neither starts nor ends with white space. *)
Lemma trim_ends s c :
  head (trim s) = Some c ∨ last (trim s) = Some c → is_whitespace c = false.
Proof.
  unfold trim. rewrite head_rev, last_rev. intros [Hc|Hc].
  - assert (trimStart (rev (trimStart s)) ≠ []) as Hne
      by (intros Hnil; by rewrite Hnil in Hc).
    rewrite trimStart_last, last_rev in Hc by done.
    by apply (trimStart_head s).
  - by apply (trimStart_head (rev (trimStart s))).
Qed.

Lemma trim_id s :
  (∀ c, head s = Some c ∨ last s = Some c → is_whitespace c = false) →
  trim s = s.
Proof.
  intros Hs. unfold trim.
  rewrite (trimStart_id s) by (intros c Hc; apply Hs; by left).
  rewrite trimStart_id, rev_involutive; [done|].
  intros c Hc. rewrite head_rev in Hc. apply Hs. by right.
Qed.

(** *** [getSecretList] *)

Lemma filter_ToBoolean_nil (l : list jsstring) :
  List.filter (λ s, ToBoolean (VString s)) l = [] ↔ Forall (λ s, s = []) l.
Proof.
  induction l as [|s l IH]; cbn [List.filter]; [by split|].
  destruct s as [|c s]; cbn [ToBoolean].
  - rewrite IH. split; [by constructor|by intros [_ ?]%Forall_cons].
  - split; [done|]. by intros [? _]%Forall_cons.
Qed.

Lemma filter_ToBoolean_elem (l : list jsstring) s :
  s ∈ List.filter (λ s, ToBoolean (VString s)) l ↔ s ∈ l ∧ s ≠ [].
Proof.
  rewrite !list_elem_of_In, filter_In.
  destruct s; cbn; (split; intros [? ?]; by split).
Qed.

(** [getSecretList] on a configuration value written as entries joined by
    commas: the entries trimmed, in their order, without the blank ones;
    'Configuration error' when every entry is blank. *)
Lemma secret_list_join pieces :
  pieces ≠ [] → Forall (λ piece, 44 ∉ piece) pieces →
  secret_list (join (js ",") pieces)
  = match List.filter (λ s, ToBoolean (VString s)) (map trim pieces) with
    | [] => Err (Error (js "Configuration error"))
    | secrets => Ok secrets
    end.
Proof.
  intros Hne Hpieces. unfold secret_list.
  change (js ",") with [44].
  destruct (join [44] pieces) as [|c rest] eqn:Hjoin.
  - destruct pieces as [|p [|q pieces]]; [done| |].
    + cbn in Hjoin. by subst.
    + change (join [44] (p :: q :: pieces))
        with (p ++ 44 :: join [44] (q :: pieces)) in Hjoin.
      by destruct p.
  - by rewrite <- Hjoin, split_join.
Qed.

Lemma secret_list_Ok secret secrets :
  secret_list secret = Ok secrets →
  secrets ≠ []
  ∧ Forall (λ s, s ≠ [] ∧ (44 ∉ s)
                 ∧ ∀ c, head s = Some c ∨ last s = Some c →
                        is_whitespace c = false) secrets.
Proof.
  unfold secret_list. destruct secret as [|c0 rest0]; [done|].
  set (secret := c0 :: rest0).
  destruct (List.filter _ _) as [|s0 l0] eqn:Hfilter; [done|].
  intros [= <-]. split; [done|]. rewrite <- Hfilter.
  apply Forall_forall. intros s [Hs Hne]%filter_ToBoolean_elem.
  change (map trim (split 44 secret)) with (trim <$> split 44 secret) in Hs.
  apply list_elem_of_fmap in Hs as (piece & -> & Hpiece).
  split_and!; [done| |apply trim_ends].
  intros Hc%trim_elem. by destruct (split_elem _ _ _ _ Hpiece Hc).
Qed.

Lemma secret_list_Err secret :
  (∃ e, secret_list secret = Err e)
  ↔ Forall (λ c, c = 44 ∨ is_whitespace c = true) secret.
Proof.
  unfold secret_list. destruct secret as [|c0 rest0]; [split; eauto|].
  set (secret := c0 :: rest0).
  destruct (List.filter _ _) as [|s0 l0] eqn:Hfilter.
  - split; [intros _|eauto].
    apply filter_ToBoolean_nil in Hfilter. rewrite Forall_forall in Hfilter.
    apply Forall_forall. intros c Hc.
    destruct (decide (c = 44)) as [|Hsep]; [by left|right].
    destruct (split_cover 44 secret c Hc Hsep) as (piece & Hpiece & Hcp).
    assert (trim piece = []) as Hblank%trim_nil.
    { apply Hfilter.
      change (map trim (split 44 secret)) with (trim <$> split 44 secret).
      apply list_elem_of_fmap. by exists piece. }
    rewrite Forall_forall in Hblank. by apply Hblank.
  - split; [by intros [e [=]]|]. intros Hall. exfalso.
    assert (s0 ∈ List.filter (λ s, ToBoolean (VString s))
                   (map trim (split 44 secret))) as Hs0
      by (rewrite Hfilter; by left).
    apply filter_ToBoolean_elem in Hs0 as [Hs0 Hne].
    change (map trim (split 44 secret)) with (trim <$> split 44 secret) in Hs0.
    apply list_elem_of_fmap in Hs0 as (piece & -> & Hpiece).
    apply Hne, trim_nil, Forall_forall. intros c Hc.
    destruct (split_elem _ _ _ _ Hpiece Hc) as [Hin Hsep].
    rewrite Forall_forall in Hall. by destruct (Hall c Hin).
Qed.

(** X6, the secret list: what [getSecretList] returns and when it throws.
    It never changes the state.  A list it returns is not empty, and each
    entry is non-empty, holds no comma, and neither starts nor ends with
    white space.  It throws exactly when SECRET holds nothing but commas
    and white space (the empty string included), and then an
    [Error('Configuration error')]. *)
Theorem getSecretList_entries st :
  (getSecretList st).2 = st
  ∧ (∀ secrets, (getSecretList st).1 = Ok secrets →
       secrets ≠ []
       ∧ Forall (λ s, s ≠ [] ∧ (44 ∉ s)
                      ∧ ∀ c, head s = Some c ∨ last s = Some c →
                             is_whitespace c = false) secrets)
  ∧ ((∃ e, (getSecretList st).1 = Err e)
     ↔ Forall (λ c, c = 44 ∨ is_whitespace c = true) (SECRET st))
  ∧ (∀ e, (getSecretList st).1 = Err e → e = Error (js "Configuration error")).
Proof.
  rewrite getSecretList_eq. cbn [fst snd]. split_and!.
  - done.
  - apply secret_list_Ok.
  - apply secret_list_Err.
  - unfold secret_list. destruct (SECRET st); [by intros e [= <-]|].
    destruct (List.filter _ _); [by intros e [= <-]|done].
Qed.

(** X7, entries joined by commas: for a SECRET written as entries
    separated by commas, [getSecretList] returns the entries trimmed of
    surrounding white space, in their order, the blank ones left out, and
    throws when none is left. *)
Theorem getSecretList_join st pieces :
  pieces ≠ [] →
  Forall (λ piece, 44 ∉ piece) pieces →
  SECRET st = join (js ",") pieces →
  getSecretList st
  = (match List.filter (λ s, ToBoolean (VString s)) (map trim pieces) with
     | [] => Err (Error (js "Configuration error"))
     | secrets => Ok secrets
     end, st).
Proof.
  intros Hne Hpieces HS.
  by rewrite getSecretList_eq, HS, secret_list_join.
Qed.

(** ** Who can decrypt, and what failures tell *)

Section Service.
Context {J : Jose} {I : IdealJose J}.

(** X8, who can decrypt: an envelope of a non-empty well-formed plaintext
    that does not begin with U+FEFF, made under the valid active key [k]
    with context [made], decrypts in any service that registers a
    [JWEA256GCMProvider] and whose configured secrets are all valid (the
    same instance or another one, in the same process or another) exactly
    when the key is among the keys of the secrets configured there and the
    supplied context is absent, empty or the one of the envelope; it then
    yields the plaintext, and otherwise [decrypt] throws a
    [DecryptionError]. *)
Theorem envelope_decrypts_iff_key_listed
    w this p k plaintext made w2 this2 p2 keys2 options :
  registers_JWE w this (js "JWE-A256GCM") p →
  active_key (PrivateEnvironment_SECRET w) = Ok k →
  plaintext ≠ [] →
  is_string plaintext →
  isWellFormed plaintext = true →
  head plaintext ≠ Some 0xFEFF →
  registers_JWE w2 this2 (js "JWE-A256GCM") p2 →
  all_keys (PrivateEnvironment_SECRET w2) = Ok keys2 →
  ∃ encrypted w1,
    EncryptionService_encrypt this plaintext
      (EncryptOptions.make (Some (js "JWE-A256GCM")) made) w
    = (Ok encrypted, w1)
    ∧ (EncryptionService_decrypt this2 encrypted options w2).1
      = if bool_decide (k ∈ keys2)
           && context_accepted made
                (match options with
                 | Some o => DecryptOptions.context o
                 | None => None
                 end)
        then Ok plaintext
        else Err (DecryptionError (js "Decryption failed") None
                    (Some (Error (js "Decryption failed")))).
Proof.
  intros Hreg Hk Hne Hs Hwf Hbom Hreg2 Hkeys2.
  destruct plaintext as [|x xs]; [done|].
  destruct (encrypt_nonempty w this p x xs made k Hreg Hk)
    as (w1 & Henc & _).
  eexists _, w1. split; [exact Henc|].
  rewrite (decrypt_envelope w2 this2 p2 _ _ _ _ _ keys2);
    [|done|by eapply active_key_valid|done].
  rewrite TextDecoder_decode_encode_wf by done.
  by rewrite strip_BOM_no_BOM.
Qed.

(** X9, one bad secret: when the first configured secret is valid and a
    later one does not decode to 32 bytes, [encrypt] of a non-empty
    plaintext still succeeds (it loads the active key only), but [decrypt]
    loads every key first and fails on the envelope just made, whatever the
    context, with a [DecryptionError] caused by [Error('Invalid secret key
    length')]. *)
Theorem invalid_secret_breaks_decrypt_only
    w this p active rest k e plaintext made :
  registers_JWE w this (js "JWE-A256GCM") p →
  secret_list (PrivateEnvironment_SECRET w) = Ok (active :: rest) →
  key_of active = Ok k →
  keys_of rest = Err e →
  plaintext ≠ [] →
  ∃ encrypted w1,
    EncryptionService_encrypt this plaintext
      (EncryptOptions.make (Some (js "JWE-A256GCM")) made) w
    = (Ok encrypted, w1)
    ∧ ∀ options,
        (EncryptionService_decrypt this encrypted options w1).1
        = Err (DecryptionError (js "Decryption failed") None
                 (Some (Error (js "Invalid secret key length")))).
Proof.
  intros Hreg Hlist Hk Hrest Hne.
  destruct plaintext as [|x xs]; [done|].
  assert (active_key (PrivateEnvironment_SECRET w) = Ok k) as Hactive
    by (unfold active_key; by rewrite Hlist).
  assert (all_keys (PrivateEnvironment_SECRET w) = Err e) as Hall
    by (unfold all_keys; rewrite Hlist; cbn [keys_of]; by rewrite Hk, Hrest).
  destruct (encrypt_nonempty w this p x xs made k Hreg Hactive)
    as (w1 & Henc & Hsteps).
  eexists _, w1. split; [exact Henc|]. intros options.
  rewrite (decrypt_envelope_no_keys w1 this p _ _ _ _ _ e);
    [|by eapply steps_registers_JWE
     |by rewrite (steps_SECRET _ _ _ _ _ Hsteps)].
  by rewrite (keys_of_Err _ _ Hrest).
Qed.

(** X10, the empty plaintext is not encrypted: [encrypt('')] needs no key
    (it succeeds whatever string SECRET holds, the empty string and
    strings that name no valid secret included), draws no initialisation
    vector and returns one fixed envelope for every context; and every
    service that registers a [JWEA256GCMProvider] decrypts that envelope
    to [''] under every context and every string SECRET holds. *)
Theorem empty_plaintext_is_not_encrypted w this p made :
  registers_JWE w this (js "JWE-A256GCM") p →
  ∃ w1,
    EncryptionService_encrypt this []
      (EncryptOptions.make (Some (js "JWE-A256GCM")) made) w
    = (Ok (js "eyJhbGdvcml0aG0iOiJKV0UtQTI1NkdDTSIsInZlcnNpb24iOjEsImRhdGEiOiIifQ=="),
       w1)
    ∧ random_used w1 = random_used w
    ∧ ∀ w2 this2 p2 options,
        registers_JWE w2 this2 (js "JWE-A256GCM") p2 →
        (EncryptionService_decrypt this2
           (js "eyJhbGdvcml0aG0iOiJKV0UtQTI1NkdDTSIsInZlcnNpb24iOjEsImRhdGEiOiIifQ==")
           options w2).1 = Ok [].
Proof.
  intros Hreg.
  assert (envelope (js "JWE-A256GCM") []
          = js "eyJhbGdvcml0aG0iOiJKV0UtQTI1NkdDTSIsInZlcnNpb24iOjEsImRhdGEiOiIifQ==")
    as <- by (vm_compute; reflexivity).
  destruct (encrypt_empty w this p made Hreg)
    as (w1 & Henc & (_ & _ & Hused & _)).
  exists w1. split_and!; [done|by rewrite Hused, Nat.add_0_r|].
  intros w2 this2 p2 options Hreg2.
  by apply (decrypt_envelope_empty w2 this2 p2).
Qed.

End Service.

Section Opaque.
Context {J : Jose}.

(** The only error [decrypt] throws for metadata that names a registered
    [JWEA256GCMProvider] whose keys load. *)
Lemma decrypt_failure_cause
    w this X p keys encryptedText options metadata e :
  registers_JWE w this X p →
  all_keys (PrivateEnvironment_SECRET w) = Ok keys →
  decode_metadata encryptedText = Ok metadata →
  Get metadata (js "algorithm") = Ok (VString X) →
  (EncryptionService_decrypt this encryptedText options w).1 = Err e →
  e = DecryptionError (js "Decryption failed") None
        (Some (Error (js "Decryption failed"))).
Proof.
  intros (m & obj & Hm & Hget & Hobj & Hcls & Hcoh) Hkeys Hdec Halg.
  destruct encryptedText as [|x xs]; [by vm_compute in Hdec|].
  unfold EncryptionService_decrypt. cbn [ToBoolean negb].
  unfold decode_metadata in Hdec.
  unfold try_catch, bind at 1, lift at 1.
  destruct (atob (x :: xs)) as [metadataJson|]; [|done].
  unfold bind at 1, lift at 1. rewrite Hdec.
  unfold bind at 1, lift at 1. rewrite Halg.
  unfold bind at 1. unfold read_Map at 1. rewrite Hm.
  cbn [Map_get_value]. rewrite Hget.
  destruct metadata as [| | | | |?|props]; try done.
  unfold bind at 1, lift at 1. cbn [Get].
  destruct (JWEA256GCMProvider_decrypt_value (own_property props (js "data"))
              (match options with
               | Some o => DecryptOptions.context o
               | None => None
               end)
              (mkProviderState (PrivateEnvironment_SECRET w) (cache obj)
                               (random_source w) (random_used w)) Hcoh)
    as (c & Hc & Hbody).
  cbn [SECRET] in Hbody. rewrite Hkeys in Hbody.
  erewrite invoke_JWE; [|done|by rewrite Hcls].
  destruct (ToBoolean (own_property props (js "data"))); [|done].
  destruct (decrypt_with_keys _ _ keys) as [|e'] eqn:Hloop; [done|].
  apply decrypt_with_keys_Err in Hloop as ->. cbn. by intros [= <-].
Qed.

(** X11, failures tell nothing: with every configured secret valid, on an
    input that decodes to metadata naming a registered
    [JWEA256GCMProvider], [decrypt] either returns or throws one and the
    same error, [DecryptionError('Decryption failed')] caused by
    [Error('Decryption failed')]: a wrong key, a wrong context and a
    corrupted ciphertext cannot be told apart (the loop drops
    [lastError]). *)
Theorem decrypt_failure_is_opaque
    w this X p keys encryptedText options metadata :
  registers_JWE w this X p →
  all_keys (PrivateEnvironment_SECRET w) = Ok keys →
  decode_metadata encryptedText = Ok metadata →
  Get metadata (js "algorithm") = Ok (VString X) →
  (∃ text, (EncryptionService_decrypt this encryptedText options w).1
           = Ok text)
  ∨ (EncryptionService_decrypt this encryptedText options w).1
    = Err (DecryptionError (js "Decryption failed") None
             (Some (Error (js "Decryption failed")))).
Proof.
  intros Hreg Hkeys Hdec Halg.
  destruct (EncryptionService_decrypt this encryptedText options w).1
    as [text|e] eqn:Hresult; [left; by exists text|right].
  by rewrite (decrypt_failure_cause _ _ _ _ _ _ _ _ _ Hreg Hkeys Hdec Halg
                Hresult).
Qed.

End Opaque.

(** ** The envelope as text *)

(** An envelope [encrypt] returns, whatever the provider, is the base64
    text of the JSON of some metadata. *)
Lemma EncryptionService_encrypt_btoa w this plaintext options encrypted w1 :
  EncryptionService_encrypt this plaintext options w = (Ok encrypted, w1) →
  ∃ a d, btoa (JSON_stringify (mkMetadata a 1 d)) = Ok encrypted.
Proof.
  unfold EncryptionService_encrypt.
  destruct (negb _); [unfold bind, throw; by repeat case_match|].
  unfold bind at 1. unfold read_Map at 1.
  destruct (Maps w !! providers this) as [m|]; [|done].
  destruct (Map_get_value m _) as [p|]; [|unfold bind, throw; by repeat case_match].
  unfold try_catch, bind, invoke, read_Provider, lift, throw.
  destruct (Providers w !! p) as [obj|]; [|done].
  destruct (encrypt (methods obj) plaintext _ _) as [[d|e] st']; [|done].
  cbn [Providers]. rewrite lookup_insert_eq. cbn [methods].
  destruct (btoa _) as [text|e] eqn:Hb; [|done].
  intros [= <- _]. eauto.
Qed.

Lemma btoa_Ok s t :
  btoa s = Ok t → t = base64_encode s ∧ Forall (λ c, c <= 255) s.
Proof.
  unfold btoa. destruct (forallb _ s) eqn:Hs; [|done].
  intros [= <-]. split; [done|]. by apply Forall_latin1.
Qed.

(** X12, the envelope is base64 text: every string [encrypt] returns, for
    any registered provider, is non-empty, has a length that is a multiple
    of four, consists of characters of the base64 alphabet and [=] only,
    and decodes ([atob], then [JSON.parse]) to an object with exactly the
    members [algorithm], [version] (the number 1) and [data]. *)
Theorem envelope_is_base64_text w this plaintext options encrypted w1 :
  EncryptionService_encrypt this plaintext options w = (Ok encrypted, w1) →
  encrypted ≠ []
  ∧ N.of_nat (length encrypted) mod 4 = 0
  ∧ Forall (λ c, is_Some (base64_value c) ∨ c = 61) encrypted
  ∧ ∃ a d, decode_metadata encrypted = Ok (metadata_value a d).
Proof.
  intros (a & d & Hb)%EncryptionService_encrypt_btoa.
  pose proof (decode_metadata_btoa _ _ _ Hb) as Hdec.
  apply btoa_Ok in Hb as [-> Hlatin].
  destruct (base64_encode_shape _ Hlatin) as (vs & pad & Henc & Hvs & _ & Hpad).
  split_and!; [| | |by eauto].
  - apply base64_encode_nonempty. by rewrite JSON_stringify_shape.
  - rewrite Henc, length_app, length_map, Nat2N.inj_add.
    destruct Hpad as [[-> ?]|[[-> ?]|[-> ?]]]; cbn [length]; lia.
  - rewrite Henc. apply Forall_app. split.
    + apply Forall_forall. intros c Hc.
      change (map base64_char vs) with (base64_char <$> vs) in Hc.
      apply list_elem_of_fmap in Hc as (v & -> & Hv).
      rewrite Forall_forall in Hvs.
      destruct (base64_char_cases v (Hvs v Hv)) as (-> & _). left. eauto.
    + destruct Hpad as [[-> ?]|[[-> ?]|[-> ?]]]; repeat constructor; by right.
Qed.

(** ** Re-encryption *)

Lemma reEncrypt_eq this encryptedText oldOptions newOptions w :
  reEncrypt this encryptedText oldOptions newOptions w
  = match EncryptionService_decrypt this encryptedText (Some oldOptions) w with
    | (Ok decrypted, w1) =>
        EncryptionService_encrypt this decrypted newOptions w1
    | (Err e, w1) => (Err e, w1)
    end.
Proof. done. Qed.

Section ReEncrypt.
Context {J : Jose} {I : IdealJose J}.

(** [decrypt] of an envelope made under a listed key, with an accepted
    context: the decoded plaintext, and a state that differs by a provider
    call only. *)
Lemma decrypt_envelope_steps w this p pt made k iv options keys :
  registers_JWE w this (js "JWE-A256GCM") p →
  valid_key k →
  all_keys (PrivateEnvironment_SECRET w) = Ok keys →
  ∃ w',
    EncryptionService_decrypt this
      (envelope (js "JWE-A256GCM")
         (CompactEncrypt pt (protected_header made) k iv)) options w
    = (if bool_decide (k ∈ keys)
          && context_accepted made
               (match options with
                | Some o => DecryptOptions.context o
                | None => None
                end)
       then Ok (TextDecoder_decode pt)
       else Err (DecryptionError (js "Decryption failed") None
                   (Some (Error (js "Decryption failed")))), w')
    ∧ steps w w' p method_decrypt 0.
Proof.
  intros Hreg Hk Hkeys.
  pose proof (decrypt_envelope w this p pt made k iv options keys Hreg Hk Hkeys)
    as Hresult.
  destruct (EncryptionService_decrypt_JWE w this p
              (CompactEncrypt pt (protected_header made) k iv) options Hreg)
    as (w' & Hdec & Hsteps); [apply CompactEncrypt_latin1|].
  exists w'. split; [|done].
  rewrite Hdec in Hresult |- *. cbn [fst] in Hresult. by rewrite Hresult.
Qed.

(** X13, re-encryption rebinds the context: with every configured secret
    valid, an envelope of a non-empty well-formed plaintext that does not
    begin with U+FEFF, re-encrypted with a context it accepts as the old
    one and [new] as the new one, gives an envelope that decrypts to the
    plaintext under [new] and fails under every other non-empty context. *)
Theorem reEncrypt_rebinds_context
    w this p keys plaintext made supplied new :
  registers_JWE w this (js "JWE-A256GCM") p →
  all_keys (PrivateEnvironment_SECRET w) = Ok keys →
  plaintext ≠ [] →
  is_string plaintext →
  isWellFormed plaintext = true →
  head plaintext ≠ Some 0xFEFF →
  context_accepted made supplied = true →
  ∃ encrypted w1 reEncrypted w2,
    EncryptionService_encrypt this plaintext
      (EncryptOptions.make (Some (js "JWE-A256GCM")) made) w
    = (Ok encrypted, w1)
    ∧ reEncrypt this encrypted (DecryptOptions.make supplied)
        (EncryptOptions.make (Some (js "JWE-A256GCM")) new) w1
      = (Ok reEncrypted, w2)
    ∧ (EncryptionService_decrypt this reEncrypted
         (Some (DecryptOptions.make new)) w2).1 = Ok plaintext
    ∧ ∀ other, other ≠ [] → new ≠ Some other →
        (EncryptionService_decrypt this reEncrypted
           (Some (DecryptOptions.make (Some other))) w2).1
        = Err (DecryptionError (js "Decryption failed") None
                 (Some (Error (js "Decryption failed")))).
Proof.
  intros Hreg Hkeys Hne Hs Hwf Hbom Hacc.
  destruct (active_key_all_keys _ _ Hkeys) as (k & ks & -> & Hk).
  pose proof (active_key_valid _ _ Hk) as Hvalid.
  destruct plaintext as [|x xs]; [done|].
  destruct (encrypt_nonempty w this p x xs made k Hreg Hk)
    as (w1 & Henc & Hsteps1).
  pose proof (steps_registers_JWE _ _ _ _ _ _ _ _ Hsteps1 Hreg) as Hreg1.
  pose proof (steps_SECRET _ _ _ _ _ Hsteps1) as HS1.
  destruct (decrypt_envelope_steps w1 this p (TextEncoder_encode (x :: xs)) made
              k (random_source w (random_used w))
              (Some (DecryptOptions.make supplied)) (k :: ks) Hreg1 Hvalid)
    as (w1' & Hdec & Hsteps1'); [by rewrite HS1|].
  cbn [DecryptOptions.context] in Hdec.
  rewrite Hacc, bool_decide_eq_true_2 in Hdec by left. cbn [andb] in Hdec.
  rewrite TextDecoder_decode_encode_wf, strip_BOM_no_BOM in Hdec by done.
  pose proof (steps_registers_JWE _ _ _ _ _ _ _ _ Hsteps1' Hreg1) as Hreg1'.
  pose proof (steps_SECRET _ _ _ _ _ Hsteps1') as HS1'.
  destruct (encrypt_nonempty w1' this p x xs new k Hreg1')
    as (w2 & Henc2 & Hsteps2); [by rewrite HS1', HS1|].
  pose proof (steps_registers_JWE _ _ _ _ _ _ _ _ Hsteps2 Hreg1') as Hreg2.
  pose proof (steps_SECRET _ _ _ _ _ Hsteps2) as HS2.
  assert (all_keys (PrivateEnvironment_SECRET w2) = Ok (k :: ks)) as Hkeys2
    by (by rewrite HS2, HS1', HS1).
  eexists _, w1, _, w2. split; [exact Henc|].
  split; [by rewrite reEncrypt_eq, Hdec|].
  split.
  - rewrite (decrypt_envelope w2 this p _ _ _ _ _ (k :: ks)) by done.
    cbn [DecryptOptions.context].
    rewrite context_accepted_same, bool_decide_eq_true_2 by left.
    cbn [andb]. by rewrite TextDecoder_decode_encode_wf, strip_BOM_no_BOM.
  - intros other Hother Hnew.
    rewrite (decrypt_envelope w2 this p _ _ _ _ _ (k :: ks)) by done.
    cbn [DecryptOptions.context].
    replace (context_accepted new (Some other)) with false;
      [by rewrite andb_false_r|].
    destruct other as [|o os]; [done|]. destruct new as [n|]; [|done].
    cbn. rewrite bool_decide_eq_false_2; [done|]. by intros ->.
Qed.

(** X14, re-encryption moves a ciphertext to the active key: with the
    secrets [A], then [B, A], then [B] configured, for two valid secrets
    of different keys, an envelope of a non-empty well-formed plaintext
    that does not begin with U+FEFF, made under [A] and re-encrypted under
    [B, A] with a context it accepts as the old one, decrypts to the
    plaintext under [B] alone, where the envelope it came from no longer
    decrypts. *)
Theorem reEncrypt_moves_to_active_key
    wA wBA wB this p A B kA kB plaintext made supplied new :
  registers_JWE wA this (js "JWE-A256GCM") p →
  registers_JWE wBA this (js "JWE-A256GCM") p →
  registers_JWE wB this (js "JWE-A256GCM") p →
  secret_list (PrivateEnvironment_SECRET wA) = Ok [A] →
  secret_list (PrivateEnvironment_SECRET wBA) = Ok [B; A] →
  secret_list (PrivateEnvironment_SECRET wB) = Ok [B] →
  key_of A = Ok kA → key_of B = Ok kB → kA ≠ kB →
  plaintext ≠ [] →
  is_string plaintext →
  isWellFormed plaintext = true →
  head plaintext ≠ Some 0xFEFF →
  context_accepted made supplied = true →
  ∃ old wA' migrated wBA',
    EncryptionService_encrypt this plaintext
      (EncryptOptions.make (Some (js "JWE-A256GCM")) made) wA
    = (Ok old, wA')
    ∧ reEncrypt this old (DecryptOptions.make supplied)
        (EncryptOptions.make (Some (js "JWE-A256GCM")) new) wBA
      = (Ok migrated, wBA')
    ∧ (EncryptionService_decrypt this migrated
         (Some (DecryptOptions.make new)) wB).1 = Ok plaintext
    ∧ (EncryptionService_decrypt this old
         (Some (DecryptOptions.make supplied)) wB).1
      = Err (DecryptionError (js "Decryption failed") None
               (Some (Error (js "Decryption failed")))).
Proof.
  intros HregA HregBA HregB HlA HlBA HlB HkA HkB Hdiff Hne Hs Hwf Hbom Hacc.
  destruct plaintext as [|x xs]; [done|].
  assert (active_key (PrivateEnvironment_SECRET wA) = Ok kA) as HactA
    by (unfold active_key; by rewrite HlA).
  assert (all_keys (PrivateEnvironment_SECRET wBA) = Ok [kB; kA]) as HallBA
    by (unfold all_keys; rewrite HlBA; cbn; by rewrite HkA, HkB).
  assert (active_key (PrivateEnvironment_SECRET wBA) = Ok kB) as HactBA
    by (unfold active_key; by rewrite HlBA).
  assert (all_keys (PrivateEnvironment_SECRET wB) = Ok [kB]) as HallB
    by (unfold all_keys; rewrite HlB; cbn; by rewrite HkB).
  pose proof (key_of_valid _ _ HkA) as HvA.
  pose proof (key_of_valid _ _ HkB) as HvB.
  destruct (encrypt_nonempty wA this p x xs made kA HregA HactA)
    as (wA' & HencA & _).
  destruct (decrypt_envelope_steps wBA this p (TextEncoder_encode (x :: xs))
              made kA (random_source wA (random_used wA))
              (Some (DecryptOptions.make supplied)) [kB; kA] HregBA HvA HallBA)
    as (w' & Hdec & Hsteps).
  cbn [DecryptOptions.context] in Hdec.
  rewrite Hacc, bool_decide_eq_true_2 in Hdec by (by right; left).
  cbn [andb] in Hdec.
  rewrite TextDecoder_decode_encode_wf, strip_BOM_no_BOM in Hdec by done.
  pose proof (steps_registers_JWE _ _ _ _ _ _ _ _ Hsteps HregBA) as Hreg'.
  pose proof (steps_SECRET _ _ _ _ _ Hsteps) as HS'.
  destruct (encrypt_nonempty w' this p x xs new kB Hreg')
    as (wBA' & Henc2 & _); [by rewrite HS'|].
  eexists _, wA', _, wBA'. split; [exact HencA|].
  split; [by rewrite reEncrypt_eq, Hdec|].
  split.
  - rewrite (decrypt_envelope wB this p _ _ _ _ _ [kB]) by done.
    cbn [DecryptOptions.context].
    rewrite context_accepted_same, bool_decide_eq_true_2 by left.
    cbn [andb]. by rewrite TextDecoder_decode_encode_wf, strip_BOM_no_BOM.
  - rewrite (decrypt_envelope wB this p _ _ _ _ _ [kB]) by done.
    rewrite bool_decide_eq_false_2; [done|].
    by intros [->|[]%elem_of_nil]%elem_of_cons.
Qed.

(** X15, re-encryption stops at a failed decryption: with every
    configured secret valid, for the envelope of a non-empty plaintext made
    with a non-empty context, when the old context given is non-empty and
    not the one of the envelope, [reEncrypt] throws the [DecryptionError]
    of [decrypt], whatever the new options are; the provider's [encrypt] is
    not called and no initialisation vector is drawn. *)
Theorem reEncrypt_stops_at_failed_decryption
    w this p keys plaintext context other newOptions :
  registers_JWE w this (js "JWE-A256GCM") p →
  all_keys (PrivateEnvironment_SECRET w) = Ok keys →
  plaintext ≠ [] →
  context ≠ [] → other ≠ [] → other ≠ context →
  ∃ encrypted w1 w2,
    EncryptionService_encrypt this plaintext
      (EncryptOptions.make (Some (js "JWE-A256GCM")) (Some context)) w
    = (Ok encrypted, w1)
    ∧ reEncrypt this encrypted (DecryptOptions.make (Some other)) newOptions w1
      = (Err (DecryptionError (js "Decryption failed") None
                (Some (Error (js "Decryption failed")))), w2)
    ∧ provider_calls w2 = provider_calls w1 ++ [(p, method_decrypt)]
    ∧ random_used w2 = random_used w1.
Proof.
  intros Hreg Hkeys Hne Hctx Hother Hdiff.
  destruct (active_key_all_keys _ _ Hkeys) as (k & ks & -> & Hk).
  pose proof (active_key_valid _ _ Hk) as Hvalid.
  destruct plaintext as [|x xs]; [done|].
  destruct (encrypt_nonempty w this p x xs (Some context) k Hreg Hk)
    as (w1 & Henc & Hsteps1).
  pose proof (steps_registers_JWE _ _ _ _ _ _ _ _ Hsteps1 Hreg) as Hreg1.
  pose proof (steps_SECRET _ _ _ _ _ Hsteps1) as HS1.
  destruct (decrypt_envelope_steps w1 this p (TextEncoder_encode (x :: xs))
              (Some context) k (random_source w (random_used w))
              (Some (DecryptOptions.make (Some other))) (k :: ks) Hreg1 Hvalid)
    as (w2 & Hdec & (_ & _ & Hused & _ & Hcalls & _)); [by rewrite HS1|].
  cbn [DecryptOptions.context] in Hdec.
  replace (context_accepted (Some context) (Some other)) with false in Hdec.
  2:{ destruct other as [|o os]; [done|]. cbn.
      by rewrite bool_decide_eq_false_2. }
  rewrite andb_false_r in Hdec.
  eexists _, w1, w2. split; [exact Henc|].
  split; [by rewrite reEncrypt_eq, Hdec|].
  split; [done|]. by rewrite Hused, Nat.add_0_r.
Qed.

End ReEncrypt.

(** ** The singleton *)

Section Singleton.
Context {J : Jose}.

(** What [createEncryptionService([new JWEA256GCMProvider()])] builds. *)
Lemma createEncryptionService_new_provider w :
  let p := fresh (dom (Providers w)) in
  let l := fresh (dom (Maps w)) in
  let own := fresh (dom (<[l := [(js "JWE-A256GCM", p)]]> (Maps w))) in
  bind new_JWEA256GCMProvider (λ provider, createEncryptionService [provider]) w
  = (Ok (mkService own),
     mkWorld (PrivateEnvironment_SECRET w) (random_source w) (random_used w)
             (<[own := [(js "JWE-A256GCM", p)]]>
                (<[l := [(js "JWE-A256GCM", p)]]> (Maps w)))
             (<[p := mkObject JWEA256GCMProvider []]> (Providers w))
             (provider_calls w)).
Proof.
  intros p l own.
  unfold bind at 1, new_JWEA256GCMProvider. fold p.
  unfold createEncryptionService, bind at 1, new_Map.
  cbn [Maps set_Maps]. fold l.
  change (Map_from []) with (@nil (jsstring * nat)).
  cbn [register_providers].
  unfold bind at 1, bind at 1, read_Provider at 1.
  cbn [Providers set_Maps]. rewrite lookup_insert_eq.
  unfold bind at 1, Map_prototype_set, bind at 1, read_Map at 1.
  cbn [Maps set_Maps]. rewrite lookup_insert_eq.
  cbn [modify methods ALGORITHM_IDENTIFIER JWEA256GCMProvider Map_set ret].
  unfold constructor, bind at 1, read_Map at 1.
  cbn [config_providers Maps set_Maps]. rewrite lookup_insert_eq.
  unfold bind at 1, new_Map. cbn [Maps set_Maps].
  rewrite insert_insert_eq. fold own.
  unfold bind at 1, read_Map at 1. cbn [Maps set_Maps].
  rewrite lookup_insert_eq.
  change (Map_from [(js "JWE-A256GCM", p)]) with [(js "JWE-A256GCM", p)].
  cbn [Map_size length Nat.eqb]. unfold ret, set_Maps.
  cbn [PrivateEnvironment_SECRET random_source random_used Maps Providers
       provider_calls].
  by rewrite insert_insert_eq.
Qed.

(** The first call in a module whose variable is [undefined]. *)
Lemma getEncryptionService_undefined s :
  serviceInstance s = None →
  let p := fresh (dom (Providers (store s))) in
  let l := fresh (dom (Maps (store s))) in
  let own := fresh (dom (<[l := [(js "JWE-A256GCM", p)]]> (Maps (store s)))) in
  getEncryptionService s
  = (Ok (mkService own),
     mkFactory (Some (mkService own))
       (mkWorld (PrivateEnvironment_SECRET (store s)) (random_source (store s))
                (random_used (store s))
                (<[own := [(js "JWE-A256GCM", p)]]>
                   (<[l := [(js "JWE-A256GCM", p)]]> (Maps (store s))))
                (<[p := mkObject JWEA256GCMProvider []]> (Providers (store s)))
                (provider_calls (store s)))).
Proof.
  intros Hs p l own.
  pose proof (createEncryptionService_new_provider (store s)) as Hcreate.
  cbn zeta in Hcreate. fold p l own in Hcreate.
  unfold bind at 1, new_JWEA256GCMProvider in Hcreate. fold p in Hcreate.
  unfold getEncryptionService, bind at 1, get_state. rewrite Hs.
  unfold bind at 1, in_store at 1, new_JWEA256GCMProvider. fold p.
  unfold bind at 1, in_store. cbn [store serviceInstance].
  rewrite Hcreate. unfold bind, modify, ret. by cbn [store].
Qed.

Lemma getEncryptionService_defined s instance :
  serviceInstance s = Some instance →
  getEncryptionService s = (Ok instance, s).
Proof.
  intros Hs. unfold getEncryptionService, bind, get_state. by rewrite Hs.
Qed.

(** X16, one shared instance: after [resetEncryptionService] (or in a
    module just loaded) [getEncryptionService] returns a service that
    registers one new [JWEA256GCMProvider], with an empty key cache, as
    ['JWE-A256GCM'] and supports nothing else; every further call returns
    this same service and changes nothing. *)
Theorem getEncryptionService_is_shared s :
  ∃ instance s1,
    getEncryptionService (resetEncryptionService s).2 = (Ok instance, s1)
    ∧ getEncryptionService s1 = (Ok instance, s1)
    ∧ getSupportedAlgorithms instance (store s1)
      = (Ok [js "JWE-A256GCM"], store s1)
    ∧ ∃ p, Providers (store s) !! p = None
           ∧ Providers (store s1) !! p = Some (mkObject JWEA256GCMProvider [])
           ∧ registers_JWE (store s1) instance (js "JWE-A256GCM") p.
Proof.
  rewrite getEncryptionService_undefined by done.
  cbn [resetEncryptionService modify snd store].
  set (p := fresh (dom (Providers (store s)))).
  set (l := fresh (dom (Maps (store s)))).
  set (own := fresh (dom (<[l := [(js "JWE-A256GCM", p)]]> (Maps (store s))))).
  eexists _, _. split; [reflexivity|].
  split; [by apply getEncryptionService_defined|].
  assert (Maps (mkWorld (PrivateEnvironment_SECRET (store s))
                  (random_source (store s)) (random_used (store s))
                  (<[own := [(js "JWE-A256GCM", p)]]>
                     (<[l := [(js "JWE-A256GCM", p)]]> (Maps (store s))))
                  (<[p := mkObject JWEA256GCMProvider []]> (Providers (store s)))
                  (provider_calls (store s)))
          !! providers (mkService own) = Some [(js "JWE-A256GCM", p)]) as Hm
    by (cbn; by rewrite lookup_insert_eq).
  cbn [store]. split; [by rewrite (getSupportedAlgorithms_eq _ _ _ Hm)|].
  exists p. split_and!.
  - apply not_elem_of_dom, is_fresh.
  - cbn. by rewrite lookup_insert_eq.
  - exists [(js "JWE-A256GCM", p)], (mkObject JWEA256GCMProvider []).
    split_and!; [done|done|cbn; by rewrite lookup_insert_eq|done|].
    apply cache_coherent_nil.
Qed.

(** X17, reset: after [resetEncryptionService] the next call of
    [getEncryptionService] builds a service that is not the one returned
    before, over a provider instance of its own; the registry of the
    earlier service is left as it was, so the earlier service still
    works. *)
Theorem resetEncryptionService_gives_new_instance s :
  ∃ a s1 b s2,
    getEncryptionService (resetEncryptionService s).2 = (Ok a, s1)
    ∧ getEncryptionService (resetEncryptionService s1).2 = (Ok b, s2)
    ∧ b ≠ a
    ∧ Maps (store s2) !! providers a = Maps (store s1) !! providers a
    ∧ ∃ pa pb, pa ≠ pb
        ∧ registers_JWE (store s2) a (js "JWE-A256GCM") pa
        ∧ registers_JWE (store s2) b (js "JWE-A256GCM") pb.
Proof.
  rewrite getEncryptionService_undefined by done.
  cbn [resetEncryptionService modify snd store].
  set (p := fresh (dom (Providers (store s)))).
  set (l := fresh (dom (Maps (store s)))).
  set (own := fresh (dom (<[l := [(js "JWE-A256GCM", p)]]> (Maps (store s))))).
  set (M1 := <[own := [(js "JWE-A256GCM", p)]]>
               (<[l := [(js "JWE-A256GCM", p)]]> (Maps (store s)))).
  set (P1 := <[p := mkObject JWEA256GCMProvider []]> (Providers (store s))).
  set (s1 := mkFactory (Some (mkService own))
                (mkWorld (PrivateEnvironment_SECRET (store s))
                   (random_source (store s)) (random_used (store s)) M1 P1
                   (provider_calls (store s)))).
  exists (mkService own), s1.
  pose proof (getEncryptionService_undefined (mkFactory None (store s1))
                eq_refl) as Hsecond.
  cbn [store s1 Maps Providers PrivateEnvironment_SECRET random_source
       random_used provider_calls] in Hsecond.
  cbn zeta in Hsecond. unfold s1 in Hsecond.
  cbn [store Maps Providers PrivateEnvironment_SECRET random_source random_used
       provider_calls] in Hsecond.
  set (p' := fresh (dom P1)) in Hsecond.
  set (l' := fresh (dom M1)) in Hsecond.
  set (own' := fresh (dom (<[l' := [(js "JWE-A256GCM", p')]]> M1))) in Hsecond.
  eexists _, _. split; [reflexivity|]. split; [exact Hsecond|].
  assert (M1 !! own = Some [(js "JWE-A256GCM", p)]) as Hown
    by (unfold M1; by rewrite lookup_insert_eq).
  assert (l' ≠ own) as Hl'.
  { intros Heq. apply (is_fresh (dom M1)). fold l'. rewrite Heq.
    apply elem_of_dom. by eexists. }
  assert (own' ≠ own) as Hown'.
  { intros Heq.
    apply (is_fresh (dom (<[l' := [(js "JWE-A256GCM", p')]]> M1))).
    fold own'. rewrite Heq. apply elem_of_dom.
    rewrite lookup_insert_ne by done. by eexists. }
  assert (p' ≠ p) as Hp'.
  { intros Heq. apply (is_fresh (dom P1)). fold p'. rewrite Heq.
    apply elem_of_dom. unfold P1. rewrite lookup_insert_eq. by eexists. }
  split; [by intros [= ?]|].
  unfold s1. cbn [providers store Maps Providers].
  split; [by rewrite !lookup_insert_ne by done|].
  exists p, p'. split; [done|]. split.
  - exists [(js "JWE-A256GCM", p)], (mkObject JWEA256GCMProvider []).
    cbn [Maps Providers providers].
    rewrite !lookup_insert_ne by done. rewrite Hown.
    split_and!; [done|done| |done|apply cache_coherent_nil].
    unfold P1. by rewrite lookup_insert_eq.
  - exists [(js "JWE-A256GCM", p')], (mkObject JWEA256GCMProvider []).
    cbn [Maps Providers providers]. rewrite !lookup_insert_eq.
    split_and!; [done|done|done|done|apply cache_coherent_nil].
Qed.

End Singleton.

(** ** The registry the factory builds *)

Lemma Map_keys_set {V} (m : list (jsstring * V)) k v :
  Map_keys (Map_set m k v)
  = if bool_decide (k ∈ Map_keys m) then Map_keys m else Map_keys m ++ [k].
Proof.
  unfold Map_keys. induction m as [|[k' v'] m IH]; cbn [Map_set map fst].
  - cbn. rewrite bool_decide_eq_false_2; [done|]. by intros ?%elem_of_nil.
  - destruct (decide (k' = k)) as [->|Hne].
    + rewrite (bool_decide_eq_true_2 (k = k)) by done. cbn [map fst].
      rewrite bool_decide_eq_true_2; [done|by left].
    + rewrite (bool_decide_eq_false_2 (k' = k)) by done. cbn [map fst].
      rewrite IH. destruct (decide (k ∈ map fst m)) as [Hin|Hin].
      * rewrite (bool_decide_eq_true_2 _ Hin).
        rewrite bool_decide_eq_true_2; [done|by right].
      * rewrite (bool_decide_eq_false_2 _ Hin).
        rewrite bool_decide_eq_false_2; [done|].
        intros [?|?]%elem_of_cons; [by subst|done].
Qed.

Lemma Map_set_fresh {V} (m : list (jsstring * V)) k v :
  k ∉ Map_keys m → Map_set m k v = m ++ [(k, v)].
Proof.
  unfold Map_keys. induction m as [|[k' v'] m IH]; cbn [Map_set map fst]; [done|].
  intros Hk. rewrite bool_decide_eq_false_2.
  - cbn. rewrite IH; [done|]. intros ?. apply Hk. by right.
  - intros ->. apply Hk. by left.
Qed.

Lemma Map_set_NoDup {V} (m : list (jsstring * V)) k v :
  NoDup (Map_keys m) → NoDup (Map_keys (Map_set m k v)).
Proof.
  intros Hm. rewrite Map_keys_set. case_bool_decide; [done|].
  apply NoDup_app. split_and!; [done| |apply NoDup_singleton].
  by intros x Hx ->%list_elem_of_singleton.
Qed.

(** [new Map(m)] of the entries of a [Map] is a copy of it. *)
Lemma Map_from_entries {V} (m : list (jsstring * V)) :
  NoDup (Map_keys m) → Map_from m = m.
Proof.
  unfold Map_from.
  assert (∀ es acc : list (jsstring * V), NoDup (Map_keys (acc ++ es)) →
            fold_left (λ m kv, Map_set m kv.1 kv.2) es acc = acc ++ es)
    as Hfold.
  { induction es as [|[k v] es IH]; intros acc Hnd; cbn [fold_left].
    - by rewrite app_nil_r.
    - rewrite Map_set_fresh.
      + rewrite IH; rewrite <- app_assoc; done.
      + unfold Map_keys in *. rewrite map_app in Hnd.
        apply NoDup_app in Hnd as (_ & Hdisj & _).
        intros Hin. apply (Hdisj _ Hin). by left. }
  intros Hm. by apply (Hfold m []).
Qed.

(** The provider the registration loop leaves under an identifier: the
    last one of the list that carries it. *)
Lemma register_providers_last l ps w m :
  (∀ p, p ∈ ps → is_Some (Providers w !! p)) →
  Maps w !! l = Some m →
  NoDup (Map_keys m) →
  ∃ m',
    register_providers l ps w = (Ok tt, set_Maps <[l := m']> w)
    ∧ NoDup (Map_keys m')
    ∧ (ps ≠ [] → m' ≠ [])
    ∧ (ps = [] → m' = m)
    ∧ ∀ X, Map_get m' X
           = match last (filter (λ p, ALGORITHM_IDENTIFIER ∘ methods
                                       <$> Providers w !! p = Some X) ps) with
             | Some p => Some p
             | None => Map_get m X
             end.
Proof.
  revert w m. induction ps as [|p ps IH]; intros w m Hlive Hm Hnd.
  - exists m. split_and!; [|done|done|done|done].
    cbn. unfold ret. f_equal. destruct w as [? ? ? M ? ?]. cbn in *.
    unfold set_Maps. cbn. f_equal. by rewrite insert_id.
  - cbn [register_providers].
    destruct (Hlive p) as [obj Hobj]; [by left|].
    unfold bind at 1, read_Provider at 1. rewrite Hobj.
    unfold bind at 1, Map_prototype_set, bind at 1, read_Map at 1.
    rewrite Hm. cbn [modify].
    set (X0 := ALGORITHM_IDENTIFIER (methods obj)).
    destruct (IH (set_Maps <[l := Map_set m X0 p]> w) (Map_set m X0 p))
      as (m' & -> & Hnd' & _ & _ & Hget).
    + intros q Hq. cbn [Providers set_Maps]. apply Hlive. by right.
    + cbn [Maps set_Maps]. by rewrite lookup_insert_eq.
    + by apply Map_set_NoDup.
    + exists m'. split_and!; [|done| |done|].
      * rewrite set_Maps_set_Maps. f_equal. unfold set_Maps. f_equal.
        cbn. by rewrite insert_insert_eq.
      * intros _ ->. specialize (Hget X0). cbn [Map_get] in Hget.
        rewrite Map_get_set, bool_decide_eq_true_2 in Hget by done.
        by destruct (last _).
      * intros X. rewrite Hget. cbn [Providers set_Maps].
        rewrite filter_cons, Hobj. cbn [fmap option_fmap option_map compose].
        fold X0. rewrite Map_get_set.
        destruct (decide (Some X0 = Some X)) as [[= ->]|Hne].
        -- rewrite bool_decide_eq_true_2 by done.
           rewrite last_cons. by destruct (last _).
        -- rewrite bool_decide_eq_false_2; [done|]. by intros ->.
Qed.

(** X18, the registry of the factory: [createEncryptionService] throws
    [NoProvidersError] for an empty list; for any other list it returns a
    service whose registry maps each identifier to the last provider of the
    list that carries it (a later provider replaces an earlier one with the
    same identifier) and to nothing otherwise, and it modifies no provider
    instance. *)
Theorem createEncryptionService_registry ps w :
  (∀ p, p ∈ ps → is_Some (Providers w !! p)) →
  match ps with
  | [] => (createEncryptionService ps w).1 = Err NoProvidersError
  | _ :: _ =>
      ∃ this w1 m,
        createEncryptionService ps w = (Ok this, w1)
        ∧ Providers w1 = Providers w
        ∧ Maps w1 !! providers this = Some m
        ∧ ∀ X, Map_get m X
               = last (filter (λ p, ALGORITHM_IDENTIFIER ∘ methods
                                     <$> Providers w !! p = Some X) ps)
  end.
Proof.
  intros Hlive.
  set (l := fresh (dom (Maps w))).
  destruct (register_providers_last l ps (set_Maps <[l := []]> w) [])
    as (m' & Hreg & Hnd & Hne & Hnil & Hget).
  { done. }
  { cbn. by rewrite lookup_insert_eq. }
  { constructor. }
  set (w' := set_Maps <[l := m']> (set_Maps <[l := []]> w)) in Hreg.
  set (own := fresh (dom (Maps w'))).
  assert (createEncryptionService ps w
          = (if (Map_size m' =? 0)%nat then throw NoProvidersError
             else ret (mkService own)) (set_Maps <[own := m']> w'))
    as Hcreate.
  { unfold createEncryptionService.
    unfold bind at 1. unfold new_Map at 1.
    change (Map_from []) with (@nil (jsstring * nat)). fold l.
    unfold bind at 1. rewrite Hreg.
    unfold constructor, bind at 1, read_Map at 1. cbn [config_providers].
    assert (Maps w' !! l = Some m') as ->
      by (unfold w'; cbn; by rewrite lookup_insert_eq).
    unfold bind at 1, new_Map. fold own.
    rewrite (Map_from_entries m') by done.
    unfold bind at 1, read_Map at 1. cbn [Maps set_Maps].
    by rewrite lookup_insert_eq. }
  rewrite Hcreate. destruct ps as [|p ps].
  - by rewrite Hnil.
  - destruct m' as [|kv rest]; [by destruct Hne|].
    cbn [Map_size length Nat.eqb ret].
    eexists _, _, _. split; [reflexivity|].
    cbn [Providers set_Maps providers Maps]. rewrite lookup_insert_eq.
    split_and!; [done|done|].
    intros X. rewrite Hget. cbn [Providers set_Maps Map_get].
    by destruct (last _).
Qed.

(** ** Key loading *)

Section KeyLoading.
Context {J : Jose}.

Lemma key_of_Ok s k :
  key_of s = Ok k ↔
  k = importKey (Buffer_from_base64 s)
  ∧ length (Buffer_from_base64 s) = 32%nat.
Proof.
  unfold key_of. destruct (Nat.eqb_spec (length (Buffer_from_base64 s)) 32).
  - split; [by intros [= <-]|by intros [-> _]].
  - split; [done|by intros [_ ?]].
Qed.

Lemma keys_of_Ok secrets keys :
  keys_of secrets = Ok keys ↔
  Forall2 (λ s k, k = importKey (Buffer_from_base64 s)
                  ∧ length (Buffer_from_base64 s) = 32%nat) secrets keys.
Proof.
  revert keys. induction secrets as [|s secrets IH]; intros keys; cbn [keys_of].
  - split; [intros [= <-]; constructor|by intros ->%Forall2_nil_inv_l].
  - destruct (key_of s) as [k|e] eqn:Hk.
    + apply key_of_Ok in Hk. destruct (keys_of secrets) as [ks|e].
      * split.
        -- intros [= <-]. constructor; [done|by apply IH].
        -- intros (k' & ks' & [-> _] & Hks%IH & ->)%Forall2_cons_inv_l.
           destruct Hk as [-> _]. by injection Hks as ->.
      * split; [done|].
        intros (k' & ks' & _ & Hks%IH & ->)%Forall2_cons_inv_l. done.
    + split; [done|].
      intros (k' & ks' & Hk'%key_of_Ok & _)%Forall2_cons_inv_l. congruence.
Qed.

Lemma keys_of_Err_Exists secrets :
  (∃ e, keys_of secrets = Err e)
  ↔ Exists (λ s, length (Buffer_from_base64 s) ≠ 32%nat) secrets.
Proof.
  induction secrets as [|s secrets IH]; cbn [keys_of].
  - split; [by intros [e [=]]|by intros ?%Exists_nil].
  - rewrite Exists_cons, <- IH. unfold key_of.
    destruct (Nat.eqb_spec (length (Buffer_from_base64 s)) 32) as [Hlen|Hlen].
    + destruct (keys_of secrets) as [ks|e].
      * split; [by intros [e [=]]|]. by intros [?|[e [=]]].
      * split; [right|]; eauto.
    + split; [by left|eauto].
Qed.

(** X19, loading the keys: in an instance whose cache is coherent (a new
    instance, or one that has only run its own methods), when the secret
    list is [secrets], [getAllCryptoKeys] returns one key for each secret,
    in the order of the list, each the import of the 32 bytes its secret
    decodes to, and [getActiveCryptoKey] returns the first of them; it
    throws [Error('Invalid secret key length')] exactly when some secret
    does not decode to 32 bytes; and the cache stays coherent. *)
Theorem getAllCryptoKeys_loads_every_secret st secrets :
  cache_coherent (cryptoKeyCache st) →
  (getSecretList st).1 = Ok secrets →
  cache_coherent (cryptoKeyCache (getAllCryptoKeys st).2)
  ∧ (∀ keys, (getAllCryptoKeys st).1 = Ok keys ↔
       Forall2 (λ s k, k = importKey (Buffer_from_base64 s)
                       ∧ length (Buffer_from_base64 s) = 32%nat)
               secrets keys)
  ∧ (∀ keys, (getAllCryptoKeys st).1 = Ok keys →
       ∃ k rest, keys = k :: rest ∧ (getActiveCryptoKey st).1 = Ok k)
  ∧ ((getAllCryptoKeys st).1 = Err (Error (js "Invalid secret key length"))
     ↔ Exists (λ s, length (Buffer_from_base64 s) ≠ 32%nat) secrets).
Proof.
  intros Hc Hsecrets. rewrite getSecretList_eq in Hsecrets. cbn in Hsecrets.
  destruct (getAllCryptoKeys_eq st Hc) as (c & -> & Hc').
  destruct (getActiveCryptoKey_eq st Hc) as (c2 & -> & _).
  cbn [fst snd cryptoKeyCache set_cryptoKeyCache].
  unfold all_keys, active_key. rewrite Hsecrets.
  split_and!; [done|apply keys_of_Ok| |].
  - intros keys Hkeys. destruct secrets as [|s secrets].
    + by apply secret_list_Ok in Hsecrets as [? _].
    + cbn [keys_of] in Hkeys. destruct (key_of s) as [k|]; [|done].
      destruct (keys_of secrets) as [ks|]; [|done].
      injection Hkeys as <-. by exists k, ks.
  - rewrite <- keys_of_Err_Exists. split; [eauto|].
    intros [e He]. by rewrite He, (keys_of_Err _ _ He).
Qed.

End KeyLoading.

(** ** The round trip of any string *)

Section AnyString.
Context {J : Jose} {I : IdealJose J}.

(** X20, what comes back: for every plaintext, with every configured
    secret valid, decrypting the envelope with an accepted context returns
    the plaintext as UTF-8 carries it: each unpaired surrogate replaced by
    U+FFFD, and one leading U+FEFF dropped. *)
Theorem round_trip_of_any_string w this p keys plaintext made :
  registers_JWE w this (js "JWE-A256GCM") p →
  all_keys (PrivateEnvironment_SECRET w) = Ok keys →
  is_string plaintext →
  ∃ encrypted w1,
    EncryptionService_encrypt this plaintext
      (EncryptOptions.make (Some (js "JWE-A256GCM")) made) w
    = (Ok encrypted, w1)
    ∧ (EncryptionService_decrypt this encrypted
         (Some (DecryptOptions.make made)) w1).1
      = Ok (flat_map utf16_units (to_scalar_values (strip_BOM plaintext))).
Proof.
  intros Hreg Hkeys Hs.
  destruct (active_key_all_keys _ _ Hkeys) as (k & ks & -> & Hk).
  destruct plaintext as [|x xs].
  - destruct (encrypt_empty w this p made Hreg) as (w1 & Henc & Hsteps).
    eexists _, w1. split; [exact Henc|].
    apply (decrypt_envelope_empty w1 this p).
    by eapply steps_registers_JWE.
  - destruct (encrypt_nonempty w this p x xs made k Hreg Hk)
      as (w1 & Henc & Hsteps).
    eexists _, w1. split; [exact Henc|].
    rewrite (decrypt_envelope w1 this p _ _ _ _ _ (k :: ks));
      [|by eapply steps_registers_JWE|by eapply active_key_valid
       |by rewrite (steps_SECRET _ _ _ _ _ Hsteps)].
    cbn [DecryptOptions.context].
    rewrite context_accepted_same, bool_decide_eq_true_2 by left.
    cbn [andb]. by rewrite TextDecoder_decode_encode.
Qed.

End AnyString.

(** * Cookie handles *)

Section CookieHandles.
Context {S : Type}.
Implicit Types (this : SignalCookieHandle.t S) (s : S).

(** [get] right after [set], for a codec call that changes nothing. *)
Lemma RawCookieHandle_get_set (raw : RawCookieHandle.t S) value encoded s :
  keeps_cookies (RawCookieHandle.storage raw) →
  (∀ s, ICookieCodec.encode (RawCookieHandle.codec raw) value s
        = (Ok encoded, s)) →
  ∃ s1,
    RawCookieHandle.set raw value s = (Ok tt, s1)
    ∧ RawCookieHandle.get raw s1
      = match encoded with
        | [] => (Ok VNull, s1)
        | _ :: _ => ICookieCodec.decode (RawCookieHandle.codec raw) encoded s1
        end.
Proof.
  intros Hstorage Hencode.
  destruct (read_write _ Hstorage
              (CookieConfig.name (RawCookieHandle.config raw)) encoded
              (CookieConfig.options (RawCookieHandle.config raw)) s)
    as (s1 & Hwrite & Hread).
  exists s1. unfold RawCookieHandle.set, RawCookieHandle.get, bind.
  rewrite Hencode, Hwrite, Hread. by destruct encoded.
Qed.

(** X21, a signal is consumed once: with a storage that keeps what is
    written, a value that the codec encodes to a non-empty string and
    decodes back, and that is truthy (an object, a non-empty string, ...),
    [consume] after [push] returns the value and removes the cookie; the
    next [consume] returns [null]. *)
Theorem consume_is_one_shot this value encoded s :
  keeps_cookies (RawCookieHandle.storage (SignalCookieHandle.rawHandle this)) →
  (∀ s, ICookieCodec.encode
          (RawCookieHandle.codec (SignalCookieHandle.rawHandle this)) value s
        = (Ok encoded, s)) →
  (∀ s, ICookieCodec.decode
          (RawCookieHandle.codec (SignalCookieHandle.rawHandle this)) encoded s
        = (Ok value, s)) →
  encoded ≠ [] →
  ToBoolean value = true →
  ∃ s1 s2,
    SignalCookieHandle.push this value s = (Ok tt, s1)
    ∧ SignalCookieHandle.consume this s1 = (Ok value, s2)
    ∧ SignalCookieHandle.consume this s2 = (Ok VNull, s2).
Proof.
  intros Hstorage Hencode Hdecode Hne Htruthy.
  destruct (RawCookieHandle_get_set _ value encoded s Hstorage Hencode)
    as (s1 & Hset & Hget).
  destruct encoded as [|c cs]; [done|]. rewrite Hdecode in Hget.
  destruct (read_delete _ Hstorage
              (CookieConfig.name
                 (RawCookieHandle.config (SignalCookieHandle.rawHandle this)))
              (CookieConfig.options
                 (RawCookieHandle.config (SignalCookieHandle.rawHandle this)))
              s1)
    as (s2 & Hdelete & Hread).
  exists s1, s2. split; [done|].
  unfold SignalCookieHandle.consume. split.
  - unfold bind at 1. rewrite Hget. unfold bind, ret.
    rewrite Htruthy. unfold RawCookieHandle.remove. by rewrite Hdelete.
  - unfold bind at 1, RawCookieHandle.get, bind at 1. by rewrite Hread.
Qed.

(** X22, a falsy signal stays: when the value pushed is falsy ([0],
    [false], ['']; also when the codec decodes the cookie to [null]),
    [consume] returns what the codec decodes and does not remove the
    cookie: the state is left as it was, so every later [consume] returns
    the same value again. *)
Theorem consume_keeps_a_falsy_value this value decoded encoded s :
  keeps_cookies (RawCookieHandle.storage (SignalCookieHandle.rawHandle this)) →
  (∀ s, ICookieCodec.encode
          (RawCookieHandle.codec (SignalCookieHandle.rawHandle this)) value s
        = (Ok encoded, s)) →
  (∀ s, ICookieCodec.decode
          (RawCookieHandle.codec (SignalCookieHandle.rawHandle this)) encoded s
        = (Ok decoded, s)) →
  encoded ≠ [] →
  ToBoolean decoded = false →
  ∃ s1,
    SignalCookieHandle.push this value s = (Ok tt, s1)
    ∧ SignalCookieHandle.consume this s1 = (Ok decoded, s1)
    ∧ ICookieStorage.read
        (RawCookieHandle.storage (SignalCookieHandle.rawHandle this))
        (CookieConfig.name
           (RawCookieHandle.config (SignalCookieHandle.rawHandle this))) s1
      = (Ok (Some encoded), s1).
Proof.
  intros Hstorage Hencode Hdecode Hne Hfalsy.
  destruct (read_write _ Hstorage
              (CookieConfig.name
                 (RawCookieHandle.config (SignalCookieHandle.rawHandle this)))
              encoded
              (CookieConfig.options
                 (RawCookieHandle.config (SignalCookieHandle.rawHandle this)))
              s)
    as (s1 & Hwrite & Hread).
  exists s1. split_and!; [| |done].
  - unfold SignalCookieHandle.push, RawCookieHandle.set, bind.
    by rewrite Hencode, Hwrite.
  - unfold SignalCookieHandle.consume, bind at 1, RawCookieHandle.get,
      bind at 1.
    rewrite Hread. destruct encoded as [|c cs]; [done|].
    cbn [ToBoolean negb]. rewrite Hdecode. unfold bind, ret.
    by rewrite Hfalsy.
Qed.

End CookieHandles.

(** ** The cookie jar in memory *)

Lemma Jar_keeps_cookies : keeps_cookies Jar.storage.
Proof.
  split.
  - intros name jar. by eexists.
  - intros name value options jar. eexists. split; [reflexivity|].
    cbn. by rewrite lookup_insert_eq.
  - intros name options jar. eexists. split; [reflexivity|].
    cbn. by rewrite lookup_delete_eq.
Qed.

(** ** Cookies on the server *)

(** *** Objects *)

Lemma Map_get_None {V} (m : list (jsstring * V)) k :
  Map_get m k = None ↔ k ∉ Map_keys m.
Proof.
  rewrite <- Map_has_keys. unfold Map_has.
  destruct (Map_get m k); split; done.
Qed.

Lemma spread_get target source k :
  NoDup (Map_keys source) →
  Map_get (spread target source) k
  = match Map_get source k with
    | Some v => Some v
    | None => Map_get target k
    end.
Proof.
  unfold spread. revert target.
  induction source as [|[k0 v0] source IH]; intros target Hnd; [done|].
  change (Map_keys ((k0, v0) :: source)) with (k0 :: Map_keys source) in Hnd.
  apply NoDup_cons in Hnd as [Hk0 Hnd]. cbn [fold_left fst snd Map_get].
  rewrite IH by done. rewrite Map_get_set.
  destruct (decide (k0 = k)) as [->|Hne].
  - rewrite !bool_decide_eq_true_2 by done.
    by apply Map_get_None in Hk0 as ->.
  - by rewrite !bool_decide_eq_false_2 by done.
Qed.

Lemma pick_fold (obj : list (jsstring * JSValue)) keys
    (acc : list (jsstring * JSValue)) :
  NoDup (Map_keys acc) →
  let result := fold_left (λ result key,
                             match Map_get obj key with
                             | Some v => Map_set result key v
                             | None => result
                             end) keys acc in
  NoDup (Map_keys result)
  ∧ ∀ k, Map_get result k
         = if bool_decide (k ∈ keys)
           then match Map_get obj k with
                | Some v => Some v
                | None => Map_get acc k
                end
           else Map_get acc k.
Proof.
  revert acc. induction keys as [|key keys IH]; intros acc Hnd; cbn zeta.
  - split; [done|]. intros k. rewrite bool_decide_eq_false_2; [done|].
    by intros ?%elem_of_nil.
  - cbn [fold_left].
    destruct (Map_get obj key) as [v|] eqn:Hkey.
    + destruct (IH (Map_set acc key v)) as [Hnd' Hget];
        [by apply Map_set_NoDup|].
      split; [done|]. intros k. rewrite Hget, Map_get_set.
      destruct (decide (key = k)) as [->|Hne].
      * rewrite Hkey, (bool_decide_eq_true_2 (k = k)) by done.
        rewrite (bool_decide_eq_true_2 (k ∈ k :: keys)) by left.
        by case_bool_decide.
      * rewrite (bool_decide_eq_false_2 (key = k)) by done.
        destruct (decide (k ∈ keys)) as [Hin|Hin].
        -- rewrite (bool_decide_eq_true_2 _ Hin).
           rewrite bool_decide_eq_true_2; [done|by right].
        -- rewrite (bool_decide_eq_false_2 _ Hin).
           rewrite bool_decide_eq_false_2; [done|].
           intros [?|?]%elem_of_cons; [by subst|done].
    + destruct (IH acc Hnd) as [Hnd' Hget].
      split; [done|]. intros k. rewrite Hget.
      destruct (decide (key = k)) as [->|Hne].
      * rewrite Hkey. rewrite (bool_decide_eq_true_2 (k ∈ k :: keys)) by left.
        by case_bool_decide.
      * destruct (decide (k ∈ keys)) as [Hin|Hin].
        -- rewrite (bool_decide_eq_true_2 _ Hin).
           rewrite bool_decide_eq_true_2; [done|by right].
        -- rewrite (bool_decide_eq_false_2 _ Hin).
           rewrite bool_decide_eq_false_2; [done|].
           intros [?|?]%elem_of_cons; [by subst|done].
Qed.

Lemma pick_get obj keys k :
  Map_get (pick obj keys) k
  = if bool_decide (k ∈ keys) then Map_get obj k else None.
Proof.
  destruct (pick_fold obj keys []) as [_ Hget]; [constructor|].
  unfold pick. rewrite Hget. cbn [Map_get].
  case_bool_decide; [|done]. by destruct (Map_get obj k).
Qed.

Lemma pick_NoDup obj keys : NoDup (Map_keys (pick obj keys)).
Proof. by destruct (pick_fold obj keys []) as [? _]; [constructor|]. Qed.

Lemma pick_keys obj keys k : k ∈ Map_keys (pick obj keys) → k ∈ keys.
Proof.
  intros Hk. destruct (decide (k ∈ keys)) as [|Hnot]; [done|].
  exfalso. revert Hk. apply Map_get_None.
  by rewrite pick_get, bool_decide_eq_false_2.
Qed.

(** Decide the comparisons of property names of the goal. *)
Ltac decide_names :=
  repeat match goal with
  | |- context [bool_decide (js ?a = js ?b)] =>
      let r := eval vm_compute in (bool_decide (js a = js b)) in
      change (bool_decide (js a = js b)) with r
  | |- context [bool_decide (js ?a ∈ ?l)] =>
      let r := eval vm_compute in (bool_decide (js a ∈ l)) in
      change (bool_decide (js a ∈ l)) with r
  end.

Section ServerCookieFacts.
Context {S : Type} `{CookiePlatform S}.
Implicit Types def : ServerCookieDefinition.t S.

(** The options [defineServerCookie] gives the handles. *)
Lemma strictOptions_get def k :
  Map_get
    (CookieConfig.options
       (RawCookieHandle.config
          (CookieController.asRaw (defineServerCookie def)))) k
  = if bool_decide (js "secure" = k) then Some (VBool true)
    else if bool_decide (js "httpOnly" = k) then Some (VBool true)
    else if bool_decide (js "path" = k)
         then Some (logical_or
                      (property (ServerCookieDefinition.options def) (js "path"))
                      (VString (js "/")))
    else Map_get (spread [] (ServerCookieDefinition.options def)) k.
Proof.
  cbn [defineServerCookie CookieController.constructor CookieController.asRaw
       CookieController.rawHandle RawCookieHandle.config CookieConfig.options].
  by rewrite !Map_get_set.
Qed.

Lemma logical_or_truthy a s : s ≠ [] → ToBoolean (logical_or a (VString s)) = true.
Proof.
  intros Hs. unfold logical_or. destruct (ToBoolean a) eqn:Ha; [done|].
  by destruct s.
Qed.

(** X23, a server cookie is always HttpOnly and Secure: whatever the
    definition holds (its options may say otherwise), [push] (and [set])
    on a cookie made by [defineServerCookie] encodes the value and makes
    one call [set] of the store of [next/headers], under the cookie's name,
    with options among the nine the storage forwards, in which [httpOnly]
    and [secure] are [true] and [path] is the path of the definition, or
    ['/'] when that is missing or empty; the other options of the
    definition are passed as they are. *)
Theorem server_cookie_is_http_only_and_secure def value :
  ∃ options,
    SignalCookieHandle.push
      (CookieController.asSignal (defineServerCookie def)) value
    = (let! encoded :=
         ICookieCodec.encode
           (match ServerCookieDefinition.encryption def with
            | Some codec => codec
            | None => JsonCodec (ServerCookieDefinition.schema def)
            end) value in
       cookies_set (ServerCookieDefinition.name def) encoded options)
    ∧ property options (js "httpOnly") = VBool true
    ∧ property options (js "secure") = VBool true
    ∧ property options (js "path")
      = logical_or (property (ServerCookieDefinition.options def) (js "path"))
                   (VString (js "/"))
    ∧ ToBoolean (property options (js "path")) = true
    ∧ (∀ k, k ∈ Map_keys options →
            k ∈ [js "domain"; js "expires"; js "httpOnly"; js "maxAge";
                 js "partitioned"; js "path"; js "priority"; js "sameSite";
                 js "secure"])
    ∧ (NoDup (Map_keys (ServerCookieDefinition.options def)) →
       ∀ k, k ∈ [js "domain"; js "expires"; js "maxAge"; js "partitioned";
                 js "priority"; js "sameSite"] →
            Map_get options k
            = Map_get (ServerCookieDefinition.options def) k).
Proof.
  exists (pick (CookieConfig.options
                  (RawCookieHandle.config
                     (CookieController.asRaw (defineServerCookie def))))
            [js "domain"; js "expires"; js "httpOnly"; js "maxAge";
             js "partitioned"; js "path"; js "priority"; js "sameSite";
             js "secure"]).
  split; [reflexivity|].
  unfold property. rewrite !pick_get, !strictOptions_get. decide_names.
  split_and!; [done|done|done|by apply logical_or_truthy|apply pick_keys|].
  intros Hnd k Hk. rewrite pick_get, strictOptions_get.
  change (spread [] (ServerCookieDefinition.options def))
    with (Map_from (ServerCookieDefinition.options def)).
  rewrite Map_from_entries by done.
  repeat (apply elem_of_cons in Hk as [->|Hk]; [by decide_names|]).
  by apply elem_of_nil in Hk.
Qed.

(** X24, removing a server cookie: [remove] on a cookie made by
    [defineServerCookie] (so also [consume], when it removes) makes one
    call [delete] of the store of [next/headers], with an object that names
    the cookie, has [maxAge] 0, [httpOnly] and [secure] [true] and the path
    the cookie was set with, and never carries [expires]. *)
Theorem server_cookie_removal def :
  ∃ obj,
    RawCookieHandle.remove (CookieController.asRaw (defineServerCookie def))
    = cookies_delete obj
    ∧ property obj (js "name") = VString (ServerCookieDefinition.name def)
    ∧ property obj (js "maxAge") = VNumber (mkDecimal false 0 0)
    ∧ property obj (js "httpOnly") = VBool true
    ∧ property obj (js "secure") = VBool true
    ∧ property obj (js "path")
      = logical_or (property (ServerCookieDefinition.options def) (js "path"))
                   (VString (js "/"))
    ∧ Map_get obj (js "expires") = None.
Proof.
  exists (spread [(js "name", VString (ServerCookieDefinition.name def))]
            (Map_set
               (pick (CookieConfig.options
                        (RawCookieHandle.config
                           (CookieController.asRaw (defineServerCookie def))))
                  [js "domain"; js "httpOnly"; js "maxAge"; js "partitioned";
                   js "path"; js "priority"; js "sameSite"; js "secure"])
               (js "maxAge") (VNumber (mkDecimal false 0 0)))).
  split; [reflexivity|].
  unfold property.
  rewrite !spread_get by apply Map_set_NoDup, pick_NoDup.
  rewrite !Map_get_set, !pick_get, !strictOptions_get. decide_names.
  by cbn [Map_get].
Qed.

End ServerCookieFacts.

(** ** What [decrypt] reads of an envelope *)

(** [decrypt] on an input whose metadata decode. *)
Lemma EncryptionService_decrypt_metadata this text metadata options w :
  decode_metadata text = Ok metadata →
  EncryptionService_decrypt this text options w
  = try_catch
      (let! requested := lift (Get metadata (js "algorithm")) in
       let! m := read_Map (providers this) in
       match Map_get_value m requested with
       | None =>
           let! available := getSupportedAlgorithms this in
           let! error :=
             lift (new_UnsupportedAlgorithmError requested available) in
           throw error
       | Some provider =>
           let! jwe := lift (Get metadata (js "data")) in
           invoke provider method_decrypt
             (λ c, decrypt c jwe
                     (match options with
                      | Some o => DecryptOptions.context o
                      | None => None
                      end))
       end)
      (λ error,
         if instanceof_UnsupportedAlgorithmError error
            || instanceof_DecryptionError error
         then throw error
         else throw (DecryptionError (js "Decryption failed") None
                                     (Some error))) w.
Proof.
  intros Hdec. destruct text as [|x xs]; [by vm_compute in Hdec|].
  unfold EncryptionService_decrypt. cbn [ToBoolean negb].
  unfold decode_metadata in Hdec.
  unfold try_catch, bind at 1, lift at 1.
  destruct (atob (x :: xs)) as [json|]; [|done].
  unfold bind at 1, lift at 1. by rewrite Hdec.
Qed.

(** X25, only the algorithm and the data are read: two inputs whose
    metadata decode and agree on the members [algorithm] and [data] are
    decrypted alike, result and state, whatever else they hold: [decrypt]
    checks no [version], ignores further members and their order, and
    the white space and padding of the base64 text. *)
Theorem decrypt_reads_algorithm_and_data_only
    this text text' metadata metadata' options w :
  decode_metadata text = Ok metadata →
  decode_metadata text' = Ok metadata' →
  Get metadata (js "algorithm") = Get metadata' (js "algorithm") →
  Get metadata (js "data") = Get metadata' (js "data") →
  EncryptionService_decrypt this text options w
  = EncryptionService_decrypt this text' options w.
Proof.
  intros Hdec Hdec' Halg Hdata.
  rewrite (EncryptionService_decrypt_metadata _ _ _ _ _ Hdec).
  rewrite (EncryptionService_decrypt_metadata _ _ _ _ _ Hdec').
  by rewrite Halg, Hdata.
Qed.

(** ** Cookies in the browser *)

Section BrowserCookieFacts.
Context {S : Type} `{CookiePlatform S}.
Implicit Types def : BrowserCookieDefinition.t S.

(** The options [defineBrowserCookie] gives the handles. *)
Lemma browser_strictOptions_get def k :
  Map_get
    (CookieConfig.options
       (RawCookieHandle.config
          (CookieController.asRaw (defineBrowserCookie def)))) k
  = if bool_decide (js "secure" = k) then Some (VBool true)
    else if bool_decide (js "httpOnly" = k) then Some (VBool false)
    else if bool_decide (js "path" = k)
         then Some (logical_or
                      (property (BrowserCookieDefinition.options def)
                         (js "path"))
                      (VString (js "/")))
    else Map_get (spread [] (BrowserCookieDefinition.options def)) k.
Proof.
  cbn [defineBrowserCookie CookieController.constructor CookieController.asRaw
       CookieController.rawHandle RawCookieHandle.config CookieConfig.options].
  by rewrite !Map_get_set.
Qed.

(** X26, a browser cookie is Secure and never HttpOnly: whatever the
    definition holds, [push] (and [set]) on a cookie made by
    [defineBrowserCookie] encodes the value and then, where [window] is
    undefined, calls [set] of the store of [next/headers] with the options
    the storage forwards, and elsewhere assigns [document.cookie] the
    serialization of the cookie with all its options; in both, [httpOnly]
    is [false], [secure] is [true], and [path] is the path of the
    definition, or ['/'] when that is missing or empty. *)
Theorem browser_cookie_is_secure_and_not_http_only def value :
  ∃ options,
    SignalCookieHandle.push
      (CookieController.asSignal (defineBrowserCookie def)) value
    = (let! encoded :=
         ICookieCodec.encode
           (match BrowserCookieDefinition.encryption def with
            | Some codec => codec
            | None => JsonCodec (BrowserCookieDefinition.schema def)
            end) value in
       λ s, if window_is_undefined s
            then cookies_set (BrowserCookieDefinition.name def) encoded
                   (pick options
                      [js "domain"; js "expires"; js "httpOnly"; js "maxAge";
                       js "partitioned"; js "path"; js "priority";
                       js "sameSite"; js "secure"]) s
            else (let! text :=
                    lift (serialize (BrowserCookieDefinition.name def)
                            encoded options) in
                  set_document_cookie text) s)
    ∧ (∀ forwarded,
         forwarded = options
         ∨ forwarded
           = pick options
               [js "domain"; js "expires"; js "httpOnly"; js "maxAge";
                js "partitioned"; js "path"; js "priority"; js "sameSite";
                js "secure"] →
         property forwarded (js "httpOnly") = VBool false
         ∧ property forwarded (js "secure") = VBool true
         ∧ property forwarded (js "path")
           = logical_or
               (property (BrowserCookieDefinition.options def) (js "path"))
               (VString (js "/"))
         ∧ ToBoolean (property forwarded (js "path")) = true).
Proof.
  exists (CookieConfig.options
            (RawCookieHandle.config
               (CookieController.asRaw (defineBrowserCookie def)))).
  split; [reflexivity|].
  intros forwarded [-> | ->]; unfold property;
    rewrite ?pick_get, !browser_strictOptions_get; decide_names;
    (split_and!; [done|done|done|by apply logical_or_truthy]).
Qed.

End BrowserCookieFacts.

(** * Further properties on concrete inputs *)

(** ['data'] with the context ['user_123']. *)
Lemma round_trip_with_context_witness :
  ∃ encrypted w1,
    EncryptionService_encrypt Symbolic.service (js "data")
      (EncryptOptions.make (Some (js "JWE-A256GCM")) (Some (js "user_123")))
      (Symbolic.world Symbolic.secret_A)
    = (Ok encrypted, w1)
    ∧ (EncryptionService_decrypt Symbolic.service encrypted
         (Some (DecryptOptions.make (Some (js "user_123")))) w1).1
      = Ok (js "data").
Proof.
  apply (@round_trip_with_context Symbolic.jose Symbolic_ideal
           (Symbolic.world Symbolic.secret_A) Symbolic.service 0%nat
           [importKey (repeat 0 32)] (js "data") (Some (js "user_123"))).
  - apply Symbolic_registers.
  - apply Symbolic_all_keys_A.
  - apply is_string_forallb. vm_compute. reflexivity.
  - reflexivity.
  - discriminate.
Defined.

(** ['\uFEFFdata'] comes back as ['data']. *)
Lemma leading_BOM_is_dropped_witness :
  ∃ encrypted w1,
    EncryptionService_encrypt Symbolic.service (0xFEFF :: js "data")
      (EncryptOptions.make (Some (js "JWE-A256GCM")) None)
      (Symbolic.world Symbolic.secret_A)
    = (Ok encrypted, w1)
    ∧ (EncryptionService_decrypt Symbolic.service encrypted None w1).1
      = Ok (js "data").
Proof.
  apply (@leading_BOM_is_dropped Symbolic.jose Symbolic_ideal
           (Symbolic.world Symbolic.secret_A) Symbolic.service 0%nat
           [importKey (repeat 0 32)] (js "data")).
  - apply Symbolic_registers.
  - apply Symbolic_all_keys_A.
  - apply is_string_forallb. vm_compute. reflexivity.
  - reflexivity.
Defined.

(** A handle cached under ['AA=='], which decodes to one byte, is
    returned as it is; and the first call for [secret_A] on an empty cache
    fills the cache, from which the second call reads. *)
Lemma getCryptoKey_memoizes_witness :
  @getCryptoKey Symbolic.jose (js "AA==")
    (mkProviderState Symbolic.secret_A [(js "AA==", importKey [7])]
       (λ n, [N.of_nat n]) 0)
  = (Ok (importKey [7]),
     mkProviderState Symbolic.secret_A [(js "AA==", importKey [7])]
       (λ n, [N.of_nat n]) 0)
  ∧ Map_get
      (cryptoKeyCache
         (mkProviderState Symbolic.secret_A
            [(Symbolic.secret_A, importKey (repeat 0 32))]
            (λ n, [N.of_nat n]) 0)) Symbolic.secret_A
    = Some (importKey (repeat 0 32))
  ∧ (∀ s, s ≠ Symbolic.secret_A →
       Map_get
         (cryptoKeyCache
            (mkProviderState Symbolic.secret_A
               [(Symbolic.secret_A, importKey (repeat 0 32))]
               (λ n, [N.of_nat n]) 0)) s
       = Map_get
           (cryptoKeyCache
              (mkProviderState Symbolic.secret_A [] (λ n, [N.of_nat n]) 0)) s)
  ∧ @getCryptoKey Symbolic.jose Symbolic.secret_A
      (mkProviderState Symbolic.secret_A
         [(Symbolic.secret_A, importKey (repeat 0 32))] (λ n, [N.of_nat n]) 0)
    = (Ok (importKey (repeat 0 32)),
       mkProviderState Symbolic.secret_A
         [(Symbolic.secret_A, importKey (repeat 0 32))] (λ n, [N.of_nat n]) 0).
Proof.
  split.
  - apply (proj1 (@getCryptoKey_memoizes Symbolic.jose (js "AA==")
                    (mkProviderState Symbolic.secret_A
                       [(js "AA==", importKey [7])] (λ n, [N.of_nat n]) 0))).
    reflexivity.
  - apply (proj1 (proj2 (@getCryptoKey_memoizes Symbolic.jose
                           Symbolic.secret_A
                           (mkProviderState Symbolic.secret_A []
                              (λ n, [N.of_nat n]) 0)))).
    vm_compute. reflexivity.
Defined.


(** [SECRET=' k1 , ,k2,'] gives the two secrets ['k1'] and ['k2']. *)
Lemma getSecretList_join_witness :
  getSecretList (mkProviderState (js " k1 , ,k2,") [] (λ _, []) 0)
  = (Ok [js "k1"; js "k2"],
     mkProviderState (js " k1 , ,k2,") [] (λ _, []) 0).
Proof.
  apply (getSecretList_join
           (mkProviderState (js " k1 , ,k2,") [] (λ _, []) 0)
           [js " k1 "; js " "; js "k2"; []]).
  - done.
  - apply (bool_decide_unpack _). vm_compute. exact I.
  - reflexivity.
Defined.

Lemma Symbolic_all_keys_BA :
  @all_keys Symbolic.jose (Symbolic.secret_B ++ js "," ++ Symbolic.secret_A)
  = Ok [importKey (1 :: repeat 0 31); importKey (repeat 0 32)].
Proof. vm_compute. reflexivity. Qed.

(** An envelope made under [A] with the context ['user_123'], read by a
    service configured with [B, A]. *)
Lemma envelope_decrypts_iff_key_listed_witness :
  ∃ encrypted w1,
    EncryptionService_encrypt Symbolic.service (js "data")
      (EncryptOptions.make (Some (js "JWE-A256GCM")) (Some (js "user_123")))
      (Symbolic.world Symbolic.secret_A)
    = (Ok encrypted, w1)
    ∧ (EncryptionService_decrypt Symbolic.service encrypted
         (Some (DecryptOptions.make (Some (js "user_123"))))
         (Symbolic.world (Symbolic.secret_B ++ js "," ++ Symbolic.secret_A))).1
      = if bool_decide (importKey (repeat 0 32)
                        ∈ [importKey (1 :: repeat 0 31);
                           importKey (repeat 0 32)])
           && context_accepted (Some (js "user_123")) (Some (js "user_123"))
        then Ok (js "data")
        else Err (DecryptionError (js "Decryption failed") None
                    (Some (Error (js "Decryption failed")))).
Proof.
  apply (@envelope_decrypts_iff_key_listed Symbolic.jose Symbolic_ideal
           (Symbolic.world Symbolic.secret_A) Symbolic.service 0%nat
           (importKey (repeat 0 32)) (js "data") (Some (js "user_123"))
           (Symbolic.world (Symbolic.secret_B ++ js "," ++ Symbolic.secret_A))
           Symbolic.service 0%nat
           [importKey (1 :: repeat 0 31); importKey (repeat 0 32)]
           (Some (DecryptOptions.make (Some (js "user_123"))))).
  - apply Symbolic_registers.
  - apply Symbolic_active_key_A.
  - discriminate.
  - apply is_string_forallb. vm_compute. reflexivity.
  - reflexivity.
  - discriminate.
  - apply Symbolic_registers.
  - apply Symbolic_all_keys_BA.
Defined.

(** [SECRET] holds a valid secret, then ['AAAA'], which is 3 bytes. *)
Lemma invalid_secret_breaks_decrypt_only_witness :
  ∃ encrypted w1,
    EncryptionService_encrypt Symbolic.service (js "data")
      (EncryptOptions.make (Some (js "JWE-A256GCM")) None)
      (Symbolic.world (Symbolic.secret_A ++ js ",AAAA"))
    = (Ok encrypted, w1)
    ∧ ∀ options,
        (EncryptionService_decrypt Symbolic.service encrypted options w1).1
        = Err (DecryptionError (js "Decryption failed") None
                 (Some (Error (js "Invalid secret key length")))).
Proof.
  apply (@invalid_secret_breaks_decrypt_only Symbolic.jose Symbolic_ideal
           (Symbolic.world (Symbolic.secret_A ++ js ",AAAA")) Symbolic.service
           0%nat Symbolic.secret_A [js "AAAA"] (importKey (repeat 0 32))
           (Error (js "Invalid secret key length")) (js "data") None).
  - apply Symbolic_registers.
  - vm_compute. reflexivity.
  - apply Symbolic_key_A.
  - vm_compute. reflexivity.
  - discriminate.
Defined.

(** [SECRET] is the empty string. *)
Lemma empty_plaintext_is_not_encrypted_witness :
  ∃ w1,
    EncryptionService_encrypt Symbolic.service []
      (EncryptOptions.make (Some (js "JWE-A256GCM")) (Some (js "user_123")))
      (Symbolic.world [])
    = (Ok (js "eyJhbGdvcml0aG0iOiJKV0UtQTI1NkdDTSIsInZlcnNpb24iOjEsImRhdGEiOiIifQ=="),
       w1)
    ∧ random_used w1 = random_used (Symbolic.world [])
    ∧ ∀ w2 this2 p2 options,
        @registers_JWE Symbolic.jose w2 this2 (js "JWE-A256GCM") p2 →
        (EncryptionService_decrypt this2
           (js "eyJhbGdvcml0aG0iOiJKV0UtQTI1NkdDTSIsInZlcnNpb24iOjEsImRhdGEiOiIifQ==")
           options w2).1 = Ok [].
Proof.
  apply (@empty_plaintext_is_not_encrypted Symbolic.jose Symbolic_ideal
           (Symbolic.world []) Symbolic.service 0%nat (Some (js "user_123"))).
  apply Symbolic_registers.
Defined.

(** The envelope of the data ['garbage'], which is no ciphertext. *)
Lemma decrypt_failure_is_opaque_witness :
  (∃ text,
     (EncryptionService_decrypt Symbolic.service
        (js "eyJhbGdvcml0aG0iOiJKV0UtQTI1NkdDTSIsInZlcnNpb24iOjEsImRhdGEiOiJnYXJiYWdlIn0=")
        None (Symbolic.world Symbolic.secret_A)).1 = Ok text)
  ∨ (EncryptionService_decrypt Symbolic.service
       (js "eyJhbGdvcml0aG0iOiJKV0UtQTI1NkdDTSIsInZlcnNpb24iOjEsImRhdGEiOiJnYXJiYWdlIn0=")
       None (Symbolic.world Symbolic.secret_A)).1
    = Err (DecryptionError (js "Decryption failed") None
             (Some (Error (js "Decryption failed")))).
Proof.
  apply (@decrypt_failure_is_opaque Symbolic.jose
           (Symbolic.world Symbolic.secret_A) Symbolic.service
           (js "JWE-A256GCM") 0%nat [importKey (repeat 0 32)] _ None
           (metadata_value (js "JWE-A256GCM") (js "garbage"))).
  - apply Symbolic_registers.
  - apply Symbolic_all_keys_A.
  - vm_compute. reflexivity.
  - reflexivity.
Defined.

(** The envelope of ['data']. *)
Lemma envelope_is_base64_text_witness :
  ∃ encrypted w1,
    EncryptionService_encrypt Symbolic.service (js "data")
      (EncryptOptions.make (Some (js "JWE-A256GCM")) None)
      (Symbolic.world Symbolic.secret_A)
    = (Ok encrypted, w1)
    ∧ encrypted ≠ []
    ∧ N.of_nat (length encrypted) mod 4 = 0
    ∧ Forall (λ c, is_Some (base64_value c) ∨ c = 61) encrypted
    ∧ ∃ a d, decode_metadata encrypted = Ok (metadata_value a d).
Proof.
  destruct (@encrypt_nonempty Symbolic.jose Symbolic_ideal
              (Symbolic.world Symbolic.secret_A) Symbolic.service 0%nat
              100 (js "ata") None (importKey (repeat 0 32))
              (Symbolic_registers _) Symbolic_active_key_A)
    as (w1 & Henc & _).
  eexists _, w1. split; [exact Henc|].
  exact (envelope_is_base64_text _ _ _ _ _ _ Henc).
Defined.

(** The test 'should re-encrypt with different context'. *)
Lemma reEncrypt_rebinds_context_witness :
  ∃ encrypted w1 reEncrypted w2,
    EncryptionService_encrypt Symbolic.service (js "migrate me")
      (EncryptOptions.make (Some (js "JWE-A256GCM")) (Some (js "old_context")))
      (Symbolic.world Symbolic.secret_A)
    = (Ok encrypted, w1)
    ∧ reEncrypt Symbolic.service encrypted
        (DecryptOptions.make (Some (js "old_context")))
        (EncryptOptions.make (Some (js "JWE-A256GCM"))
           (Some (js "new_context"))) w1
      = (Ok reEncrypted, w2)
    ∧ (EncryptionService_decrypt Symbolic.service reEncrypted
         (Some (DecryptOptions.make (Some (js "new_context")))) w2).1
      = Ok (js "migrate me")
    ∧ ∀ other, other ≠ [] → Some (js "new_context") ≠ Some other →
        (EncryptionService_decrypt Symbolic.service reEncrypted
           (Some (DecryptOptions.make (Some other))) w2).1
        = Err (DecryptionError (js "Decryption failed") None
                 (Some (Error (js "Decryption failed")))).
Proof.
  apply (@reEncrypt_rebinds_context Symbolic.jose Symbolic_ideal
           (Symbolic.world Symbolic.secret_A) Symbolic.service 0%nat
           [importKey (repeat 0 32)] (js "migrate me")
           (Some (js "old_context")) (Some (js "old_context"))
           (Some (js "new_context"))).
  - apply Symbolic_registers.
  - apply Symbolic_all_keys_A.
  - discriminate.
  - apply is_string_forallb. vm_compute. reflexivity.
  - reflexivity.
  - discriminate.
  - reflexivity.
Defined.

(** ['data'] moved from [A] to [B]. *)
Lemma reEncrypt_moves_to_active_key_witness :
  ∃ old wA' migrated wBA',
    EncryptionService_encrypt Symbolic.service (js "data")
      (EncryptOptions.make (Some (js "JWE-A256GCM")) (Some (js "user_123")))
      (Symbolic.world Symbolic.secret_A)
    = (Ok old, wA')
    ∧ reEncrypt Symbolic.service old
        (DecryptOptions.make (Some (js "user_123")))
        (EncryptOptions.make (Some (js "JWE-A256GCM")) (Some (js "user_123")))
        (Symbolic.world (Symbolic.secret_B ++ js "," ++ Symbolic.secret_A))
      = (Ok migrated, wBA')
    ∧ (EncryptionService_decrypt Symbolic.service migrated
         (Some (DecryptOptions.make (Some (js "user_123"))))
         (Symbolic.world Symbolic.secret_B)).1 = Ok (js "data")
    ∧ (EncryptionService_decrypt Symbolic.service old
         (Some (DecryptOptions.make (Some (js "user_123"))))
         (Symbolic.world Symbolic.secret_B)).1
      = Err (DecryptionError (js "Decryption failed") None
               (Some (Error (js "Decryption failed")))).
Proof.
  apply (@reEncrypt_moves_to_active_key Symbolic.jose Symbolic_ideal
           (Symbolic.world Symbolic.secret_A)
           (Symbolic.world (Symbolic.secret_B ++ js "," ++ Symbolic.secret_A))
           (Symbolic.world Symbolic.secret_B) Symbolic.service 0%nat
           Symbolic.secret_A Symbolic.secret_B
           (importKey (repeat 0 32)) (importKey (1 :: repeat 0 31))
           (js "data") (Some (js "user_123")) (Some (js "user_123"))
           (Some (js "user_123"))).
  - apply Symbolic_registers.
  - apply Symbolic_registers.
  - apply Symbolic_registers.
  - apply Symbolic_secret_list_A.
  - apply Symbolic_secret_list_BA.
  - apply Symbolic_secret_list_B.
  - apply Symbolic_key_A.
  - apply Symbolic_key_B.
  - discriminate.
  - discriminate.
  - apply is_string_forallb. vm_compute. reflexivity.
  - reflexivity.
  - discriminate.
  - reflexivity.
Defined.

(** Re-encryption asked with the context of another user. *)
Lemma reEncrypt_stops_at_failed_decryption_witness :
  ∃ encrypted w1 w2,
    EncryptionService_encrypt Symbolic.service (js "data")
      (EncryptOptions.make (Some (js "JWE-A256GCM")) (Some (js "user_123")))
      (Symbolic.world Symbolic.secret_A)
    = (Ok encrypted, w1)
    ∧ reEncrypt Symbolic.service encrypted
        (DecryptOptions.make (Some (js "user_456")))
        (EncryptOptions.make (Some (js "JWE-A256GCM")) (Some (js "user_456")))
        w1
      = (Err (DecryptionError (js "Decryption failed") None
                (Some (Error (js "Decryption failed")))), w2)
    ∧ provider_calls w2 = provider_calls w1 ++ [(0%nat, method_decrypt)]
    ∧ random_used w2 = random_used w1.
Proof.
  apply (@reEncrypt_stops_at_failed_decryption Symbolic.jose Symbolic_ideal
           (Symbolic.world Symbolic.secret_A) Symbolic.service 0%nat
           [importKey (repeat 0 32)] (js "data") (js "user_123")
           (js "user_456")
           (EncryptOptions.make (Some (js "JWE-A256GCM"))
              (Some (js "user_456")))).
  - apply Symbolic_registers.
  - apply Symbolic_all_keys_A.
  - discriminate.
  - discriminate.
  - discriminate.
  - discriminate.
Defined.

(** [createEncryptionService([new JWEA256GCMProvider(),
    new JWEA256GCMProvider()])]: two providers with one identifier. *)
Lemma createEncryptionService_registry_witness :
  ∃ this w1 m,
    createEncryptionService [0%nat; 1%nat]
      (@new_JWEA256GCMProvider Symbolic.jose
         (Symbolic.world Symbolic.secret_A)).2
    = (Ok this, w1)
    ∧ Providers w1
      = Providers (@new_JWEA256GCMProvider Symbolic.jose
                     (Symbolic.world Symbolic.secret_A)).2
    ∧ Maps w1 !! providers this = Some m
    ∧ ∀ X, Map_get m X
           = last (filter
                     (λ p, ALGORITHM_IDENTIFIER ∘ methods
                           <$> Providers
                                 (@new_JWEA256GCMProvider Symbolic.jose
                                    (Symbolic.world Symbolic.secret_A)).2 !! p
                           = Some X)
                     [0%nat; 1%nat]).
Proof.
  apply (createEncryptionService_registry [0%nat; 1%nat]
           (@new_JWEA256GCMProvider Symbolic.jose
              (Symbolic.world Symbolic.secret_A)).2).
  intros p [->|[->|[]%elem_of_nil]%elem_of_cons]%elem_of_cons;
    eexists; reflexivity.
Defined.

(** [SECRET] lists [B], then [A]. *)
Lemma getAllCryptoKeys_loads_every_secret_witness :
  @cache_coherent Symbolic.jose
    (cryptoKeyCache
       (@getAllCryptoKeys Symbolic.jose
          (mkProviderState (Symbolic.secret_B ++ js "," ++ Symbolic.secret_A)
             [] (λ _, []) 0)).2)
  ∧ (∀ keys,
       (@getAllCryptoKeys Symbolic.jose
          (mkProviderState (Symbolic.secret_B ++ js "," ++ Symbolic.secret_A)
             [] (λ _, []) 0)).1 = Ok keys ↔
       Forall2 (λ s k, k = importKey (Symbolic.decode_secret s)
                       ∧ length (Symbolic.decode_secret s) = 32%nat)
               [Symbolic.secret_B; Symbolic.secret_A] keys)
  ∧ (∀ keys,
       (@getAllCryptoKeys Symbolic.jose
          (mkProviderState (Symbolic.secret_B ++ js "," ++ Symbolic.secret_A)
             [] (λ _, []) 0)).1 = Ok keys →
       ∃ k rest, keys = k :: rest
         ∧ (@getActiveCryptoKey Symbolic.jose
              (mkProviderState
                 (Symbolic.secret_B ++ js "," ++ Symbolic.secret_A)
                 [] (λ _, []) 0)).1 = Ok k)
  ∧ ((@getAllCryptoKeys Symbolic.jose
        (mkProviderState (Symbolic.secret_B ++ js "," ++ Symbolic.secret_A)
           [] (λ _, []) 0)).1
     = Err (Error (js "Invalid secret key length"))
     ↔ Exists (λ s, length (Symbolic.decode_secret s) ≠ 32%nat)
              [Symbolic.secret_B; Symbolic.secret_A]).
Proof.
  apply (@getAllCryptoKeys_loads_every_secret Symbolic.jose
           (mkProviderState (Symbolic.secret_B ++ js "," ++ Symbolic.secret_A)
              [] (λ _, []) 0)
           [Symbolic.secret_B; Symbolic.secret_A]).
  - apply cache_coherent_nil.
  - vm_compute. reflexivity.
Defined.

(** ['\uFEFFa\uD800b'] comes back as ['a\uFFFDb']. *)
Lemma round_trip_of_any_string_witness :
  ∃ encrypted w1,
    EncryptionService_encrypt Symbolic.service [0xFEFF; 97; 0xD800; 98]
      (EncryptOptions.make (Some (js "JWE-A256GCM")) (Some (js "user_123")))
      (Symbolic.world Symbolic.secret_A)
    = (Ok encrypted, w1)
    ∧ (EncryptionService_decrypt Symbolic.service encrypted
         (Some (DecryptOptions.make (Some (js "user_123")))) w1).1
      = Ok [97; 0xFFFD; 98].
Proof.
  apply (@round_trip_of_any_string Symbolic.jose Symbolic_ideal
           (Symbolic.world Symbolic.secret_A) Symbolic.service 0%nat
           [importKey (repeat 0 32)] [0xFEFF; 97; 0xD800; 98]
           (Some (js "user_123"))).
  - apply Symbolic_registers.
  - apply Symbolic_all_keys_A.
  - apply is_string_forallb. vm_compute. reflexivity.
Defined.

(** ['state-1'] pushed into an empty jar. *)
Lemma consume_is_one_shot_witness :
  ∃ s1 s2,
    SignalCookieHandle.push (Jar.handle (js "__Host-OAuth2-PKCE"))
      (VString (js "state-1")) ∅ = (Ok tt, s1)
    ∧ SignalCookieHandle.consume (Jar.handle (js "__Host-OAuth2-PKCE")) s1
      = (Ok (VString (js "state-1")), s2)
    ∧ SignalCookieHandle.consume (Jar.handle (js "__Host-OAuth2-PKCE")) s2
      = (Ok VNull, s2).
Proof.
  apply (consume_is_one_shot (Jar.handle (js "__Host-OAuth2-PKCE"))
           (VString (js "state-1")) (js "state-1") ∅).
  - apply Jar_keeps_cookies.
  - reflexivity.
  - reflexivity.
  - discriminate.
  - reflexivity.
Defined.

(** The flag [false] pushed into an empty jar. *)
Lemma consume_keeps_a_falsy_value_witness :
  ∃ s1,
    SignalCookieHandle.push (Jar.flag (js "seen")) (VBool false) ∅
    = (Ok tt, s1)
    ∧ SignalCookieHandle.consume (Jar.flag (js "seen")) s1
      = (Ok (VBool false), s1)
    ∧ ICookieStorage.read Jar.storage (js "seen") s1
      = (Ok (Some (js "false")), s1).
Proof.
  apply (consume_keeps_a_falsy_value (Jar.flag (js "seen")) (VBool false)
           (VBool false) (js "false") ∅).
  - apply Jar_keeps_cookies.
  - reflexivity.
  - reflexivity.
  - discriminate.
  - reflexivity.
Defined.

(** The envelope of [''], and metadata written by hand: other order,
    version 2, one more member, white space, no padding. *)
Lemma decrypt_reads_algorithm_and_data_only_witness :
  EncryptionService_decrypt Symbolic.service
    (js "eyJhbGdvcml0aG0iOiJKV0UtQTI1NkdDTSIsInZlcnNpb24iOjEsImRhdGEiOiIifQ==")
    None (Symbolic.world Symbolic.secret_A)
  = EncryptionService_decrypt Symbolic.service
      (js "eyJ2ZXJzaW9uIjoyLCJkYXRhIjoiIiwi YWxnb3JpdGhtIjoiSldFLUEyNTZHQ00iLCJub3RlIjpudWxsfQ")
      None (Symbolic.world Symbolic.secret_A).
Proof.
  apply (decrypt_reads_algorithm_and_data_only Symbolic.service _ _
           (metadata_value (js "JWE-A256GCM") [])
           (VObject [(js "version", VNumber (mkDecimal false 2 0));
                     (js "data", VString []);
                     (js "algorithm", VString (js "JWE-A256GCM"));
                     (js "note", VNull)])).
  - vm_compute. reflexivity.
  - vm_compute. reflexivity.
  - reflexivity.
  - reflexivity.
Defined.
